(** * pymatgen analysis utilities: a shallow embedding

    The development follows the Python sources module by module:

    - [EntryTools]     pymatgen/entries/entry_tools.py
                       ([_perform_grouping], [group_entries_by_structure],
                       [EntrySet]);
    - [Thermodynamics] pymatgen/analysis/defects/old_thermodynamics.py
                       ([DefectPhaseDiagram]);
    - [IRSpectraGen]   pymatgen/phonon/ir_spectra.py
                       ([IRDielectricTensorGenerator.get_ir_spectra]);
    - [Fragmentation]  pymatgen/analysis/fragmenter.py ([Fragmenter]).

    Python floats are idealised as rationals ([Q]); Python exceptions are
    values of a sum type; a loop whose end is not syntactic is a fuelled
    recursion, with a proof that the fuel given is enough where the loop
    always ends. *)

From stdpp Require Import gmap strings list fin_maps pretty sorting.
From Stdlib Require Import QArith Qround Lqa OrderedTypeEx.

Set Warnings "-register-all".

Local Open Scope nat_scope.

(** ** Python results *)

Inductive exn : Type :=
| ValueError (msg : string)
| AttributeError (attr : string)
| NameError (name : string)
| TypeError
| IndexError.

Inductive result (A : Type) : Type :=
| Ok (a : A)
| Raise (e : exn).
Arguments Ok {A} a.
Arguments Raise {A} e.

#[global] Instance result_ret : MRet result := λ A a, Ok a.
#[global] Instance result_bind : MBind result := λ A B k r,
  match r with
  | Ok a => k a
  | Raise e => Raise e
  end.

(** A list comprehension whose body can raise. *)
Definition mapR {A B} (f : A → result B) : list A → result (list B) :=
  fix go l :=
    match l with
    | [] => Ok []
    | x :: l => y ← f x; ys ← go l; Ok (y :: ys)
    end.

(** ** pymatgen/entries/entry_tools.py *)

Module EntryTools.

(** The workers of a pool append to the shared [manager.list()]
    concurrently: the list ends as some interleaving of the sequences the
    tasks append. *)
Inductive interleaving {A} : list (list A) → list A → Prop :=
| interleaving_done : interleaving [] []
| interleaving_drop ls1 ls2 out :
    interleaving (ls1 ++ ls2) out → interleaving (ls1 ++ [] :: ls2) out
| interleaving_take ls1 x l ls2 out :
    interleaving (ls1 ++ l :: ls2) out →
    interleaving (ls1 ++ (x :: l) :: ls2) (x :: out).

Section Grouping.
(** Entries ([ComputedStructureEntry]), structures and structure hashes are
    values compared with [==]; the [StructureMatcher] and the comparator
    live outside this module and are taken as they are. *)
Context {Entry Struct Species Hash : Type}.
Context `{!EqDecision Entry, !EqDecision Struct, !EqDecision Hash}.

(** [entry.structure] *)
Variable structure : Entry → Struct.
(** [s = structure.copy(); s.remove_species(species_to_remove)] *)
Variable remove_species : list Species → Struct → Struct.
(** [StructureMatcher(ltol, stol, angle_tol, primitive_cell, scale,
    comparator).fit(ref_host, test_host)] with the tolerances fixed *)
Variable fit : Struct → Struct → bool.
(** [comparator.get_structure_hash(host)] *)
Variable get_structure_hash : Struct → Hash.

Definition _get_host (s : Struct) (species_to_remove : list Species)
  : Struct :=
  match species_to_remove with
  | [] => s
  | _ :: _ => remove_species species_to_remove s
  end.

Abbreviation pair := (Entry * Struct)%type.

(** Lines 57-69: [matches = [unmatched[0]]], then every later pair whose
    host fits the reference host is appended. *)
Definition matches_of (unmatched : list pair) : list pair :=
  match unmatched with
  | [] => []
  | ref :: rest => ref :: filter (λ x, fit ref.2 x.2) rest
  end.

(** Line 71: [list(filter(lambda x: x not in matches, unmatched))]. *)
Definition remaining (unmatched : list pair) : list pair :=
  filter (λ x, x ∉ matches_of unmatched) unmatched.

(** The [while len(unmatched) > 0] loop; each iteration appends one group
    ([m[0] for m in matches]) to [groups]. *)
Fixpoint grouping_loop (fuel : nat) (unmatched : list pair)
    (groups : list (list Entry)) : option (list (list Entry)) :=
  match unmatched with
  | [] => Some groups
  | _ :: _ =>
      match fuel with
      | 0 => None
      | S fuel' =>
          grouping_loop fuel' (remaining unmatched)
                        (groups ++ [(matches_of unmatched).*1])
      end
  end.

(** [_perform_grouping(args)]: [unmatched = list(zip(entries, hosts))];
    the JSON encoding and decoding of the arguments carries the values
    through unchanged. *)
Definition _perform_grouping (entries : list Entry) (hosts : list Struct)
    (groups : list (list Entry)) : option (list (list Entry)) :=
  let unmatched := zip entries hosts in
  grouping_loop (length unmatched) unmatched groups.

(** Number of iterations the loop makes before [unmatched] is empty. *)
Fixpoint iterate_remaining (n : nat) (unmatched : list pair) : list pair :=
  match n with
  | 0 => unmatched
  | S n' => iterate_remaining n' (remaining unmatched)
  end.

(** [symm_entries[key].append(v)] on a [defaultdict(list)]; a Python dict
    keeps its keys in insertion order. *)
Fixpoint dict_append (k : Hash) (v : pair) (d : list (Hash * list pair))
  : list (Hash * list pair) :=
  match d with
  | [] => [(k, [v])]
  | (k', vs) :: d' =>
      if decide (k = k') then (k', vs ++ [v]) :: d'
      else (k', vs) :: dict_append k v d'
  end.

Definition symm_entries_of (entries_host : list pair)
  : list (Hash * list pair) :=
  foldl (λ d eh, dict_append (get_structure_hash eh.2) eh d) [] entries_host.

(** One task of [p.map]: [_perform_grouping] on the entries and hosts of
    one bucket, with what it appends to the shared list. *)
Definition task (eh : list pair) : option (list (list Entry)) :=
  _perform_grouping eh.*1 eh.*2 [].

Definition truthy (ncpus : option nat) : bool :=
  match ncpus with
  | None | Some 0 => false
  | Some (S _) => true
  end.

Definition entries_host_of (entries : list Entry)
    (species_to_remove : list Species) : list pair :=
  (λ entry, (entry, _get_host (structure entry) species_to_remove))
    <$> entries.

(** [group_entries_by_structure] with the tasks of the pool run one after
    the other, in the order of [symm_entries.values()]. *)
Definition group_entries_by_structure (entries : list Entry)
    (species_to_remove : list Species) (ncpus : option nat)
  : option (list (list Entry)) :=
  let entries_host := entries_host_of entries species_to_remove in
  if truthy ncpus then
    mjoin <$> mapM task (symm_entries_of entries_host).*2
  else
    let hosts := entries_host.*2 in
    _perform_grouping entries hosts [].

(** Every list the parallel branch can return, whatever the schedule. *)
Definition parallel_outcome (entries : list Entry)
    (species_to_remove : list Species) (out : list (list Entry)) : Prop :=
  ∃ appended,
    mapM task
      (symm_entries_of (entries_host_of entries species_to_remove)).*2
      = Some appended
    ∧ interleaving appended out.

(** The groups of pairs the loop produces, as a total function of the fuel
    (used to state what the loop returns). *)
Fixpoint pair_groups (fuel : nat) (unmatched : list pair) : list (list pair) :=
  match unmatched, fuel with
  | [], _ | _, 0 => []
  | _ :: _, S fuel' =>
      matches_of unmatched :: pair_groups fuel' (remaining unmatched)
  end.

Definition all_groups (unmatched : list pair) : list (list pair) :=
  pair_groups (length unmatched) unmatched.

(** [[m[0] for m in matches]] for every group. *)
Definition group_entries (gs : list (list pair)) : list (list Entry) :=
  (λ g : list pair, g.*1) <$> gs.

(** The pairs of [l] whose host has structure hash [k]. *)
Definition bucket (k : Hash) (l : list pair) : list pair :=
  filter (λ x, get_structure_hash x.2 = k) l.

(** The groups found bucket by bucket, for the hashes [K]. *)
Definition bucket_groups (K : list Hash) (l : list pair) : list (list pair) :=
  mjoin ((λ k, all_groups (bucket k l)) <$> K).

(** *** The loop terminates *)

Lemma head_in_matches ref rest : ref ∈ matches_of (ref :: rest).
Proof. simpl. apply list_elem_of_here. Qed.

Lemma remaining_shrinks ref rest :
  length (remaining (ref :: rest)) < length (ref :: rest).
Proof.
  unfold remaining. apply length_filter_lt with (x := ref).
  - apply list_elem_of_here.
  - intros Hn. apply Hn, head_in_matches.
Qed.

Lemma remaining_length_le l : length (remaining l) ≤ length l.
Proof. apply length_filter. Qed.

Lemma grouping_loop_spec fuel : ∀ l acc,
  length l ≤ fuel →
  grouping_loop fuel l acc = Some (acc ++ group_entries (pair_groups fuel l)).
Proof.
  induction fuel as [|fuel IH]; intros [|ref rest] acc Hlen; simpl in *.
  - by rewrite app_nil_r.
  - lia.
  - by rewrite app_nil_r.
  - rewrite IH.
    + by rewrite <- app_assoc.
    + pose proof (remaining_shrinks ref rest). simpl in *. lia.
Qed.

Lemma pair_groups_fuel fuel : ∀ l,
  length l ≤ fuel → pair_groups fuel l = all_groups l.
Proof.
  unfold all_groups.
  induction fuel as [|fuel IH]; intros [|ref rest] Hlen; simpl in *;
    try done; try lia.
  f_equal. rewrite IH.
  - symmetry. apply (lt_wf_ind (length rest)
      (λ n, ∀ l, length l ≤ n → pair_groups n l = pair_groups (length l) l)).
    + clear. intros n IHn [|r l] Hl; [by destruct n|].
      destruct n as [|n]; simpl in *; [lia|].
      f_equal.
      pose proof (remaining_shrinks r l) as Hs. simpl in Hs.
      rewrite (IHn n) by lia.
      rewrite (IHn (length l)) by lia. done.
    + pose proof (remaining_shrinks ref rest). simpl in *. lia.
  - pose proof (remaining_shrinks ref rest). simpl in *. lia.
Qed.

Lemma all_groups_nil : all_groups [] = [].
Proof. done. Qed.

Lemma all_groups_cons ref rest :
  all_groups (ref :: rest)
  = matches_of (ref :: rest) :: all_groups (remaining (ref :: rest)).
Proof.
  unfold all_groups at 1. simpl. f_equal.
  apply pair_groups_fuel.
  pose proof (remaining_shrinks ref rest). simpl in *. lia.
Qed.

Lemma perform_grouping_spec (l : list pair) acc :
  _perform_grouping l.*1 l.*2 acc
  = Some (acc ++ group_entries (all_groups l)).
Proof.
  unfold _perform_grouping. rewrite zip_fst_snd.
  by rewrite grouping_loop_spec.
Qed.


Lemma iterate_remaining_nil n : iterate_remaining n [] = [].
Proof. induction n; simpl; auto. Qed.

Lemma length_ind {A} (P : list A → Prop) :
  (∀ l, (∀ l', length l' < length l → P l') → P l) → ∀ l, P l.
Proof.
  intros H l. remember (length l) as n eqn:Hn. revert l Hn.
  induction n as [n IH] using lt_wf_ind. intros l ->.
  apply H. intros l' Hl. by apply (IH (length l')).
Qed.

Lemma iterations_bound l : length (all_groups l) ≤ length l.
Proof.
  induction l as [[|ref rest] IH] using length_ind; [done|].
  rewrite all_groups_cons. simpl.
  pose proof (remaining_shrinks ref rest) as Hs.
  specialize (IH _ Hs). simpl in *. lia.
Qed.

Lemma iterations_exact l :
  iterate_remaining (length (all_groups l)) l = []
  ∧ ∀ m, m < length (all_groups l) → iterate_remaining m l ≠ [].
Proof.
  induction l as [[|ref rest] IH] using length_ind.
  - split; [done|]. simpl. lia.
  - rewrite all_groups_cons.
    destruct (IH (remaining (ref :: rest))) as [IH1 IH2].
    { apply remaining_shrinks. }
    split; [done|].
    intros [|m] Hm; simpl in *; [done|]. apply IH2. lia.
Qed.

(** *** The groups partition the input *)

Lemma filter_ext_elem {A} (P Q : A → Prop)
    `{!∀ x, Decision (P x), !∀ x, Decision (Q x)} (l : list A) :
  (∀ x, x ∈ l → P x ↔ Q x) → filter P l = filter Q l.
Proof.
  induction l as [|x l IH]; intros HPQ; [done|].
  rewrite !filter_cons.
  rewrite IH by (intros y Hy; apply HPQ; by right).
  destruct (decide (P x)) as [HP|HP], (decide (Q x)) as [HQ|HQ]; try done;
    exfalso; apply (HPQ x) in HP || apply (HPQ x) in HQ; try done; by left.
Qed.

Lemma filter_none {A} (P : A → Prop) `{!∀ x, Decision (P x)} (l : list A) :
  (∀ x, x ∈ l → ¬ P x) → filter P l = [].
Proof.
  induction l as [|x l IH]; intros HP; [done|].
  rewrite filter_cons_False by (apply HP; by left).
  apply IH. intros y Hy. apply HP. by right.
Qed.

Lemma elem_of_matches ref rest x :
  x ∈ matches_of (ref :: rest) ↔ x = ref ∨ (fit ref.2 x.2 ∧ x ∈ rest).
Proof. simpl. by rewrite elem_of_cons, list_elem_of_filter. Qed.

Lemma remaining_cons ref rest :
  remaining (ref :: rest)
  = filter (λ x, x ∉ matches_of (ref :: rest)) rest.
Proof.
  unfold remaining. rewrite filter_cons_False; [done|].
  intros Hn. apply Hn, head_in_matches.
Qed.

Lemma interleaving_Permutation {A} (ls : list (list A)) out :
  interleaving ls out → out ≡ₚ mjoin ls.
Proof.
  induction 1 as [|ls1 ls2 out _ IH|ls1 x l ls2 out _ IH].
  - done.
  - by rewrite IH, !join_app.
  - rewrite IH, !join_app. simpl.
    by rewrite (Permutation_middle (mjoin ls1) _ x).
Qed.

Lemma interleaving_in_order {A} (ls : list (list A)) :
  interleaving ls (mjoin ls).
Proof.
  induction ls as [|l ls IH]; [constructor|]. simpl.
  induction l as [|x l IHl]; simpl.
  - by apply (interleaving_drop []).
  - by apply (interleaving_take []).
Qed.

Lemma matches_remaining_Permutation ref rest :
  (∀ s, fit s s) →
  matches_of (ref :: rest) ++ remaining (ref :: rest) ≡ₚ ref :: rest.
Proof.
  intros fit_refl. rewrite remaining_cons.
  rewrite (filter_ext_elem _ (λ x, ¬ fit ref.2 x.2) rest).
  - simpl. constructor. apply filter_app_complement.
  - intros x Hx. rewrite elem_of_matches. split.
    + intros Hn Hfit. apply Hn. by right.
    + intros Hn [->|[Hfit _]]; apply Hn; [apply fit_refl|done].
Qed.

Lemma all_groups_partition l :
  (∀ s, fit s s) → mjoin (all_groups l) ≡ₚ l.
Proof.
  intros fit_refl.
  induction l as [[|ref rest] IH] using length_ind; [done|].
  rewrite all_groups_cons. change (mjoin (?g :: ?gs)) with (g ++ mjoin gs).
  rewrite IH by apply remaining_shrinks.
  by apply matches_remaining_Permutation.
Qed.

Lemma all_groups_shape l :
  Forall (λ g, ∃ ref rest,
            g = ref :: rest ∧ Forall (λ x : pair, fit ref.2 x.2) rest)
         (all_groups l).
Proof.
  induction l as [[|ref rest] IH] using length_ind; [constructor|].
  rewrite all_groups_cons. constructor.
  - exists ref, (filter (λ x, fit ref.2 x.2) rest). split; [done|].
    apply Forall_forall. intros x Hx. by apply list_elem_of_filter in Hx as [? _].
  - apply IH, remaining_shrinks.
Qed.

(** *** Grouping bucket by bucket *)

Lemma matches_hash ref rest x :
  (∀ a b, fit a b → get_structure_hash a = get_structure_hash b) →
  x ∈ matches_of (ref :: rest) →
  get_structure_hash x.2 = get_structure_hash ref.2.
Proof.
  intros fit_hash [->|[Hfit _]]%elem_of_matches; [done|].
  symmetry. by apply fit_hash.
Qed.

Lemma bucket_remaining_ne k ref rest :
  (∀ a b, fit a b → get_structure_hash a = get_structure_hash b) →
  k ≠ get_structure_hash ref.2 →
  bucket k (remaining (ref :: rest)) = bucket k (ref :: rest).
Proof.
  intros fit_hash Hk. unfold bucket, remaining.
  rewrite list_filter_filter. apply list_filter_iff. intros x. split.
  - by intros [? _].
  - intros Hx. split; [done|]. intros Hin.
    apply (matches_hash _ _ _ fit_hash) in Hin. congruence.
Qed.

Lemma bucket_head ref rest :
  bucket (get_structure_hash ref.2) (ref :: rest)
  = ref :: bucket (get_structure_hash ref.2) rest.
Proof. unfold bucket. by rewrite filter_cons_True. Qed.

Lemma matches_bucket ref rest :
  (∀ a b, fit a b → get_structure_hash a = get_structure_hash b) →
  matches_of (ref :: bucket (get_structure_hash ref.2) rest)
  = matches_of (ref :: rest).
Proof.
  intros fit_hash. simpl. f_equal. unfold bucket.
  rewrite list_filter_filter. apply list_filter_iff. intros x. split.
  - by intros [? _].
  - intros Hfit. split; [done|]. symmetry. by apply fit_hash.
Qed.

Lemma remaining_bucket ref rest :
  (∀ a b, fit a b → get_structure_hash a = get_structure_hash b) →
  remaining (ref :: bucket (get_structure_hash ref.2) rest)
  = bucket (get_structure_hash ref.2) (remaining (ref :: rest)).
Proof.
  intros fit_hash. rewrite !remaining_cons, matches_bucket by done.
  unfold bucket. rewrite !list_filter_filter.
  apply list_filter_iff. intros x. tauto.
Qed.

Lemma all_groups_bucket_head ref rest :
  (∀ a b, fit a b → get_structure_hash a = get_structure_hash b) →
  all_groups (bucket (get_structure_hash ref.2) (ref :: rest))
  = matches_of (ref :: rest)
    :: all_groups (bucket (get_structure_hash ref.2)
                          (remaining (ref :: rest))).
Proof.
  intros fit_hash.
  by rewrite bucket_head, all_groups_cons, matches_bucket, remaining_bucket.
Qed.

Lemma bucket_groups_step K ref rest :
  (∀ a b, fit a b → get_structure_hash a = get_structure_hash b) →
  NoDup K → get_structure_hash ref.2 ∈ K →
  bucket_groups K (ref :: rest)
  ≡ₚ matches_of (ref :: rest) :: bucket_groups K (remaining (ref :: rest)).
Proof.
  intros fit_hash. unfold bucket_groups.
  induction K as [|k K IH]; intros Hnd Hin; [by apply elem_of_nil in Hin|].
  apply NoDup_cons in Hnd as [Hk Hnd]. rewrite !fmap_cons. simpl.
  destruct (decide (k = get_structure_hash ref.2)) as [->|Hne].
  - rewrite all_groups_bucket_head by done. simpl. constructor.
    f_equiv. apply reflexive_eq. f_equal.
    apply list_fmap_ext. intros i k' Hk'.
    rewrite bucket_remaining_ne; [done..|].
    intros ->. apply Hk. by eapply list_elem_of_lookup_2.
  - apply elem_of_cons in Hin as [?|Hin]; [congruence|].
    rewrite IH by done.
    rewrite bucket_remaining_ne by done.
    by rewrite <- Permutation_middle.
Qed.

Lemma all_groups_by_bucket K l :
  (∀ a b, fit a b → get_structure_hash a = get_structure_hash b) →
  NoDup K → (∀ x, x ∈ l → get_structure_hash x.2 ∈ K) →
  all_groups l ≡ₚ bucket_groups K l.
Proof.
  intros fit_hash Hnd.
  induction l as [[|ref rest] IH] using length_ind; intros Hcov.
  - unfold bucket_groups. clear. induction K as [|k K IHK]; [done|].
    rewrite fmap_cons. simpl. done.
  - rewrite bucket_groups_step, all_groups_cons; [|done..|].
    + constructor. apply IH; [apply remaining_shrinks|].
      intros x [_ Hx]%list_elem_of_filter. by apply Hcov.
    + apply Hcov. by left.
Qed.

(** *** The buckets of [symm_entries] *)

Lemma bucket_snoc k l v :
  bucket k (l ++ [v])
  = bucket k l ++ (if decide (get_structure_hash v.2 = k) then [v] else []).
Proof. unfold bucket. by rewrite filter_app, filter_cons, filter_nil. Qed.

Lemma dict_append_keys k v d :
  (dict_append k v d).*1 = if decide (k ∈ d.*1) then d.*1 else d.*1 ++ [k].
Proof.
  induction d as [|[k' vs] d IH]; [done|].
  cbn [dict_append]. rewrite (fmap_cons fst (k', vs) d).
  destruct (decide (k = k')) as [->|Hne].
  - rewrite decide_True by left. done.
  - rewrite fmap_cons, IH.
    destruct (decide (k ∈ d.*1)) as [Hin|Hin].
    + rewrite decide_True by (by right). done.
    + rewrite decide_False; [done|].
      by intros [?|?]%elem_of_cons.
Qed.

Lemma dict_append_values v l d :
  let k := get_structure_hash v.2 in
  NoDup d.*1 →
  (k ∈ d.*1 ∨ bucket k l = []) →
  d.*2 = (λ k', bucket k' l) <$> d.*1 →
  (dict_append k v d).*2
  = (λ k', bucket k' (l ++ [v])) <$> (dict_append k v d).*1.
Proof.
  intros k. induction d as [|[k' vs] d IH]; simpl; intros Hnd Hk Hd.
  - destruct Hk as [Hk|Hk]; [by apply elem_of_nil in Hk|].
    by rewrite bucket_snoc, Hk, decide_True.
  - apply NoDup_cons in Hnd as [Hk' Hnd]. injection Hd as -> Hd.
    destruct (decide (k = k')) as [<-|Hne]; simpl.
    + rewrite bucket_snoc, decide_True by done. f_equal.
      rewrite Hd. apply list_fmap_ext. intros i k'' Hi.
      rewrite bucket_snoc, decide_False, app_nil_r; [done|].
      intros Heq. apply Hk'. fold k in Heq. rewrite Heq.
      by eapply list_elem_of_lookup_2.
    + rewrite bucket_snoc, decide_False, app_nil_r by done. f_equal.
      apply IH; [done| |done].
      destruct Hk as [[?|?]%elem_of_cons|?]; [done|by left|by right].
Qed.

Lemma symm_entries_spec l :
  let d := symm_entries_of l in
  NoDup d.*1
  ∧ d.*2 = (λ k, bucket k l) <$> d.*1
  ∧ ∀ x, x ∈ l → get_structure_hash x.2 ∈ d.*1.
Proof.
  unfold symm_entries_of.
  induction l as [|v l IH] using rev_ind; simpl.
  - split_and!; [constructor|done|]. intros x Hx. by apply elem_of_nil in Hx.
  - rewrite foldl_snoc. destruct IH as (Hnd & Hval & Hcov).
    set (d := foldl _ [] l) in *. split_and!.
    + rewrite dict_append_keys. case_decide; [done|].
      apply NoDup_app. split_and!; [done| |apply NoDup_singleton].
      intros k Hk ->%list_elem_of_singleton. done.
    + apply dict_append_values; [done| |done].
      destruct (decide (get_structure_hash v.2 ∈ d.*1)); [by left|right].
      unfold bucket. apply filter_none.
      intros x Hx Heq. apply Hcov in Hx. congruence.
    + intros x [Hx| ->%list_elem_of_singleton]%elem_of_app;
        rewrite dict_append_keys; case_decide.
      * by apply Hcov.
      * apply elem_of_app. left. by apply Hcov.
      * done.
      * apply elem_of_app. right. by left.
Qed.

Lemma tasks_appended (buckets : list (list pair)) :
  mapM task buckets
  = Some ((λ b, group_entries (all_groups b)) <$> buckets).
Proof.
  apply mapM_Some, Forall2_fmap_r, Forall_Forall2_diag, Forall_forall.
  intros b _. unfold task. by rewrite perform_grouping_spec.
Qed.


(** *** From pairs to entries *)

Lemma grouping_loop_exact l acc :
  grouping_loop (length (all_groups l)) l acc
  = Some (acc ++ group_entries (all_groups l)).
Proof.
  revert acc. induction l as [[|ref rest] IH] using length_ind; intros acc.
  - simpl. by rewrite app_nil_r.
  - rewrite all_groups_cons. cbn [length grouping_loop].
    rewrite IH by apply remaining_shrinks.
    unfold group_entries. rewrite fmap_cons. by rewrite <- app_assoc.
Qed.

Lemma group_entries_join (X : list (list (list pair))) :
  group_entries (mjoin X) = mjoin (group_entries <$> X).
Proof.
  unfold group_entries. induction X as [|gs X IH]; [done|].
  rewrite fmap_cons. simpl. by rewrite fmap_app, IH.
Qed.

Lemma join_group_entries (gs : list (list pair)) :
  mjoin (group_entries gs) = (mjoin gs).*1.
Proof.
  unfold group_entries. induction gs as [|g gs IH]; [done|].
  rewrite fmap_cons. simpl. by rewrite fmap_app, IH.
Qed.

Lemma entries_host_fst entries sp : (entries_host_of entries sp).*1 = entries.
Proof.
  unfold entries_host_of. rewrite <- list_fmap_compose.
  rewrite <- (list_fmap_id entries) at 2. by apply list_fmap_ext.
Qed.

Lemma entries_host_snd entries sp x :
  x ∈ entries_host_of entries sp → x.2 = _get_host (structure x.1) sp.
Proof.
  unfold entries_host_of. by intros (e & -> & _)%list_elem_of_fmap.
Qed.

(** What is appended for the buckets [bs], however interleaved, partitions
    the entries of the buckets into groups led by a reference entry. *)
Lemma appended_partition sp (bs : list (list pair)) out :
  (∀ s, fit s s) →
  (∀ x, x ∈ mjoin bs → x.2 = _get_host (structure x.1) sp) →
  out ≡ₚ mjoin ((λ b, group_entries (all_groups b)) <$> bs) →
  mjoin out ≡ₚ (mjoin bs).*1
  ∧ Forall (λ g, ∃ ref rest,
      g = ref :: rest
      ∧ Forall (λ e, fit (_get_host (structure ref) sp)
                         (_get_host (structure e) sp)) g) out.
Proof.
  intros fit_refl Hhost ->. split.
  - induction bs as [|b bs IH]; [done|].
    rewrite fmap_cons. simpl. rewrite join_app, fmap_app, IH.
    + by rewrite join_group_entries, all_groups_partition.
    + intros x Hx. apply Hhost. simpl. apply elem_of_app. by right.
  - induction bs as [|b bs IH]; [constructor|].
    rewrite fmap_cons. simpl. apply Forall_app. split.
    + assert (Hb : ∀ x, x ∈ b → x.2 = _get_host (structure x.1) sp).
      { intros x Hx. apply Hhost. simpl. apply elem_of_app. by left. }
      assert (Hsub : ∀ g x, g ∈ all_groups b → x ∈ g → x ∈ b).
      { intros g x Hg Hx. rewrite <- (all_groups_partition b fit_refl).
        apply list_elem_of_join. eauto. }
      unfold group_entries. apply Forall_fmap, Forall_forall.
      intros g Hg. pose proof (all_groups_shape b) as Hshape.
      rewrite Forall_forall in Hshape.
      destruct (Hshape g Hg) as (ref & rest & -> & Hfit).
      exists ref.1, rest.*1. split; [done|].
      rewrite fmap_cons. constructor.
      * apply fit_refl.
      * apply Forall_fmap. rewrite Forall_forall in Hfit |- *.
        intros x Hx. simpl.
        rewrite <- (Hb ref), <- (Hb x); [by apply Hfit| |].
        -- apply (Hsub (ref :: rest)); [done|by right].
        -- apply (Hsub (ref :: rest)); [done|by left].
    + apply IH. intros x Hx. apply Hhost. simpl. apply elem_of_app. by right.
Qed.

Lemma serial_result entries sp n :
  truthy n = false →
  group_entries_by_structure entries sp n
  = Some (group_entries (all_groups (entries_host_of entries sp))).
Proof.
  intros Hn. unfold group_entries_by_structure. rewrite Hn.
  rewrite <- (entries_host_fst entries sp) at 1.
  by rewrite perform_grouping_spec.
Qed.

Lemma parallel_result entries sp n :
  truthy n = true →
  group_entries_by_structure entries sp n
  = Some (mjoin ((λ b, group_entries (all_groups b))
                   <$> (symm_entries_of (entries_host_of entries sp)).*2)).
Proof.
  intros Hn. unfold group_entries_by_structure. rewrite Hn.
  by rewrite tasks_appended.
Qed.

(** *** The claims on grouping *)

(** C8. [_perform_grouping] terminates on every input: in each iteration of
    the while-loop the reference pair [unmatched[0]] is a member of
    [matches], so the filter step strictly shrinks [unmatched]; the loop
    reaches the empty list after a number [n] of iterations that is at most
    [len(entries)], and the call returns. *)
Theorem perform_grouping_terminates
    (entries : list Entry) (hosts : list Struct) (groups : list (list Entry)) :
  let unmatched := zip entries hosts in
  (∀ ref rest,
      ref ∈ matches_of (ref :: rest)
      ∧ length (remaining (ref :: rest)) < length (ref :: rest))
  ∧ (∃ n, n ≤ length entries
          ∧ iterate_remaining n unmatched = []
          ∧ (∀ m, m < n → iterate_remaining m unmatched ≠ [])
          ∧ is_Some (grouping_loop n unmatched groups))
  ∧ is_Some (_perform_grouping entries hosts groups).
Proof.
  intros unmatched. split_and!.
  - intros ref rest. split; [apply head_in_matches|apply remaining_shrinks].
  - exists (length (all_groups unmatched)).
    destruct (iterations_exact unmatched) as [Hend Hbefore].
    split_and!; [|done|done|by rewrite grouping_loop_exact].
    etrans; [apply iterations_bound|].
    unfold unmatched. rewrite length_zip. lia.
  - unfold _perform_grouping. fold unmatched.
    by rewrite grouping_loop_spec.
Qed.


(** C2. With [ncpus >= 1], [group_entries_by_structure] (which splits the
    entries by structure hash and maps [_perform_grouping] over the pool)
    returns the same groups as the serial call with [ncpus=None], as a set
    of groups and under every schedule of the pool, provided that any two
    structures the matcher fits have equal structure hashes. *)
Theorem group_entries_by_structure_parallel
    (entries : list Entry) (sp : list Species) (ncpus : nat) :
  (∀ a b, fit a b → get_structure_hash a = get_structure_hash b) →
  1 ≤ ncpus →
  ∃ serial,
    group_entries_by_structure entries sp None = Some serial
    ∧ (∃ par, group_entries_by_structure entries sp (Some ncpus) = Some par
              ∧ par ≡ₚ serial)
    ∧ (∀ out, parallel_outcome entries sp out → out ≡ₚ serial).
Proof.
  intros fit_hash Hn.
  set (l := entries_host_of entries sp).
  exists (group_entries (all_groups l)).
  assert (Hpar : mjoin ((λ b, group_entries (all_groups b))
                          <$> (symm_entries_of l).*2)
                 ≡ₚ group_entries (all_groups l)).
  { destruct (symm_entries_spec l) as (Hnd & Hval & Hcov).
    rewrite Hval, <- list_fmap_compose.
    trans (group_entries (bucket_groups (symm_entries_of l).*1 l)).
    - unfold bucket_groups. rewrite group_entries_join.
      by rewrite <- (list_fmap_compose _ group_entries).
    - unfold group_entries. apply fmap_Permutation. symmetry.
      by apply all_groups_by_bucket. }
  split_and!.
  - by apply serial_result.
  - eexists. split; [|exact Hpar].
    apply parallel_result. by destruct ncpus; [lia|].
  - intros out (appended & Happ & Hint).
    rewrite tasks_appended in Happ. injection Happ as <-.
    by rewrite (interleaving_Permutation _ _ Hint).
Qed.

(** *** More on the groups *)

Lemma remaining_sublist ref rest : remaining (ref :: rest) `sublist_of` rest.
Proof. rewrite remaining_cons. apply sublist_filter. Qed.

Lemma matches_sublist l : matches_of l `sublist_of` l.
Proof.
  destruct l as [|ref rest]; [constructor|]. simpl.
  apply sublist_skip, sublist_filter.
Qed.

Lemma all_groups_sublist l g : g ∈ all_groups l → g `sublist_of` l.
Proof.
  induction l as [[|ref rest] IH] using length_ind; intros Hg.
  - by apply elem_of_nil in Hg.
  - rewrite all_groups_cons in Hg. apply elem_of_cons in Hg as [->|Hg].
    + apply matches_sublist.
    + etrans; [by apply IH; [apply remaining_shrinks|]|].
      apply sublist_cons, remaining_sublist.
Qed.

Lemma all_groups_heads_sublist l : omap head (all_groups l) `sublist_of` l.
Proof.
  induction l as [[|ref rest] IH] using length_ind; [constructor|].
  rewrite all_groups_cons. simpl. apply sublist_skip.
  etrans; [apply IH, remaining_shrinks|apply remaining_sublist].
Qed.

Lemma all_groups_later_unfit l : ∀ i j ref rest g x,
  all_groups l !! i = Some (ref :: rest) → all_groups l !! j = Some g →
  i < j → x ∈ g → ¬ fit ref.2 x.2.
Proof.
  induction l as [[|r rs] IH] using length_ind; intros i j ref rest g x Hi Hj Hij Hx.
  - done.
  - rewrite all_groups_cons in Hi, Hj.
    destruct j as [|j]; [lia|]. simpl in Hj.
    destruct i as [|i]; simpl in Hi.
    + injection Hi as <- _. intros Hfit.
      assert (Hrem : x ∈ remaining (r :: rs)).
      { eapply elem_of_sublist; [exact Hx|].
        apply all_groups_sublist. by eapply list_elem_of_lookup_2. }
      rewrite remaining_cons in Hrem.
      apply list_elem_of_filter in Hrem as [Hnot Hin].
      apply Hnot, elem_of_matches. by right.
    + eapply (IH (remaining (r :: rs))); [apply remaining_shrinks|done..|lia|done].
Qed.

Lemma group_entries_lookup (gs : list (list pair)) i g :
  group_entries gs !! i = Some g ↔ ∃ gp, gs !! i = Some gp ∧ g = gp.*1.
Proof.
  unfold group_entries. rewrite list_lookup_fmap_Some.
  split; intros (gp & H1 & H2); by exists gp.
Qed.

(** The pairs of the groups are pairs of the input. *)
Lemma all_groups_elem l i gp x :
  all_groups l !! i = Some gp → x ∈ gp → x ∈ l.
Proof.
  intros Hi Hx. eapply elem_of_sublist; [exact Hx|].
  apply all_groups_sublist. by eapply list_elem_of_lookup_2.
Qed.

(** The serial result partitions the entries into groups led by a
    reference entry that every member fits. *)
Lemma group_entries_by_structure_shape
    (entries : list Entry) (sp : list Species) (ncpus : option nat)
    (groups : list (list Entry)) :
  (∀ s, fit s s) → truthy ncpus = false →
  group_entries_by_structure entries sp ncpus = Some groups →
  mjoin groups ≡ₚ entries
  ∧ Forall (λ g, ∃ ref rest,
      g = ref :: rest
      ∧ Forall (λ e, fit (_get_host (structure ref) sp)
                         (_get_host (structure e) sp)) g) groups.
Proof.
  intros fit_refl Hn Hcall.
  rewrite serial_result in Hcall by done. injection Hcall as <-.
  set (l := entries_host_of entries sp).
  destruct (appended_partition sp [l] (group_entries (all_groups l)) fit_refl)
    as [Hperm Hshape].
  - intros x Hx. apply entries_host_snd with entries. fold l.
    simpl in Hx. by rewrite app_nil_r in Hx.
  - simpl. by rewrite app_nil_r.
  - split; [|done]. rewrite Hperm. simpl. rewrite app_nil_r.
    unfold l. by rewrite entries_host_fst.
Qed.

(** X1. Serial grouping is greedy: no entry of a later group fits the host
    of the first (reference) entry of an earlier group. *)
Theorem later_groups_do_not_fit_earlier_reference
    (entries : list Entry) (sp : list Species) (ncpus : option nat)
    (groups : list (list Entry)) i j ref rest g e :
  truthy ncpus = false →
  group_entries_by_structure entries sp ncpus = Some groups →
  groups !! i = Some (ref :: rest) → groups !! j = Some g → i < j → e ∈ g →
  fit (_get_host (structure ref) sp) (_get_host (structure e) sp) = false.
Proof.
  intros Hn Hcall Hi Hj Hij He.
  rewrite serial_result in Hcall by done. injection Hcall as <-.
  apply group_entries_lookup in Hi as (gpi & Hi & Hgi).
  apply group_entries_lookup in Hj as (gpj & Hj & ->).
  destruct gpi as [|pref prest]; [done|]. injection Hgi as -> _.
  apply list_elem_of_fmap in He as (x & -> & Hx).
  rewrite <- (entries_host_snd entries sp pref), <- (entries_host_snd entries sp x).
  - destruct (fit pref.2 x.2) eqn:Hfit; [|done]. exfalso.
    eapply all_groups_later_unfit; [exact Hi|exact Hj|exact Hij|exact Hx|].
    by rewrite Hfit.
  - eapply all_groups_elem; [exact Hj|exact Hx].
  - eapply all_groups_elem; [exact Hi|by left].
Qed.

(** X2. Grouping keeps the input order: every group is a subsequence of the
    input entries, and so is the sequence of the groups' first entries. *)
Theorem groups_keep_input_order
    (entries : list Entry) (sp : list Species) (ncpus : option nat)
    (groups : list (list Entry)) :
  truthy ncpus = false →
  group_entries_by_structure entries sp ncpus = Some groups →
  Forall (λ g, g `sublist_of` entries) groups
  ∧ omap head groups `sublist_of` entries.
Proof.
  intros Hn Hcall.
  rewrite serial_result in Hcall by done. injection Hcall as <-.
  set (l := entries_host_of entries sp).
  split.
  - apply Forall_forall. intros g Hg.
    apply list_elem_of_fmap in Hg as (gp & -> & Hgp).
    rewrite <- (entries_host_fst entries sp). fold l.
    by apply fmap_sublist, all_groups_sublist.
  - rewrite <- (entries_host_fst entries sp). fold l.
    assert (Hheads : omap head (group_entries (all_groups l))
                     = (omap head (all_groups l)).*1).
    { unfold group_entries. generalize (all_groups l). clear.
      induction l as [|g gs IH]; [done|].
      destruct g as [|x g]; simpl in *; [done|]. by f_equal. }
    rewrite Hheads. apply fmap_sublist, all_groups_heads_sublist.
Qed.

(** X3. When fitting is an equivalence (reflexive, symmetric, transitive on
    hosts), the serial groups are its classes: two entries of one group fit
    each other, and two input entries that fit each other are in one
    group. *)
Theorem groups_are_fit_classes
    (entries : list Entry) (sp : list Species) (ncpus : option nat)
    (groups : list (list Entry)) :
  (∀ s, fit s s) →
  (∀ a b, fit a b → fit b a) →
  (∀ a b c, fit a b → fit b c → fit a c) →
  truthy ncpus = false →
  group_entries_by_structure entries sp ncpus = Some groups →
  (∀ g e1 e2, g ∈ groups → e1 ∈ g → e2 ∈ g →
     fit (_get_host (structure e1) sp) (_get_host (structure e2) sp))
  ∧ (∀ e1 e2, e1 ∈ entries → e2 ∈ entries →
       fit (_get_host (structure e1) sp) (_get_host (structure e2) sp) →
       ∃ g, g ∈ groups ∧ e1 ∈ g ∧ e2 ∈ g).
Proof.
  intros fit_refl fit_sym fit_trans Hn Hcall.
  destruct (group_entries_by_structure_shape entries sp ncpus groups)
    as [Hperm Hshape]; [done..|].
  rewrite Forall_forall in Hshape.
  assert (Hlater : ∀ i j ref rest g e,
    groups !! i = Some (ref :: rest) → groups !! j = Some g → i < j → e ∈ g →
    ¬ fit (_get_host (structure ref) sp) (_get_host (structure e) sp)).
  { intros i j ref rest g e Hi Hj Hij He.
    rewrite serial_result in Hcall by done. injection Hcall as <-.
    apply group_entries_lookup in Hi as (gpi & Hi & Hgi).
    apply group_entries_lookup in Hj as (gpj & Hj & ->).
    destruct gpi as [|pref prest]; [done|]. injection Hgi as -> _.
    apply list_elem_of_fmap in He as (x & -> & Hx).
    rewrite <- (entries_host_snd entries sp pref),
      <- (entries_host_snd entries sp x).
    - eapply all_groups_later_unfit; [exact Hi|exact Hj|exact Hij|exact Hx].
    - eapply all_groups_elem; [exact Hj|exact Hx].
    - eapply all_groups_elem; [exact Hi|by left]. }
  split.
  - intros g e1 e2 Hg H1 H2.
    destruct (Hshape g Hg) as (ref & rest & -> & Hfit).
    rewrite Forall_forall in Hfit.
    eapply fit_trans; [apply fit_sym, Hfit, H1|apply Hfit, H2].
  - intros e1 e2 H1 H2 Hfit.
    rewrite <- Hperm in H1, H2.
    apply list_elem_of_join in H1 as (g1 & H1 & Hg1).
    apply list_elem_of_join in H2 as (g2 & H2 & Hg2).
    apply list_elem_of_lookup in Hg1 as [i Hi].
    apply list_elem_of_lookup in Hg2 as [j Hj].
    destruct (Hshape g1) as (r1 & rest1 & -> & Hf1);
      [by eapply list_elem_of_lookup_2|].
    destruct (Hshape g2) as (r2 & rest2 & -> & Hf2);
      [by eapply list_elem_of_lookup_2|].
    rewrite Forall_forall in Hf1, Hf2.
    destruct (decide (i = j)) as [->|Hne].
    + rewrite Hi in Hj. injection Hj as <- <-.
      exists (r1 :: rest1). split_and!; [by eapply list_elem_of_lookup_2|done..].
    + exfalso. destruct (decide (i < j)).
      * eapply (Hlater i j); [done..|].
        eapply fit_trans; [by apply Hf1|done].
      * eapply (Hlater j i); [done|done|lia|exact H1|].
        eapply fit_trans; [by apply Hf2|by apply fit_sym].
Qed.

(** X4. In the parallel branch a group never spans two buckets: under every
    schedule, all entries of a group have hosts with one structure hash. *)
Theorem parallel_groups_share_hash
    (entries : list Entry) (sp : list Species) (ncpus : option nat)
    (groups : list (list Entry)) g e1 e2 :
  (truthy ncpus ∧ group_entries_by_structure entries sp ncpus = Some groups)
  ∨ parallel_outcome entries sp groups →
  g ∈ groups → e1 ∈ g → e2 ∈ g →
  get_structure_hash (_get_host (structure e1) sp)
  = get_structure_hash (_get_host (structure e2) sp).
Proof.
  intros Hcall Hg H1 H2.
  set (l := entries_host_of entries sp).
  assert (Hin : g ∈ mjoin ((λ b, group_entries (all_groups b))
                             <$> (symm_entries_of l).*2)).
  { destruct Hcall as [[Hn Hcall]|(appended & Happ & Hint)].
    - rewrite parallel_result in Hcall by (by destruct (truthy ncpus)).
      by injection Hcall as <-.
    - rewrite tasks_appended in Happ. injection Happ as <-.
      by rewrite (interleaving_Permutation _ _ Hint) in Hg. }
  destruct (symm_entries_spec l) as (_ & Hval & _).
  rewrite Hval in Hin.
  apply list_elem_of_join in Hin as (gs & Hgin & Hgs).
  apply list_elem_of_fmap in Hgs as (b & -> & Hb).
  apply list_elem_of_fmap in Hb as (k & -> & _).
  apply list_elem_of_fmap in Hgin as (gp & -> & Hgp).
  assert (Hk : ∀ e, e ∈ gp.*1 →
            get_structure_hash (_get_host (structure e) sp) = k).
  { intros e (x & -> & Hx)%list_elem_of_fmap.
    apply all_groups_sublist in Hgp.
    assert (Hxb : x ∈ bucket k l) by (by eapply elem_of_sublist).
    apply list_elem_of_filter in Hxb as [Hhash Hxl].
    by rewrite <- (entries_host_snd entries sp x). }
  by rewrite (Hk e1), (Hk e2).
Qed.

End Grouping.

(** *** A concrete matcher: entries are numbers, the structure of an entry
    is its parity, two structures fit when they are equal, and the hash of
    a structure is the structure. *)

Definition parity_structure (e : nat) : bool := Nat.even e.
Definition same_structure (a b : bool) : bool := bool_decide (a = b).
Definition no_removal (_ : list nat) (s : bool) : bool := s.

Example group_by_parity_serial :
  group_entries_by_structure parity_structure no_removal same_structure id
    [1; 2; 3; 4; 5] [] None = Some [[1; 3; 5]; [2; 4]].
Proof. reflexivity. Qed.

Example group_by_parity_pool :
  group_entries_by_structure parity_structure no_removal same_structure id
    [1; 2; 3; 4; 5] [] (Some 2) = Some [[1; 3; 5]; [2; 4]].
Proof. reflexivity. Qed.


Lemma group_entries_by_structure_parallel_witness :
  ∃ serial,
    group_entries_by_structure parity_structure no_removal same_structure id
      [1; 2; 3; 4; 5] [] None = Some serial
    ∧ (∃ par,
        group_entries_by_structure parity_structure no_removal same_structure
          id [1; 2; 3; 4; 5] [] (Some 2) = Some par
        ∧ par ≡ₚ serial)
    ∧ (∀ out,
        parallel_outcome parity_structure no_removal same_structure id
          [1; 2; 3; 4; 5] [] out → out ≡ₚ serial).
Proof.
  apply (group_entries_by_structure_parallel
           parity_structure no_removal same_structure id
           [1; 2; 3; 4; 5] [] 2).
  - intros [] []; simpl; intros H; try reflexivity; destruct H.
  - lia.
Defined.

Lemma later_groups_do_not_fit_earlier_reference_witness :
  same_structure (_get_host no_removal (parity_structure 1) [])
                 (_get_host no_removal (parity_structure 2) []) = false.
Proof.
  apply (later_groups_do_not_fit_earlier_reference
           parity_structure no_removal same_structure id
           [1; 2; 3; 4; 5] [] None [[1; 3; 5]; [2; 4]] 0 1 1 [3; 5] [2; 4] 2).
  - reflexivity.
  - reflexivity.
  - reflexivity.
  - reflexivity.
  - lia.
  - by left.
Defined.

Lemma groups_keep_input_order_witness :
  Forall (λ g, g `sublist_of` [1; 2; 3; 4; 5]) [[1; 3; 5]; [2; 4]]
  ∧ omap head [[1; 3; 5]; [2; 4]] `sublist_of` [1; 2; 3; 4; 5].
Proof.
  apply (groups_keep_input_order parity_structure no_removal same_structure
           id [1; 2; 3; 4; 5] [] None).
  - reflexivity.
  - reflexivity.
Defined.

Lemma groups_are_fit_classes_witness :
  (∀ g e1 e2, g ∈ [[1; 3; 5]; [2; 4]] → e1 ∈ g → e2 ∈ g →
     same_structure (_get_host no_removal (parity_structure e1) [])
                    (_get_host no_removal (parity_structure e2) []))
  ∧ (∀ e1 e2, e1 ∈ [1; 2; 3; 4; 5] → e2 ∈ [1; 2; 3; 4; 5] →
       same_structure (_get_host no_removal (parity_structure e1) [])
                      (_get_host no_removal (parity_structure e2) []) →
       ∃ g, g ∈ [[1; 3; 5]; [2; 4]] ∧ e1 ∈ g ∧ e2 ∈ g).
Proof.
  apply (groups_are_fit_classes parity_structure no_removal same_structure
           id [1; 2; 3; 4; 5] [] None).
  - intros []; reflexivity.
  - intros [] []; simpl; done.
  - intros [] [] []; simpl; done.
  - reflexivity.
  - reflexivity.
Defined.

Lemma parallel_groups_share_hash_witness :
  id (_get_host no_removal (parity_structure 1) [])
  = id (_get_host no_removal (parity_structure 5) []).
Proof.
  apply (parallel_groups_share_hash parity_structure no_removal same_structure
           id [1; 2; 3; 4; 5] [] (Some 2) [[1; 3; 5]; [2; 4]] [1; 3; 5] 1 5).
  - left. split; [done|reflexivity].
  - by left.
  - by left.
  - by right; right; left.
Defined.

(** *** [EntrySet] *)

Section EntrySet.
Context {Entry : Type} `{Countable Entry}.

(** Python values that occur in a dict representation: live entry objects,
    strings, lists, dicts (in insertion order), and a decoded [EntrySet]. *)
Inductive pyval : Type :=
| PyEntry (e : Entry)
| PyStr (s : string)
| PyList (l : list pyval)
| PyDict (d : list (string * pyval))
| PyEntrySet (entries : gset Entry).

Record EntrySet := { entries : gset Entry }.

(** [EntrySet.__init__]: [self.entries = set(entries)] *)
Definition EntrySet_init (es : list Entry) : EntrySet :=
  {| entries := list_to_set es |}.

Definition EntrySet_contains (s : EntrySet) (item : Entry) : bool :=
  bool_decide (item ∈ entries s).

Definition EntrySet_len (s : EntrySet) : nat := size (entries s).

Definition EntrySet_add (s : EntrySet) (element : Entry) : EntrySet :=
  {| entries := {[element]} ∪ entries s |}.

Definition EntrySet_discard (s : EntrySet) (element : Entry) : EntrySet :=
  {| entries := entries s ∖ {[element]} |}.

(** [EntrySet.as_dict]: [{"entries": list(self.entries)}] *)
Definition EntrySet_as_dict (s : EntrySet) : pyval :=
  PyDict [("entries", PyList (PyEntry <$> elements (entries s)))].

(** The same dict with the two fields [IRDielectricTensorGenerator.as_dict]
    writes first: ["@module": self.__class__.__module__] and
    ["@class": self.__class__.__name__]. *)
Definition with_class_fields (module class : string) (v : pyval) : pyval :=
  match v with
  | PyDict d => PyDict (("@module", PyStr module) :: ("@class", PyStr class) :: d)
  | _ => v
  end.

Fixpoint dict_get (k : string) (d : list (string * pyval)) : option pyval :=
  match d with
  | [] => None
  | (k', v) :: d' => if String.eqb k' k then Some v else dict_get k d'
  end.

Definition as_entry (v : pyval) : result Entry :=
  match v with
  | PyEntry e => Ok e
  | _ => Raise TypeError
  end.

(** Modelled from the spec: the MSON machinery itself (monty's [MSONable]
    and [MontyDecoder]) is not among the sources.  [cls.from_dict(d)] drops
    the keys that start with ["@"] and calls the constructor with the
    remaining keys as keyword arguments; for [EntrySet] the only keyword is
    [entries]. *)
Definition EntrySet_from_kwargs (kwargs : list (string * pyval))
  : result EntrySet :=
  match kwargs with
  | [("entries", PyList l)] => es ← mapR as_entry l; Ok (EntrySet_init es)
  | _ => Raise TypeError
  end.

Definition drop_at_keys (d : list (string * pyval)) : list (string * pyval) :=
  List.filter (λ kv, negb (String.prefix "@" kv.1)) d.

(** Modelled from the spec: [MontyDecoder.process_decoded] is keyed on the
    ["@module"] and ["@class"] fields of a dict: a dict that carries both is
    turned into an object of that class through its [from_dict]; any other
    dict stays a dict, with its values decoded; lists are decoded element by
    element.  [EntrySet] is the only class of this model. *)
Fixpoint process_decoded (v : pyval) : result pyval :=
  match v with
  | PyList l => l' ← mapR process_decoded l; Ok (PyList l')
  | PyDict d =>
      d' ← mapR (λ kv, x' ← process_decoded kv.2; Ok (kv.1, x')) d;
      match dict_get "@module" d, dict_get "@class" d with
      | Some (PyStr "pymatgen.entries.entry_tools"), Some (PyStr "EntrySet") =>
          s ← EntrySet_from_kwargs (drop_at_keys d'); Ok (PyEntrySet (entries s))
      | _, _ => Ok (PyDict d')
      end
  | _ => Ok v
  end.

(** [EntrySet.from_dict(d)], inherited from [MSONable]. *)
Definition EntrySet_from_dict (v : pyval) : result EntrySet :=
  match v with
  | PyDict d =>
      d' ← mapR (λ kv, x' ← process_decoded kv.2; Ok (kv.1, x'))
                (drop_at_keys d);
      EntrySet_from_kwargs d'
  | _ => Raise TypeError
  end.

Lemma as_entries_PyEntry (es : list Entry) :
  mapR as_entry (PyEntry <$> es) = Ok es.
Proof.
  induction es as [|e es IH]; [done|].
  rewrite fmap_cons. cbn [mapR as_entry] in *. rewrite IH. done.
Qed.

Lemma mapR_process_decoded_entries (es : list Entry) :
  mapR process_decoded (PyEntry <$> es) = Ok (PyEntry <$> es).
Proof.
  induction es as [|e es IH]; [done|].
  rewrite fmap_cons. cbn [mapR process_decoded] in *. rewrite IH. done.
Qed.

Lemma process_decoded_entries (es : list Entry) :
  process_decoded (PyList (PyEntry <$> es)) = Ok (PyList (PyEntry <$> es)).
Proof.
  cbn [process_decoded]. by rewrite mapR_process_decoded_entries.
Qed.


(** Called on the class, [from_dict] restores the entries. *)
Lemma EntrySet_from_dict_as_dict (s : EntrySet) :
  EntrySet_from_dict (EntrySet_as_dict s) = Ok s.
Proof.
  unfold EntrySet_from_dict, EntrySet_as_dict.
  change (drop_at_keys [("entries", ?v)]) with [("entries", v)].
  cbn [mapR process_decoded fst snd].
  rewrite mapR_process_decoded_entries. cbv [mbind result_bind].
  change (EntrySet_from_kwargs [("entries", PyList ?l)])
    with (es ← mapR as_entry l; Ok (EntrySet_init es)).
  rewrite as_entries_PyEntry. unfold EntrySet_init.
  destruct s as [X]. simpl. f_equal. f_equal.
  apply list_to_set_elements_L.
Qed.

(** With the two class fields in the dict the decoder builds the set. *)
Lemma process_decoded_with_class_fields (s : EntrySet) :
  process_decoded
    (with_class_fields "pymatgen.entries.entry_tools" "EntrySet"
       (EntrySet_as_dict s))
  = Ok (PyEntrySet (entries s)).
Proof.
  unfold EntrySet_as_dict, with_class_fields.
  cbn [process_decoded mapR fst snd].
  rewrite mapR_process_decoded_entries. cbv [mbind result_bind].
  change (drop_at_keys (_ :: _ :: [("entries", ?v)])) with [("entries", v)].
  change (EntrySet_from_kwargs [("entries", PyList ?l)])
    with (es ← mapR as_entry l; Ok (EntrySet_init es)).
  rewrite as_entries_PyEntry. unfold EntrySet_init.
  simpl. f_equal. f_equal.
  apply list_to_set_elements_L.
Qed.


End EntrySet.

Example EntrySet_as_dict_example :
  process_decoded (EntrySet_as_dict (EntrySet_init [7%nat]))
  = Ok (PyDict [("entries", PyList [PyEntry 7%nat])]).
Proof. vm_compute. reflexivity. Qed.

(** *** [EntrySet]: ground states and chemical subsystems *)

(** [sorted(l, key=key)] for string keys: a stable sort; entries with equal
    keys keep their order. *)
Section SortedGroupby.
Context {A : Type}.
Variable key : A → string.

Fixpoint insert_by (x : A) (l : list A) : list A :=
  match l with
  | [] => [x]
  | y :: l' =>
      if String.leb (key x) (key y) then x :: y :: l' else y :: insert_by x l'
  end.

Definition py_sorted (l : list A) : list A := foldr insert_by [] l.

(** [itertools.groupby(l, key=key)]: the maximal runs of consecutive items
    with one key. *)
Fixpoint groupby (l : list A) : list (string * list A) :=
  match l with
  | [] => []
  | x :: l' =>
      match groupby l' with
      | (k, g) :: gs =>
          if String.eqb (key x) k then (k, x :: g) :: gs
          else (key x, [x]) :: (k, g) :: gs
      | [] => [(key x, [x])]
      end
  end.

End SortedGroupby.

(** [min(g, key=f)]: the first item of least [f]; [ValueError] on an empty
    sequence. *)
Definition py_min_by {A} (f : A → Q) (g : list A) : result A :=
  match g with
  | [] => Raise (ValueError "min() arg is an empty sequence")
  | x :: l =>
      Ok (foldl (λ m y, if negb (Qle_bool (f m) (f y)) then y else m) x l)
  end.

Section EntrySetOps.
Context {Entry : Type} `{Countable Entry}.

(** [e.composition.reduced_formula] *)
Variable reduced_formula : Entry → string.
(** [e.energy_per_atom] *)
Variable energy_per_atom : Entry → Q.
(** [[sp.symbol for sp in e.composition.keys()]] *)
Variable element_symbols : Entry → list string.

(** The loop of [remove_non_ground_states] over the groups. *)
Definition ground_states_of (groups : list (string * list Entry))
  : result (gset Entry) :=
  foldl (λ ground_states kg,
           gs ← ground_states;
           m ← py_min_by energy_per_atom kg.2;
           Ok ({[ m ]} ∪ gs))
        (Ok ∅) groups.

(** [EntrySet.remove_non_ground_states] *)
Definition remove_non_ground_states (s : EntrySet (Entry := Entry))
  : result (EntrySet (Entry := Entry)) :=
  let group_func := reduced_formula in
  let sorted_entries := py_sorted group_func (elements (entries s)) in
  ground_states ← ground_states_of (groupby group_func sorted_entries);
  Ok {| entries := ground_states |}.

(** [EntrySet.get_subset_in_chemsys] *)
Definition get_subset_in_chemsys (s : EntrySet (Entry := Entry))
    (chemsys : list string) : EntrySet (Entry := Entry) :=
  let chemsys : gset string := list_to_set chemsys in
  EntrySet_init
    (filter (λ e, list_to_set (element_symbols e) ⊆ chemsys)
            (elements (entries s))).

End EntrySetOps.

Section SortedGroupbyFacts.
Context {A : Type}.
Variable key : A → string.

Definition key_le (x y : A) : Prop := String.leb (key x) (key y) = true.

Lemma string_leb_trans a b c :
  String.leb a b = true → String.leb b c = true → String.leb a c = true.
Proof.
  unfold String.leb. intros Hab Hbc.
  change String.compare with String_as_OT.cmp in *.
  destruct (String_as_OT.cmp a b) eqn:E1; try done;
    destruct (String_as_OT.cmp b c) eqn:E2; try done.
  - apply String_as_OT.cmp_eq in E1, E2. subst.
    by rewrite (proj2 (String_as_OT.cmp_eq c c)).
  - apply String_as_OT.cmp_eq in E1. subst. by rewrite E2.
  - apply String_as_OT.cmp_eq in E2. subst. by rewrite E1.
  - apply String_as_OT.cmp_lt in E1, E2.
    pose proof (String_as_OT.lt_trans _ _ _ E1 E2) as Hlt.
    apply String_as_OT.cmp_lt in Hlt. by rewrite Hlt.
Qed.

Lemma insert_by_Permutation x l : insert_by key x l ≡ₚ x :: l.
Proof.
  induction l as [|y l IH]; [done|]. simpl.
  destruct (String.leb (key x) (key y)); [done|].
  rewrite IH. apply perm_swap.
Qed.

Lemma py_sorted_Permutation l : py_sorted key l ≡ₚ l.
Proof.
  induction l as [|x l IH]; [done|]. simpl.
  by rewrite insert_by_Permutation, IH.
Qed.

Lemma insert_by_sorted x l :
  StronglySorted key_le l → StronglySorted key_le (insert_by key x l).
Proof.
  induction l as [|y l IH]; intros Hl; simpl.
  - repeat constructor.
  - apply StronglySorted_inv in Hl as [Hl Hy].
    destruct (String.leb (key x) (key y)) eqn:Hxy.
    + constructor; [by constructor|]. constructor; [done|].
      eapply Forall_impl; [exact Hy|]. intros z Hz.
      by eapply string_leb_trans.
    + constructor; [by apply IH|].
      rewrite insert_by_Permutation. constructor; [|done].
      destruct (String.leb_total (key x) (key y)); [congruence|done].
Qed.

Lemma py_sorted_sorted l : StronglySorted key_le (py_sorted key l).
Proof.
  induction l as [|x l IH]; [constructor|]. simpl. by apply insert_by_sorted.
Qed.

Lemma groupby_join l : mjoin (groupby key l).*2 = l.
Proof.
  induction l as [|x l IH]; [done|]. simpl.
  destruct (groupby key l) as [|[k g] gs]; simpl in *.
  - by rewrite <- IH.
  - destruct (String.eqb (key x) k); simpl; by rewrite <- IH.
Qed.

Lemma groupby_groups l :
  Forall (λ kg, kg.2 ≠ [] ∧ Forall (λ x, key x = kg.1) kg.2) (groupby key l).
Proof.
  induction l as [|x l IH]; [constructor|]. simpl.
  destruct (groupby key l) as [|[k g] gs].
  - repeat constructor; done.
  - apply Forall_cons in IH as [[Hne Hk] IH].
    destruct (String.eqb (key x) k) eqn:Hx.
    + apply String.eqb_eq in Hx. constructor; [|done]. simpl.
      split; [done|]. by constructor.
    + constructor; [|by constructor]. simpl. repeat constructor; done.
Qed.

(** The head of the first group is the head of the list. *)
Lemma groupby_head x l :
  ∃ g gs, groupby key (x :: l) = (key x, x :: g) :: gs.
Proof.
  simpl. destruct (groupby key l) as [|[k g] gs]; [by eexists _, _|].
  destruct (String.eqb (key x) k) eqn:Hx; [|by eexists _, _].
  apply String.eqb_eq in Hx as <-. by eexists _, _.
Qed.

Lemma groupby_keys_elem l k :
  k ∈ (groupby key l).*1 → ∃ x, x ∈ l ∧ key x = k.
Proof.
  intros (kg & -> & Hkg)%list_elem_of_fmap.
  pose proof (groupby_groups l) as Hall. rewrite Forall_forall in Hall.
  destruct (Hall kg Hkg) as [Hne Hk]. destruct kg as [k [|x g]]; [done|].
  exists x. split.
  - rewrite <- (groupby_join l). apply list_elem_of_join.
    exists (x :: g). split; [by left|].
    apply list_elem_of_fmap. by exists (k, x :: g).
  - by apply Forall_cons in Hk as [? _].
Qed.

(** On a list sorted by key every key opens one group only. *)
Lemma groupby_sorted_NoDup l :
  StronglySorted key_le l → NoDup (groupby key l).*1.
Proof.
  induction l as [|x l IH]; intros Hl; [constructor|].
  apply StronglySorted_inv in Hl as [Hl Hx]. specialize (IH Hl).
  simpl. destruct l as [|h l'].
  - simpl. apply NoDup_singleton.
  - destruct (groupby_head h l') as (g & gs & Hg). rewrite Hg in IH |- *.
    destruct (String.eqb (key x) (key h)) eqn:Hxh; [done|].
    rewrite fmap_cons. cbn [fst]. apply NoDup_cons. split; [|done].
    rewrite <- Hg. intros (y & Hy & Hky)%groupby_keys_elem.
    assert (Hhx : key h = key x).
    { apply String.leb_antisym.
      - rewrite <- Hky. apply elem_of_cons in Hy as [->|Hy].
        + unfold String.leb. by rewrite (proj2 (String_as_OT.cmp_eq _ _) eq_refl).
        + apply StronglySorted_inv in Hl as [_ Hh].
          rewrite Forall_forall in Hh. by apply Hh.
      - rewrite Forall_forall in Hx. apply Hx. by left. }
    rewrite Hhx, String.eqb_refl in Hxh. done.
Qed.

End SortedGroupbyFacts.

Lemma py_min_by_spec {A} (f : A → Q) (g : list A) :
  g ≠ [] →
  ∃ m, py_min_by f g = Ok m ∧ m ∈ g ∧ ∀ y, y ∈ g → (f m <= f y)%Q.
Proof.
  destruct g as [|x l]; [done|]. intros _. simpl.
  eexists. split; [done|].
  induction l as [|z l IH] using rev_ind.
  - simpl. split; [by left|]. intros y ->%list_elem_of_singleton.
    apply Qle_refl.
  - rewrite foldl_snoc. destruct IH as [Hin Hmin].
    set (m := foldl _ x l) in *.
    destruct (Qle_bool (f m) (f z)) eqn:Hle; simpl.
    + apply Qle_bool_iff in Hle. split.
      * rewrite app_comm_cons. apply elem_of_app. by left.
      * intros y. rewrite app_comm_cons, elem_of_app.
        intros [Hy| ->%list_elem_of_singleton]; [by apply Hmin|done].
    + assert (Hlt : (f z < f m)%Q).
      { apply Qnot_le_lt. intros Hzm%Qle_bool_iff. congruence. }
      split.
      * rewrite app_comm_cons. apply elem_of_app. right. by left.
      * intros y. rewrite app_comm_cons, elem_of_app.
        intros [Hy| ->%list_elem_of_singleton]; [|apply Qle_refl].
        apply Qlt_le_weak. eapply Qlt_le_trans; [exact Hlt|by apply Hmin].
Qed.

Lemma NoDup_keys_unique {K V} (l : list (K * V)) k v1 v2 :
  NoDup l.*1 → (k, v1) ∈ l → (k, v2) ∈ l → v1 = v2.
Proof.
  induction l as [|[k' v'] l IH]; intros Hnd H1 H2.
  - by apply elem_of_nil in H1.
  - rewrite fmap_cons in Hnd. apply NoDup_cons in Hnd as [Hk Hnd].
    apply elem_of_cons in H1 as [H1|H1]; apply elem_of_cons in H2 as [H2|H2].
    + congruence.
    + exfalso. apply Hk. apply list_elem_of_fmap.
      exists (k, v2). split; [|done]. simpl. congruence.
    + exfalso. apply Hk. apply list_elem_of_fmap.
      exists (k, v1). split; [|done]. simpl. congruence.
    + by apply IH.
Qed.

Section EntrySetFacts.
Context {Entry : Type} `{Countable Entry}.
Variable reduced_formula : Entry → string.
Variable energy_per_atom : Entry → Q.
Variable element_symbols : Entry → list string.

Lemma ground_states_of_spec (groups : list (string * list Entry)) :
  Forall (λ kg, kg.2 ≠ []) groups →
  ∃ X, ground_states_of energy_per_atom groups = Ok X
     ∧ ∀ m, m ∈ X ↔
         ∃ kg, kg ∈ groups ∧ py_min_by energy_per_atom kg.2 = Ok m.
Proof.
  unfold ground_states_of.
  induction groups as [|kg groups IH] using rev_ind; intros Hne.
  - exists ∅. split; [done|]. intros m. split; [set_solver|].
    intros (kg & Hkg & _). by apply elem_of_nil in Hkg.
  - apply Forall_app in Hne as [Hne Hkg]. apply Forall_cons in Hkg as [Hkg _].
    destruct (IH Hne) as (X & HX & Hmem). rewrite foldl_snoc, HX.
    destruct (py_min_by_spec energy_per_atom kg.2 Hkg) as (m & Hm & _).
    cbn [mbind result_bind]. rewrite Hm. cbn [mbind result_bind].
    exists ({[ m ]} ∪ X). split; [done|]. intros m'.
    rewrite elem_of_union, elem_of_singleton, Hmem. split.
    + intros [->|(kg' & Hkg' & Hm')].
      * exists kg. split; [|done]. apply elem_of_app. right. by left.
      * exists kg'. split; [|done]. apply elem_of_app. by left.
    + intros (kg' & [Hkg'| ->%list_elem_of_singleton]%elem_of_app & Hm').
      * right. by exists kg'.
      * left. congruence.
Qed.

(** What [remove_non_ground_states] leaves: a subset with, for every
    entry, an entry of its formula and of no higher energy, and with one
    entry per formula. *)
Lemma ground_states_props (s : EntrySet (Entry := Entry)) :
  ∃ s', remove_non_ground_states reduced_formula energy_per_atom s = Ok s'
    ∧ entries s' ⊆ entries s
    ∧ (∀ e, e ∈ entries s →
         ∃ e', e' ∈ entries s' ∧ reduced_formula e' = reduced_formula e
             ∧ (energy_per_atom e' <= energy_per_atom e)%Q)
    ∧ (∀ e1 e2, e1 ∈ entries s' → e2 ∈ entries s' →
         reduced_formula e1 = reduced_formula e2 → e1 = e2).
Proof.
  unfold remove_non_ground_states. cbv zeta.
  set (L := py_sorted reduced_formula (elements (entries s))).
  set (G := groupby reduced_formula L).
  assert (HL : ∀ x, x ∈ L ↔ x ∈ entries s).
  { intros x. unfold L. by rewrite py_sorted_Permutation, elem_of_elements. }
  pose proof (groupby_groups reduced_formula L) as Hgroups. fold G in Hgroups.
  rewrite Forall_forall in Hgroups.
  assert (Hin : ∀ kg x, kg ∈ G → x ∈ kg.2 → x ∈ L).
  { intros kg x Hkg Hx. rewrite <- (groupby_join reduced_formula L).
    apply list_elem_of_join. exists kg.2. split; [done|].
    apply list_elem_of_fmap. by exists kg. }
  assert (Hcover : ∀ x, x ∈ L → ∃ kg, kg ∈ G ∧ x ∈ kg.2).
  { intros x Hx. rewrite <- (groupby_join reduced_formula L) in Hx.
    apply list_elem_of_join in Hx as (g & Hx & Hg).
    apply list_elem_of_fmap in Hg as (kg & -> & Hkg). by exists kg. }
  assert (Hnodup : NoDup G.*1).
  { apply groupby_sorted_NoDup, py_sorted_sorted. }
  destruct (ground_states_of_spec G) as (X & HX & Hmem).
  { apply Forall_forall. intros kg Hkg. by apply Hgroups. }
  rewrite HX. cbn [mbind result_bind]. eexists. split; [done|]. cbn [entries].
  assert (Hmin : ∀ m, m ∈ X → ∃ kg, kg ∈ G ∧ m ∈ kg.2
            ∧ reduced_formula m = kg.1
            ∧ ∀ y, y ∈ kg.2 → (energy_per_atom m <= energy_per_atom y)%Q).
  { intros m (kg & Hkg & Hm)%Hmem. exists kg.
    destruct (Hgroups kg Hkg) as [Hne Hkey].
    destruct (py_min_by_spec energy_per_atom kg.2 Hne) as (m' & Hm' & Hmin' & Hle).
    rewrite Hm in Hm'. injection Hm' as <-.
    rewrite Forall_forall in Hkey. split_and!; [done..|by apply Hkey|done]. }
  split_and!.
  - intros m (kg & Hkg & Hm & _)%Hmin. by eapply HL, Hin.
  - intros e (kg & Hkg & He)%HL%Hcover.
    destruct (Hgroups kg Hkg) as [Hne Hkey]. rewrite Forall_forall in Hkey.
    destruct (py_min_by_spec energy_per_atom kg.2 Hne) as (m & Hm & Hmin' & Hle).
    exists m. split_and!.
    + apply Hmem. by exists kg.
    + by rewrite (Hkey m), (Hkey e).
    + by apply Hle.
  - intros e1 e2 (kg1 & Hkg1 & Hm1)%Hmem (kg2 & Hkg2 & Hm2)%Hmem Hform.
    destruct (Hgroups kg1 Hkg1) as [Hne1 Hkey1].
    destruct (Hgroups kg2 Hkg2) as [Hne2 Hkey2].
    rewrite Forall_forall in Hkey1, Hkey2.
    destruct (py_min_by_spec energy_per_atom kg1.2 Hne1) as (m1 & Hm1' & Hin1 & _).
    destruct (py_min_by_spec energy_per_atom kg2.2 Hne2) as (m2 & Hm2' & Hin2 & _).
    rewrite Hm1 in Hm1'. injection Hm1' as <-.
    rewrite Hm2 in Hm2'. injection Hm2' as <-.
    assert (kg1 = kg2) as ->.
    { destruct kg1 as [k1 g1], kg2 as [k2 g2]. simpl in *.
      assert (k1 = k2) as ->.
      { by rewrite <- (Hkey1 e1 Hin1), <- (Hkey2 e2 Hin2). }
      f_equal. by eapply (NoDup_keys_unique G k2). }
    congruence.
Qed.

(** X5. [remove_non_ground_states] never raises and keeps, of the entries
    of every reduced formula, exactly one, of the lowest energy per atom:
    the result is a subset with an entry for every formula of the set, no
    two entries of one formula, and no discarded entry below the kept
    one. *)
Theorem remove_non_ground_states_keeps_minima (s : EntrySet (Entry := Entry)) :
  ∃ s', remove_non_ground_states reduced_formula energy_per_atom s = Ok s'
    ∧ entries s' ⊆ entries s
    ∧ (∀ e, e ∈ entries s →
         ∃ e', e' ∈ entries s' ∧ reduced_formula e' = reduced_formula e
             ∧ (energy_per_atom e' <= energy_per_atom e)%Q)
    ∧ (∀ e1 e2, e1 ∈ entries s' → e2 ∈ entries s' →
         reduced_formula e1 = reduced_formula e2 → e1 = e2).
Proof. apply ground_states_props. Qed.

(** X6. [remove_non_ground_states] is idempotent: on its own result it
    changes nothing. *)
Theorem remove_non_ground_states_idempotent (s s' : EntrySet (Entry := Entry)) :
  remove_non_ground_states reduced_formula energy_per_atom s = Ok s' →
  remove_non_ground_states reduced_formula energy_per_atom s' = Ok s'.
Proof.
  intros Hs.
  destruct (ground_states_props s) as (s1 & Hs1 & _ & _ & Huniq).
  rewrite Hs in Hs1. injection Hs1 as <-.
  destruct (ground_states_props s') as (s'' & Hs'' & Hsub & Hcover & _).
  rewrite Hs''. f_equal. destruct s' as [X'], s'' as [X'']. simpl in *.
  f_equal. apply set_eq. intros e. split; [apply Hsub|].
  intros He. destruct (Hcover e He) as (e' & He' & Hform & _).
  by rewrite <- (Huniq e' e (Hsub _ He') He Hform).
Qed.

(** X7. Taking the subset for one chemical system and then for another
    gives the entries that are in both subsets; the order of the two calls
    does not matter and nothing outside the first subset appears. *)
Theorem get_subset_in_chemsys_twice (s : EntrySet (Entry := Entry))
    (c1 c2 : list string) :
  entries (get_subset_in_chemsys element_symbols
             (get_subset_in_chemsys element_symbols s c1) c2)
  = entries (get_subset_in_chemsys element_symbols s c1)
    ∩ entries (get_subset_in_chemsys element_symbols s c2).
Proof.
  apply set_eq. intros e.
  unfold get_subset_in_chemsys, EntrySet_init. cbn [entries].
  rewrite elem_of_intersection, !elem_of_list_to_set, !list_elem_of_filter,
    !elem_of_elements, elem_of_list_to_set, list_elem_of_filter,
    elem_of_elements.
  tauto.
Qed.

End EntrySetFacts.

(** Entries [n] with formula ["A"] for even and ["B"] for odd [n], and energy
    per atom [n]. *)
Definition parity_formula (e : nat) : string :=
  if Nat.even e then "A" else "B".
Definition nat_energy (e : nat) : Q := inject_Z (Z.of_nat e).

Example remove_non_ground_states_example :
  remove_non_ground_states parity_formula nat_energy
    (EntrySet_init [4; 1; 2; 3])
  = Ok (EntrySet_init [1; 2]).
Proof. vm_compute. reflexivity. Qed.

Lemma remove_non_ground_states_idempotent_witness :
  remove_non_ground_states parity_formula nat_energy (EntrySet_init [1; 2])
  = Ok (EntrySet_init [1; 2]).
Proof.
  apply (remove_non_ground_states_idempotent parity_formula nat_energy
           (EntrySet_init [4; 1; 2; 3])).
  vm_compute. reflexivity.
Defined.

End EntryTools.

(** ** pymatgen/analysis/defects/old_thermodynamics.py *)

Module Thermodynamics.

(** [val < miny] on floats, idealised as rationals. *)
Definition Qltb (x y : Q) : bool := negb (Qle_bool y x).

(** A [DefectEntry], as far as the diagram uses it: its [name], its
    [charge], the elements of [defect_sc_structure.composition] and its
    method [formation_energy(chemical_potentials, fermi_level)]. *)
Record DefectEntry := {
  name : string;
  charge : Z;
  elements : list string;
  formation_energy : list (string * Q) → Q → Q
}.

Record DefectPhaseDiagram := {
  dentries : list DefectEntry;
  vbm : Q;
  band_gap : Q;
  stable_charges : gmap string (list (option Z));
  finished_charges : gmap string (list Z);
  transition_levels : gmap string (list (Q * Z * option Z))
}.

(** A method call on the object: the outcome together with the object as
    the call leaves it. *)
Abbreviation method A := (DefectPhaseDiagram → result A * DefectPhaseDiagram)%type.

(** [np.arange(start, stop, step)]: [ceil((stop - start) / step)] points
    [start + i * step]; a zero step is refused. *)
Definition arange (start stop step : Q) : result (list Q) :=
  if Qeq_bool step 0 then Raise (ValueError "Maximum allowed size exceeded")
  else Ok ((λ i, start + inject_Z i * step)%Q
             <$> seqZ 0 (Qceiling ((stop - start) / step))).

Definition nb_steps : Q := 10000%Q.

(** The Fermi levels the diagram samples: [xlim = (-0.1, band_gap + .1)],
    [x = np.arange(xlim[0], xlim[1], (xlim[1] - xlim[0]) / nb_steps)]. *)
Definition fermi_levels (band_gap : Q) : result (list Q) :=
  let xlim := ((- (1 # 10))%Q, (band_gap + (1 # 10))%Q) in
  arange xlim.1 xlim.2 ((xlim.2 - xlim.1) / nb_steps)%Q.

(** [_get_all_defect_types]: the names in order of first occurrence. *)
Definition _get_all_defect_types (dentries : list DefectEntry) : list string :=
  foldl (λ to_return d,
           if bool_decide (name d ∈ to_return) then to_return
           else to_return ++ [name d])
        [] dentries.

(** [no_chempots = {elt: 0. for elt in set(list_elts)}] *)
Definition no_chempots_of (dentries : list DefectEntry) : list (string * Q) :=
  let list_elts := dentries ≫= elements in
  (λ elt, (elt, 0%Q)) <$> remove_dups list_elts.

(** Lines 65-71: the inner loop over the entries at one Fermi level; it
    starts from [miny = 10000] and the [cur_min_q] left by the step
    before. *)
Definition min_charge (no_chempots : list (string * Q))
    (dentries : list DefectEntry) (t : string) (x_step : Q)
    (cur_min_q : option Z) : option Z :=
  (foldl (λ '(miny, cur_min_q) dfct,
            if String.eqb (name dfct) t then
              let val := formation_energy dfct no_chempots x_step in
              if Qltb val miny then (val, Some (charge dfct))
              else (miny, cur_min_q)
            else (miny, cur_min_q))
         (10000%Q, cur_min_q) dentries).2.

(** The state of the loop over the Fermi levels. *)
Record scan_state := {
  trans_level : list (Q * Z * option Z);
  chg_type : list (option Z);
  prev_min_q : option Z;
  cur_min_q : option Z
}.

Definition scan_start : scan_state :=
  {| trans_level := []; chg_type := []; prev_min_q := None; cur_min_q := None |}.

(** Lines 64-78: one Fermi level. *)
Definition scan_step (no_chempots : list (string * Q))
    (dentries : list DefectEntry) (t : string)
    (st : scan_state) (x_step : Q) : scan_state :=
  let cur := min_charge no_chempots dentries t x_step (cur_min_q st) in
  match prev_min_q st with
  | Some prev =>
      {| trans_level :=
           if bool_decide (cur ≠ Some prev)
           then trans_level st ++ [(x_step, prev, cur)] else trans_level st;
         chg_type :=
           if bool_decide (cur ∈ chg_type st) then chg_type st
           else chg_type st ++ [cur];
         prev_min_q := cur;
         cur_min_q := cur |}
  | None =>
      {| trans_level := trans_level st; chg_type := chg_type st;
         prev_min_q := cur; cur_min_q := cur |}
  end.

Definition scan (no_chempots : list (string * Q))
    (dentries : list DefectEntry) (t : string) (x : list Q) : scan_state :=
  foldl (scan_step no_chempots dentries t) scan_start x.

(** The loop variable [dfct] of line 66 outlives its loop: after the loop
    over [x] it is bound to the last entry, when both loops ran. *)
Definition dfct_after (dentries : list DefectEntry) (x : list Q)
    (dfct : option DefectEntry) : option DefectEntry :=
  match x, last dentries with
  | _ :: _, Some d => Some d
  | _, _ => dfct
  end.

(** Lines 60-82: the body of the loop over the defect types. *)
Definition set_type (x : list Q) (no_chempots : list (string * Q))
    (acc : result (option DefectEntry) * DefectPhaseDiagram) (t : string)
  : result (option DefectEntry) * DefectPhaseDiagram :=
  match acc with
  | (Raise e, self) => (Raise e, self)
  | (Ok dfct, self) =>
      let st := scan no_chempots (dentries self) t x in
      match dfct_after (dentries self) x dfct with
      | None => (Raise (NameError "dfct"), self)
      | Some dfct =>
          (Ok (Some dfct),
           {| dentries := dentries self; vbm := vbm self;
              band_gap := band_gap self;
              stable_charges :=
                <[name dfct := chg_type st]> (stable_charges self);
              finished_charges :=
                <[name dfct :=
                    charge <$> filter (λ e, name e = t) (dentries self)]>
                  (finished_charges self);
              transition_levels :=
                <[name dfct := trans_level st]> (transition_levels self) |})
      end
  end.

(** [DefectPhaseDiagram._set_dpd_nochempots] *)
Definition _set_dpd_nochempots : method unit := λ self,
  let self :=
    {| dentries := dentries self; vbm := vbm self; band_gap := band_gap self;
       stable_charges := ∅; finished_charges := ∅; transition_levels := ∅ |} in
  match fermi_levels (band_gap self) with
  | Raise e => (Raise e, self)
  | Ok x =>
      let no_chempots := no_chempots_of (dentries self) in
      match foldl (set_type x no_chempots) (Ok None, self)
                  (_get_all_defect_types (dentries self)) with
      | (Raise e, self) => (Raise e, self)
      | (Ok _, self) => (Ok (), self)
      end
  end.

(** [DefectPhaseDiagram.__init__] *)
Definition DefectPhaseDiagram_init (dentries : list DefectEntry)
    (vbm band_gap : Q) : result unit * DefectPhaseDiagram :=
  _set_dpd_nochempots
    {| dentries := dentries; vbm := vbm; band_gap := band_gap;
       stable_charges := ∅; finished_charges := ∅; transition_levels := ∅ |}.

(** [self.<attr>()] for a method without arguments that returns nothing:
    the class defines one such method, [_set_dpd_nochempots]; any other
    name is not an attribute of the object. *)
Definition call_method (attr : string) : method unit := λ self,
  if String.eqb attr "_set_dpd_nochempots" then _set_dpd_nochempots self
  else (Raise (AttributeError attr), self).

(** [DefectPhaseDiagram.add_defect_entry]:
    [self.dentries.append(defect); self._set_pd_nochempots()] *)
Definition add_defect_entry (defect : DefectEntry) : method unit := λ self,
  let self :=
    {| dentries := dentries self ++ [defect]; vbm := vbm self;
       band_gap := band_gap self; stable_charges := stable_charges self;
       finished_charges := finished_charges self;
       transition_levels := transition_levels self |} in
  call_method "_set_pd_nochempots" self.





(** An entry whose formation energy is [e0 + q * fermi_level]. *)
Definition linear_entry (n : string) (q : Z) (e0 : Q) : DefectEntry :=
  {| name := n; charge := q; elements := ["O"];
     formation_energy := λ _ fermi_level, (e0 + inject_Z q * fermi_level)%Q |}.


(** Two defects with one charge state each. *)
Definition two_defects : list DefectEntry :=
  [linear_entry "Vac_O" 0 1; linear_entry "Int_O" 1 2].

(** *** The inner loop *)


Section MinCharge.
Variable no_chempots : list (string * Q).
Variable t : string.
Variable x_step : Q.

Abbreviation energy e := (formation_energy e no_chempots x_step).

Abbreviation min_step := (λ '(miny, cur_min_q) dfct,
  if String.eqb (name dfct) t then
    let val := energy dfct in
    if Qltb val miny then (val, Some (charge dfct)) else (miny, cur_min_q)
  else (miny, cur_min_q)).





End MinCharge.

(** *** The loop over the Fermi levels *)

Lemma scan_snoc no_chempots dentries t xs x :
  scan no_chempots dentries t (xs ++ [x])
  = scan_step no_chempots dentries t (scan no_chempots dentries t xs) x.
Proof. unfold scan. by rewrite foldl_snoc. Qed.


(** *** The Fermi levels *)

Lemma fermi_levels_Ok band_gap x :
  fermi_levels band_gap = Ok x →
  ¬ (band_gap + (2 # 10) == 0)%Q
  ∧ x = (λ i, - (1 # 10) + inject_Z i * ((band_gap + (1 # 10) - - (1 # 10)) / nb_steps))%Q
        <$> seqZ 0 10000.
Proof.
  unfold fermi_levels, arange. cbn [fst snd].
  destruct (Qeq_bool _ 0) eqn:Hstep; [done|]. intros [= <-].
  assert (Hne : ¬ (band_gap + (2 # 10) == 0)%Q).
  { intros Heq. apply Qeq_bool_neq in Hstep. apply Hstep.
    assert (HW : (band_gap + (1 # 10) - - (1 # 10) == 0)%Q) by lra.
    rewrite HW. reflexivity. }
  split; [done|]. f_equal. f_equal.
  rewrite (Qceiling_comp _ 10000%Q); [done|].
  unfold nb_steps. field.
  intros Heq. apply Hne. lra.
Qed.

Lemma fermi_levels_length band_gap x :
  fermi_levels band_gap = Ok x → length x = Z.to_nat 10000.
Proof.
  intros [_ ->]%fermi_levels_Ok. by rewrite length_fmap, length_seqZ.
Qed.


(** *** The loop over the defect types *)

Lemma defect_types_nonempty dentries :
  dentries ≠ [] → _get_all_defect_types dentries ≠ [].
Proof.
  unfold _get_all_defect_types.
  destruct dentries as [|d l]; [done|]. intros _. simpl.
  assert (Hgrow : ∀ l acc, acc ≠ [] →
    foldl (λ to_return d0,
             if bool_decide (name d0 ∈ to_return) then to_return
             else to_return ++ [name d0]) acc l ≠ []).
  { clear. induction l as [|d l IH]; intros acc Hacc; [done|].
    simpl. apply IH. case_bool_decide; [done|]. by destruct acc. }
  by apply Hgrow.
Qed.

Lemma set_types_spec x no_chempots self d ts :
  x ≠ [] → last (dentries self) = Some d → ts ≠ [] →
  stable_charges self = ∅ → finished_charges self = ∅ →
  transition_levels self = ∅ →
  ∃ t, last ts = Some t
    ∧ foldl (set_type x no_chempots) (Ok None, self) ts
      = (Ok (Some d),
         {| dentries := dentries self; vbm := vbm self;
            band_gap := band_gap self;
            stable_charges :=
              {[ name d := chg_type (scan no_chempots (dentries self) t x) ]};
            finished_charges :=
              {[ name d :=
                   charge <$> filter (λ e, name e = t) (dentries self) ]};
            transition_levels :=
              {[ name d :=
                   trans_level (scan no_chempots (dentries self) t x) ]} |}).
Proof.
  intros Hx Hd Hts Hs Hf Ht.
  induction ts as [|t ts IH] using rev_ind; [done|]. clear Hts.
  exists t. split; [apply last_snoc|]. rewrite foldl_snoc.
  assert (Hafter : ∀ o, dfct_after (dentries self) x o = Some d).
  { intros o. unfold dfct_after. rewrite Hd. by destruct x. }
  destruct ts as [|t0 ts0] using rev_ind.
  - simpl. rewrite Hafter, Hs, Hf, Ht. done.
  - clear IHts0. destruct IH as (t' & _ & ->); [by destruct ts0|].
    cbn [set_type dentries vbm band_gap stable_charges finished_charges
         transition_levels].
    rewrite Hafter. by rewrite !insert_singleton_eq.
Qed.

Lemma init_spec ds v bg dpd d :
  DefectPhaseDiagram_init ds v bg = (Ok (), dpd) →
  last ds = Some d →
  ∃ t x, last (_get_all_defect_types ds) = Some t
    ∧ fermi_levels bg = Ok x
    ∧ dpd =
      {| dentries := ds; vbm := v; band_gap := bg;
         stable_charges :=
           {[ name d := chg_type (scan (no_chempots_of ds) ds t x) ]};
         finished_charges :=
           {[ name d := charge <$> filter (λ e, name e = t) ds ]};
         transition_levels :=
           {[ name d := trans_level (scan (no_chempots_of ds) ds t x) ]} |}.
Proof.
  unfold DefectPhaseDiagram_init, _set_dpd_nochempots.
  cbv zeta. cbn [dentries vbm band_gap]. intros Hinit Hd.
  destruct (fermi_levels bg) as [x|e] eqn:Hx; [|done].
  assert (Hne : x ≠ []).
  { apply fermi_levels_length in Hx. by destruct x. }
  assert (Hde : ds ≠ []) by (by intros ->).
  destruct (set_types_spec x (no_chempots_of ds)
    {| dentries := ds; vbm := v; band_gap := bg;
       stable_charges := ∅; finished_charges := ∅; transition_levels := ∅ |}
    d (_get_all_defect_types ds) Hne Hd
    (defect_types_nonempty _ Hde) eq_refl eq_refl eq_refl)
    as (t & Ht & Hfold).
  cbn [dentries vbm band_gap] in Hfold.
  match type of Hinit with
  | (let (_, _) := ?F in _) = _ =>
      match type of Hfold with
      | _ = ?R => assert (HF : F = R) by exact Hfold; rewrite HF in Hinit
      end
  end.
  injection Hinit as <-.
  by exists t, x.
Qed.

Lemma fermi_levels_defined bg :
  ¬ (bg + (2 # 10) == 0)%Q → ∃ x, fermi_levels bg = Ok x.
Proof.
  intros Hne. unfold fermi_levels, arange. cbn [fst snd].
  destruct (Qeq_bool _ 0) eqn:Hstep; [|by eexists].
  exfalso. apply Qeq_bool_eq in Hstep. apply Hne.
  assert (HW : ((bg + (1 # 10) - - (1 # 10)) / nb_steps
                == (bg + (2 # 10)) * (1 # 10000))%Q)
    by (unfold nb_steps; by field).
  rewrite HW in Hstep. lra.
Qed.


(** The constructor returns for every band gap other than -0.2. *)
Lemma init_Ok ds v bg :
  ¬ (bg + (2 # 10) == 0)%Q →
  ∃ dpd, DefectPhaseDiagram_init ds v bg = (Ok (), dpd).
Proof.
  intros Hne. destruct (fermi_levels_defined bg Hne) as [x Hx].
  unfold DefectPhaseDiagram_init, _set_dpd_nochempots.
  cbv zeta. cbn [dentries vbm band_gap]. rewrite Hx.
  destruct (last ds) as [d|] eqn:Hd.
  - assert (Hxne : x ≠ []).
    { apply fermi_levels_length in Hx. by destruct x. }
    assert (Hde : ds ≠ []) by (by intros ->).
    destruct (set_types_spec x (no_chempots_of ds)
      {| dentries := ds; vbm := v; band_gap := bg;
         stable_charges := ∅; finished_charges := ∅; transition_levels := ∅ |}
      d (_get_all_defect_types ds) Hxne Hd
      (defect_types_nonempty _ Hde) eq_refl eq_refl eq_refl)
      as (t & Ht & Hfold).
    cbn [dentries vbm band_gap] in Hfold.
    match goal with
    | |- ∃ _, (let (_, _) := ?F in _) = _ =>
        match type of Hfold with
        | _ = ?R => assert (HF : F = R) by exact Hfold; rewrite HF
        end
    end.
    by eexists.
  - apply last_None in Hd as ->.
    change (_get_all_defect_types []) with (@nil string).
    cbn [foldl]. by eexists.
Qed.

(** After a successful construction every dict has one key, the name of the
    last entry. *)
Lemma init_single_key ds v bg dpd d :
  DefectPhaseDiagram_init ds v bg = (Ok (), dpd) →
  last ds = Some d →
  dom (stable_charges dpd) = {[ name d ]}
  ∧ dom (finished_charges dpd) = {[ name d ]}
  ∧ dom (transition_levels dpd) = {[ name d ]}.
Proof.
  intros Hinit Hd.
  destruct (init_spec ds v bg dpd d Hinit Hd) as (t & x & _ & _ & ->).
  cbn [stable_charges finished_charges transition_levels].
  by rewrite !dom_singleton_L.
Qed.



(** *** The claims on the defect phase diagram *)




(** C3 (defect). For two entries with the names ["Vac_O"] and ["Int_O"] the
    three dicts hold one key only, the name of the last entry: the loop over
    the defect types stores under [dfct.name], not under the type [t]. *)
Theorem two_defects_one_key :
  ∃ dpd,
    DefectPhaseDiagram_init two_defects 0 (18 # 10) = (Ok (), dpd)
    ∧ _get_all_defect_types two_defects = ["Vac_O"; "Int_O"]
    ∧ dom (stable_charges dpd) = {[ "Int_O" ]}
    ∧ dom (finished_charges dpd) = {[ "Int_O" ]}
    ∧ dom (transition_levels dpd) = {[ "Int_O" ]}
    ∧ stable_charges dpd !! "Vac_O" = None
    ∧ finished_charges dpd !! "Vac_O" = None
    ∧ transition_levels dpd !! "Vac_O" = None.
Proof.
  destruct (init_Ok two_defects 0 (18 # 10)) as [dpd Hinit]; [done|].
  exists dpd.
  destruct (init_single_key two_defects 0 (18 # 10) dpd
              (linear_entry "Int_O" 1 2) Hinit eq_refl) as (Hs & Hf & Ht).
  cbn [name linear_entry] in Hs, Hf, Ht.
  split_and!; [done..| | |]; apply not_elem_of_dom.
  - rewrite Hs. by intros ?%elem_of_singleton.
  - rewrite Hf. by intros ?%elem_of_singleton.
  - rewrite Ht. by intros ?%elem_of_singleton.
Qed.

(** C4 (defect). [add_defect_entry] appends the entry and then raises
    [AttributeError]: it calls [_set_pd_nochempots], which the class does
    not define; the stable charges, finished charges and transition levels
    are left as they were. *)
Theorem add_defect_entry_raises (self : DefectPhaseDiagram)
    (defect : DefectEntry) :
  add_defect_entry defect self
  = (Raise (AttributeError "_set_pd_nochempots"),
     {| dentries := dentries self ++ [defect]; vbm := vbm self;
        band_gap := band_gap self; stable_charges := stable_charges self;
        finished_charges := finished_charges self;
        transition_levels := transition_levels self |}).
Proof. reflexivity. Qed.

(** *** More on the defect phase diagram *)

(** Exceptions of the dict lookups in [suggest_charges]. *)
Inductive py_error : Type :=
| KeyError (key : string)
| Other (e : exn).

(** [min(stablechgs)] and [max(stablechgs)] need a non-empty list of
    integers. *)
Definition int_charges (stablechgs : list (option Z)) : py_error + list Z :=
  match stablechgs with
  | [] => inl (Other (ValueError "min() arg is an empty sequence"))
  | _ :: _ =>
      match mapM id stablechgs with
      | Some zs => inr zs
      | None => inl (Other TypeError)
      end
  end.

Definition list_min (zs : list Z) : Z := foldr Z.min (default 0%Z (head zs)) zs.
Definition list_max (zs : list Z) : Z := foldr Z.max (default 0%Z (head zs)) zs.

(** Lines 189-202: whether the transition levels leave [followup_chg]
    recommended. *)
Fixpoint recommend_flag (band_gap : Q) (followup_chg : Z)
    (tls : list (Q * Z * option Z)) (recflag : bool) : py_error + bool :=
  match tls with
  | [] => inr recflag
  | (x, prev, cur) :: tls =>
      let recflag :=
        if Qle_bool x (1 # 10) then
          let morepos := prev in
          if (morepos <? followup_chg)%Z then false else recflag
        else recflag in
      if Qle_bool (band_gap - (1 # 10)) x then
        match cur with
        | None => inl (Other TypeError)
        | Some moreneg =>
            recommend_flag band_gap followup_chg tls
              (if (followup_chg <? moreneg)%Z then false else recflag)
        end
      else recommend_flag band_gap followup_chg tls recflag
  end.

(** Lines 185-204: the loop over the follow-up charges of one defect. *)
Fixpoint recommend_charges (self : DefectPhaseDiagram) (t : string)
    (allchgs : list Z) (followups : list Z) (reccomendset : list Z)
  : py_error + list Z :=
  match followups with
  | [] => inr reccomendset
  | followup_chg :: followups =>
      if bool_decide (followup_chg ∈ allchgs)
      then recommend_charges self t allchgs followups reccomendset
      else
        match transition_levels self !! t with
        | None => inl (KeyError t)
        | Some tls =>
            match recommend_flag (band_gap self) followup_chg tls true with
            | inl e => inl e
            | inr recflag =>
                recommend_charges self t allchgs followups
                  (if recflag then reccomendset ++ [followup_chg]
                   else reccomendset)
            end
        end
  end.

(** Lines 180-207: one defect type. *)
Definition suggest_for (self : DefectPhaseDiagram) (t : string)
  : py_error + list Z :=
  match finished_charges self !! t with
  | None => inl (KeyError t)
  | Some allchgs =>
      match stable_charges self !! t with
      | None => inl (KeyError t)
      | Some stablechgs =>
          match int_charges stablechgs with
          | inl e => inl e
          | inr zs =>
              recommend_charges self t allchgs
                (seqZ (list_min zs - 1) (list_max zs + 2 - (list_min zs - 1)))
                []
          end
      end
  end.

(** [DefectPhaseDiagram.suggest_charges] *)
Definition suggest_step (self : DefectPhaseDiagram)
    (fullrecommendset : py_error + gmap string (list Z)) (t : string)
  : py_error + gmap string (list Z) :=
  match fullrecommendset with
  | inl e => inl e
  | inr full =>
      match suggest_for self t with
      | inl e => inl e
      | inr reccomendset => inr (<[t := reccomendset]> full)
      end
  end.

Definition suggest_charges (self : DefectPhaseDiagram)
  : py_error + gmap string (list Z) :=
  foldl (suggest_step self)
        (inr ∅) (_get_all_defect_types (dentries self)).

(** A diagram with one defect, two finished charges and one transition. *)
Definition one_vacancy : DefectPhaseDiagram :=
  {| dentries := [linear_entry "Vac_O" 1 0; linear_entry "Vac_O" 0 (1 # 2)];
     vbm := 0; band_gap := 1;
     stable_charges := {[ "Vac_O" := [Some 1%Z; Some 0%Z] ]};
     finished_charges := {[ "Vac_O" := [1%Z; 0%Z] ]};
     transition_levels := {[ "Vac_O" := [((1 # 2)%Q, 1%Z, Some 0%Z)] ]} |}.

Example one_vacancy_suggestions :
  suggest_charges one_vacancy = inr {[ "Vac_O" := [-1; 2]%Z ]}.
Proof. vm_compute. reflexivity. Qed.

(** [_get_all_defect_types], from a given start of [to_return]. *)
Lemma defect_types_from ds : ∀ acc,
  NoDup acc →
  let r := foldl (λ to_return d,
                    if bool_decide (name d ∈ to_return) then to_return
                    else to_return ++ [name d]) acc ds in
  NoDup r
  ∧ (∀ t, t ∈ r ↔ t ∈ acc ∨ ∃ d, d ∈ ds ∧ name d = t)
  ∧ ∃ more, r = acc ++ more.
Proof.
  induction ds as [|d ds IH]; intros acc Hacc; simpl.
  - split_and!; [done| |exists []; by rewrite app_nil_r].
    intros t. split; [by left|]. intros [?|(d & Hd & _)]; [done|].
    by apply elem_of_nil in Hd.
  - case_bool_decide as Hin.
    + destruct (IH acc Hacc) as (Hnd & Hmem & Hpre). split_and!; [done| |done].
      intros t. rewrite Hmem. split.
      * intros [?|(d' & Hd' & Hn)]; [by left|]. right. exists d'.
        split; [by right|done].
      * intros [?|(d' & [->|Hd']%elem_of_cons & Hn)]; [by left| |].
        -- left. by rewrite <- Hn.
        -- right. by exists d'.
    + destruct (IH (acc ++ [name d])) as (Hnd & Hmem & [more Hpre]).
      { apply NoDup_app. split_and!; [done| |apply NoDup_singleton].
        intros t Ht ->%list_elem_of_singleton. done. }
      split_and!; [done| |exists (name d :: more); by rewrite Hpre, <- app_assoc].
      intros t. rewrite Hmem, elem_of_app, list_elem_of_singleton. split.
      * intros [[?| ->]|(d' & Hd' & Hn)]; [by left| |].
        -- right. exists d. split; [by left|done].
        -- right. exists d'. split; [by right|done].
      * intros [?|(d' & [->|Hd']%elem_of_cons & Hn)]; [by left; left| |].
        -- left. by right.
        -- right. by exists d'.
Qed.

(** X8. [_get_all_defect_types] lists every defect name of the entries
    once, and nothing else. *)
Theorem defect_types_distinct_names (ds : list DefectEntry) :
  NoDup (_get_all_defect_types ds)
  ∧ ∀ t, t ∈ _get_all_defect_types ds ↔ ∃ d, d ∈ ds ∧ name d = t.
Proof.
  destruct (defect_types_from ds [] (NoDup_nil_2)) as (Hnd & Hmem & _).
  split; [done|]. intros t. rewrite (Hmem t). split; [|by right].
  intros [Hin|?]; [by apply elem_of_nil in Hin|done].
Qed.

Lemma defect_types_head d ds :
  ∃ more, _get_all_defect_types (d :: ds) = name d :: more.
Proof.
  unfold _get_all_defect_types. simpl.
  destruct (defect_types_from ds [name d]) as (_ & _ & [more ->]).
  - apply NoDup_singleton.
  - by exists more.
Qed.

Lemma suggest_fold_error self e ts :
  foldl (suggest_step self) (inl e) ts = inl e.
Proof. induction ts as [|t ts IH]; [done|]. simpl. apply IH. Qed.

(** X9. After a successful construction from entries whose first and last
    entry have different defect names, [suggest_charges] raises [KeyError]
    for the name of the first entry: the dicts hold the name of the last
    entry only. *)
Theorem suggest_charges_KeyError ds v bg dpd d1 d2 :
  DefectPhaseDiagram_init ds v bg = (Ok (), dpd) →
  head ds = Some d1 → last ds = Some d2 → name d1 ≠ name d2 →
  suggest_charges dpd = inl (KeyError (name d1)).
Proof.
  intros Hinit Hhead Hlast Hne.
  destruct (init_single_key ds v bg dpd d2 Hinit Hlast) as (_ & Hfin & _).
  destruct (init_spec ds v bg dpd d2 Hinit Hlast) as (t & x & _ & _ & Hdpd).
  assert (Hds : dentries dpd = ds) by (by rewrite Hdpd).
  unfold suggest_charges. rewrite Hds.
  destruct ds as [|d ds']; [done|]. injection Hhead as ->.
  destruct (defect_types_head d1 ds') as [more ->]. cbn [foldl].
  assert (Hnone : finished_charges dpd !! name d1 = None).
  { apply not_elem_of_dom. rewrite Hfin. by intros ?%elem_of_singleton. }
  assert (Hfor : suggest_for dpd (name d1) = inl (KeyError (name d1))).
  { unfold suggest_for. by rewrite Hnone. }
  unfold suggest_step at 2. rewrite Hfor. apply suggest_fold_error.
Qed.

Lemma suggest_charges_witness_init :
  ∃ dpd, DefectPhaseDiagram_init two_defects 0 (18 # 10) = (Ok (), dpd).
Proof. by apply init_Ok. Qed.

Lemma suggest_charges_KeyError_witness :
  suggest_charges (DefectPhaseDiagram_init two_defects 0 (18 # 10)).2
  = inl (KeyError "Vac_O").
Proof.
  destruct suggest_charges_witness_init as [dpd Hinit].
  apply (suggest_charges_KeyError two_defects 0 (18 # 10) _
           (linear_entry "Vac_O" 0 1) (linear_entry "Int_O" 1 2)).
  - rewrite Hinit. reflexivity.
  - reflexivity.
  - reflexivity.
  - done.
Defined.

Lemma list_min_max_spec zs :
  zs ≠ [] →
  list_min zs ∈ zs ∧ list_max zs ∈ zs
  ∧ ∀ z, z ∈ zs → (list_min zs ≤ z ≤ list_max zs)%Z.
Proof.
  destruct zs as [|a zs]; [done|]. intros _.
  unfold list_min, list_max. cbn [head default].
  assert (Hgen : ∀ l,
    (foldr Z.min a l = a ∨ foldr Z.min a l ∈ l)
    ∧ (foldr Z.max a l = a ∨ foldr Z.max a l ∈ l)
    ∧ (foldr Z.min a l ≤ a ≤ foldr Z.max a l)%Z
    ∧ ∀ z, z ∈ l → (foldr Z.min a l ≤ z ≤ foldr Z.max a l)%Z).
  { induction l as [|b l (Hmin & Hmax & Ha & Hall)]; cbn [foldr].
    - split; [by left|]. split; [by left|]. split; [lia|].
      intros z Hz. by apply elem_of_nil in Hz.
    - split; [|split; [|split]].
      + destruct (Z.min_spec b (foldr Z.min a l)) as [[_ ->]|[_ ->]].
        * right. by left.
        * destruct Hmin as [?|?]; [by left|right; by right].
      + destruct (Z.max_spec b (foldr Z.max a l)) as [[_ ->]|[_ ->]].
        * destruct Hmax as [?|?]; [by left|right; by right].
        * right. by left.
      + lia.
      + intros z [->|Hz]%elem_of_cons; [lia|]. specialize (Hall z Hz). lia. }
  destruct (Hgen (a :: zs)) as (Hmin & Hmax & _ & Hall).
  change (id a) with a.
  split; [|split; [|exact Hall]].
  - destruct Hmin as [Heq|?]; [rewrite Heq; by left|done].
  - destruct Hmax as [Heq|?]; [rewrite Heq; by left|done].
Qed.

Lemma int_charges_spec stablechgs zs :
  int_charges stablechgs = inr zs →
  zs ≠ [] ∧ ∀ z, z ∈ zs ↔ Some z ∈ stablechgs.
Proof.
  unfold int_charges. destruct stablechgs as [|q l]; [done|].
  destruct (mapM id (q :: l)) as [zs'|] eqn:Hm; [|done]. intros [= <-].
  apply mapM_Some in Hm. split.
  - apply Forall2_length in Hm. by destruct zs'.
  - intros z. split.
    + intros Hz. apply list_elem_of_lookup in Hz as [i Hi].
      destruct (Forall2_lookup_r _ _ _ _ _ Hm Hi) as (o & Ho & Hid).
      simpl in Hid. subst o. by eapply list_elem_of_lookup_2.
    + intros Hz. apply list_elem_of_lookup in Hz as [i Hi].
      destruct (Forall2_lookup_l _ _ _ _ _ Hm Hi) as (z' & Hz' & Hid).
      simpl in Hid. injection Hid as ->. by eapply list_elem_of_lookup_2.
Qed.

Lemma recommend_charges_spec self t allchgs followups : ∀ acc rec,
  recommend_charges self t allchgs followups acc = inr rec →
  ∀ c, c ∈ rec → c ∈ acc ∨ (c ∈ followups ∧ c ∉ allchgs).
Proof.
  induction followups as [|f followups IH]; intros acc rec Hrec c Hc; simpl in Hrec.
  - injection Hrec as <-. by left.
  - case_bool_decide as Hin.
    + destruct (IH acc rec Hrec c Hc) as [?|[? ?]]; [by left|].
      right. split; [by right|done].
    + destruct (transition_levels self !! t) as [tls|]; [|done].
      destruct (recommend_flag _ f tls true) as [e|recflag]; [done|].
      destruct (IH _ rec Hrec c Hc) as [Hacc|[? ?]].
      * destruct recflag; [|by left].
        apply elem_of_app in Hacc as [?| ->%list_elem_of_singleton];
          [by left|]. right. split; [by left|done].
      * right. split; [by right|done].
Qed.

Lemma suggest_fold_lookup self ts : ∀ acc recs t rec,
  foldl (suggest_step self) (inr acc) ts = inr recs →
  recs !! t = Some rec →
  acc !! t = Some rec ∨ suggest_for self t = inr rec.
Proof.
  induction ts as [|t0 ts IH]; intros acc recs t rec Hfold Ht; simpl in Hfold.
  - injection Hfold as <-. by left.
  - destruct (suggest_for self t0) as [e|r0] eqn:Ht0.
    + by rewrite suggest_fold_error in Hfold.
    + destruct (IH _ _ _ _ Hfold Ht) as [Hacc|?]; [|by right].
      destruct (decide (t0 = t)) as [->|Hne].
      * rewrite lookup_insert_eq in Hacc. injection Hacc as ->. by right.
      * rewrite lookup_insert_ne in Hacc by done. by left.
Qed.

(** X10. Whatever [suggest_charges] recommends for a defect is not among
    its finished charges and lies between the smallest stable charge minus
    one and the largest stable charge plus one. *)
Theorem suggested_charges_bounds self recs t rec c :
  suggest_charges self = inr recs →
  recs !! t = Some rec → c ∈ rec →
  ∃ allchgs stablechgs lo hi,
    finished_charges self !! t = Some allchgs
    ∧ stable_charges self !! t = Some stablechgs
    ∧ (c ∉ allchgs)
    ∧ Some lo ∈ stablechgs ∧ Some hi ∈ stablechgs
    ∧ (∀ q, Some q ∈ stablechgs → (lo ≤ q ≤ hi)%Z)
    ∧ (lo - 1 ≤ c ≤ hi + 1)%Z.
Proof.
  intros Hsug Ht Hc.
  destruct (suggest_fold_lookup self _ _ _ _ _ Hsug Ht) as [Hempty|Hfor];
    [by rewrite lookup_empty in Hempty|].
  unfold suggest_for in Hfor.
  destruct (finished_charges self !! t) as [allchgs|]; [|done].
  destruct (stable_charges self !! t) as [stablechgs|]; [|done].
  destruct (int_charges stablechgs) as [e|zs] eqn:Hint; [done|].
  apply int_charges_spec in Hint as [Hne Hzs].
  destruct (list_min_max_spec zs Hne) as (Hmin & Hmax & Hall).
  destruct (recommend_charges_spec _ _ _ _ _ _ Hfor c Hc) as [Hnil|[Hrange Hnot]];
    [by apply elem_of_nil in Hnil|].
  apply elem_of_seqZ in Hrange.
  exists allchgs, stablechgs, (list_min zs), (list_max zs).
  split_and!; [done|done|done|by apply Hzs|by apply Hzs| |lia|lia].
  intros q Hq%Hzs. by apply Hall.
Qed.

Lemma suggested_charges_bounds_witness :
  ∃ allchgs stablechgs lo hi,
    finished_charges one_vacancy !! "Vac_O" = Some allchgs
    ∧ stable_charges one_vacancy !! "Vac_O" = Some stablechgs
    ∧ (2%Z ∉ allchgs)
    ∧ Some lo ∈ stablechgs ∧ Some hi ∈ stablechgs
    ∧ (∀ q, Some q ∈ stablechgs → (lo ≤ q ≤ hi)%Z)
    ∧ (lo - 1 ≤ 2 ≤ hi + 1)%Z.
Proof.
  apply (suggested_charges_bounds one_vacancy
           {[ "Vac_O" := [-1; 2]%Z ]} "Vac_O" [-1; 2]%Z 2%Z).
  - vm_compute. reflexivity.
  - reflexivity.
  - by right; left.
Defined.

(** *** What the scan keeps *)

Lemma min_charge_from_Some no_chempots dentries t x_step q :
  is_Some (min_charge no_chempots dentries t x_step (Some q)).
Proof.
  unfold min_charge. generalize 10000%Q. generalize q.
  induction dentries as [|d l IH]; intros q0 miny; cbn [foldl]; [by eexists|].
  destruct (String.eqb (name d) t); [|apply IH].
  cbv zeta. destruct (Qltb _ miny); apply IH.
Qed.

(** What holds of the state of the loop over the Fermi levels. *)
Definition scan_inv (xs : list Q) (st : scan_state) : Prop :=
  NoDup (chg_type st)
  ∧ cur_min_q st = prev_min_q st
  ∧ (∀ q, q ∈ chg_type st → is_Some q)
  ∧ ((chg_type st = [] ∧ trans_level st = [])
     ∨ (prev_min_q st ∈ chg_type st
        ∧ length (chg_type st) ≤ length (trans_level st) + 1))
  ∧ (∀ x p c, (x, p, c) ∈ trans_level st → c ≠ Some p ∧ c ∈ chg_type st)
  ∧ (∀ x p c, last (trans_level st) = Some (x, p, c) → c = prev_min_q st)
  ∧ (∀ i x p c x' p' c',
       trans_level st !! i = Some (x, p, c) →
       trans_level st !! S i = Some (x', p', c') → c = Some p')
  ∧ (λ tl, tl.1.1) <$> trans_level st `sublist_of` xs.

Lemma scan_step_inv no_chempots dentries t xs st x_step :
  scan_inv xs st →
  scan_inv (xs ++ [x_step]) (scan_step no_chempots dentries t st x_step).
Proof.
  intros (Hnd & Hcur & Hsome & Hlen & Htl & Hlast & Hchain & Hsub).
  unfold scan_step.
  destruct (prev_min_q st) as [prev|] eqn:Hprev.
  - rewrite Hcur.
    destruct (min_charge_from_Some no_chempots dentries t x_step prev)
      as [c Hc].
    rewrite Hc. clear Hc.
    set (chg' := if bool_decide (Some c ∈ chg_type st) then chg_type st
                 else chg_type st ++ [Some c]).
    set (tl' := if bool_decide (Some c ≠ Some prev)
                then trans_level st ++ [(x_step, prev, Some c)]
                else trans_level st).
    assert (Hchg : ∀ q, q ∈ chg_type st → q ∈ chg').
    { intros q Hq. unfold chg'. case_bool_decide; [done|].
      apply elem_of_app. by left. }
    assert (Hnew : Some c ∈ chg').
    { unfold chg'. case_bool_decide; [done|]. apply elem_of_app. right. by left. }
    assert (Hold : Some c ∈ chg_type st → chg' = chg_type st).
    { intros Hin. unfold chg'. by rewrite bool_decide_eq_true_2. }
    assert (Hgrow : length chg' ≤ length (chg_type st) + 1).
    { unfold chg'. case_bool_decide; [lia|]. rewrite length_app. simpl. lia. }
    assert (Hnd' : NoDup chg').
    { unfold chg'. case_bool_decide; [done|].
      apply NoDup_app. split_and!; [done| |apply NoDup_singleton].
      intros q Hq ->%list_elem_of_singleton. done. }
    assert (Hsome' : ∀ q, q ∈ chg' → is_Some q).
    { intros q. unfold chg'. case_bool_decide; [apply Hsome|].
      intros [?| ->%list_elem_of_singleton]%elem_of_app; [by apply Hsome|].
      by eexists. }
    assert (Hsame : Some c = Some prev → tl' = trans_level st).
    { intros Heq. unfold tl'. by rewrite bool_decide_eq_false_2 by (by intros ?). }
    assert (Hmore : Some c ≠ Some prev →
              tl' = trans_level st ++ [(x_step, prev, Some c)]).
    { intros Hne. unfold tl'. by rewrite bool_decide_eq_true_2. }
    clearbody chg' tl'.
    unfold scan_inv.
    cbn [chg_type trans_level prev_min_q cur_min_q].
    split; [done|]. split; [done|]. split; [done|].
    destruct (decide (Some c = Some prev)) as [Heq|Hne].
    + rewrite (Hsame Heq). clear Hsame Hmore tl'.
      split.
      { right. split; [done|].
        destruct Hlen as [[Hnil Htnil]|[Hin Hle]].
        - rewrite Hnil in Hgrow. rewrite Htnil. simpl in *. lia.
        - rewrite Hold; [done|]. by rewrite Heq. }
      split.
      { intros x p c0 Hin. destruct (Htl _ _ _ Hin) as [? ?].
        split; [done|by apply Hchg]. }
      split.
      { intros x p c0 Hl. rewrite Heq. by eapply Hlast. }
      split; [exact Hchain|].
      by apply sublist_inserts_r.
    + rewrite (Hmore Hne). clear Hsame Hmore tl'.
      split.
      { right. split; [done|]. rewrite length_app. simpl.
        destruct Hlen as [[Hnil Htnil]|[Hin Hle]].
        - rewrite Hnil in Hgrow. simpl in *. lia.
        - lia. }
      split.
      { intros x p c0 [Hin|Hin%list_elem_of_singleton]%elem_of_app.
        - destruct (Htl _ _ _ Hin) as [? ?]. split; [done|by apply Hchg].
        - injection Hin as -> -> ->. done. }
      split.
      { intros x p c0. rewrite last_snoc. by intros [= _ _ ->]. }
      split.
      { intros i x p c0 x' p' c' Hi HSi.
        destruct (decide (S i < length (trans_level st))) as [Hlt|Hge].
        - rewrite lookup_app_l in Hi by lia.
          rewrite lookup_app_l in HSi by lia.
          by eapply Hchain.
        - assert (HSiL : S i
                    < length (trans_level st ++ [(x_step, prev, Some c)]))
            by (by eapply lookup_lt_Some).
          rewrite length_app in HSiL. simpl in HSiL.
          assert (Hlen' : S i = length (trans_level st)) by lia.
          rewrite lookup_app_l in Hi by lia.
          rewrite lookup_app_r in HSi by lia.
          replace (S i - length (trans_level st)) with 0 in HSi by lia.
          injection HSi as _ <- _.
          apply (Hlast x p).
          rewrite last_lookup. rewrite <- Hlen'. exact Hi. }
      rewrite fmap_app. by apply sublist_app.
  - assert (Hnil : chg_type st = [] ∧ trans_level st = []).
    { destruct Hlen as [?|[Hin _]]; [done|].
      by destruct (Hsome _ Hin). }
    destruct Hnil as [Hnil Htnil].
    unfold scan_inv. cbn [chg_type trans_level prev_min_q cur_min_q].
    rewrite Hnil, Htnil.
    split_and!; [apply NoDup_nil_2|done| |by left| | | |].
    + by intros q ?%elem_of_nil.
    + by intros x p c ?%elem_of_nil.
    + done.
    + done.
    + apply sublist_nil_l.
Qed.

Lemma scan_keeps_inv no_chempots dentries t xs :
  scan_inv xs (scan no_chempots dentries t xs).
Proof.
  induction xs as [|x xs IH] using rev_ind.
  - unfold scan, scan_inv. cbn.
    split_and!; [apply NoDup_nil_2|done| |by left| | | |done].
    + by intros q ?%elem_of_nil.
    + by intros x p c ?%elem_of_nil.
    + done.
    + done.
  - rewrite scan_snoc. by apply scan_step_inv.
Qed.

(** How the dicts of a constructed diagram come from the scan. *)
Lemma init_lookup ds v bg dpd k l :
  DefectPhaseDiagram_init ds v bg = (Ok (), dpd) →
  stable_charges dpd !! k = Some l →
  ∃ d t x, last ds = Some d ∧ k = name d
    ∧ last (_get_all_defect_types ds) = Some t
    ∧ fermi_levels bg = Ok x
    ∧ l = chg_type (scan (no_chempots_of ds) ds t x)
    ∧ transition_levels dpd !! k
      = Some (trans_level (scan (no_chempots_of ds) ds t x))
    ∧ finished_charges dpd !! k
      = Some (charge <$> filter (λ e, name e = t) ds).
Proof.
  intros Hinit Hk.
  destruct (last ds) as [d|] eqn:Hd.
  2: { apply last_None in Hd as ->.
       unfold DefectPhaseDiagram_init, _set_dpd_nochempots in Hinit.
       cbv zeta in Hinit. cbn [dentries band_gap] in Hinit.
       destruct (fermi_levels bg); [|done].
       change (_get_all_defect_types []) with (@nil string) in Hinit.
       cbn [foldl] in Hinit. injection Hinit as <-. done. }
  destruct (init_spec ds v bg dpd d Hinit Hd) as (t & x & Ht & Hx & ->).
  cbn [stable_charges transition_levels finished_charges] in *.
  apply lookup_singleton_Some in Hk as [<- <-].
  exists d, t, x. by rewrite !lookup_singleton_eq.
Qed.

(** X11. In a constructed diagram the stable charges of a key are distinct
    integers, at most one more than there are transition levels; every
    transition level is between two different charges, leads to a stable
    charge, starts from the charge the one before led to, and the levels
    come in the order of the Fermi levels sampled. *)
Theorem transition_levels_consistent ds v bg dpd k l tl :
  DefectPhaseDiagram_init ds v bg = (Ok (), dpd) →
  stable_charges dpd !! k = Some l →
  transition_levels dpd !! k = Some tl →
  NoDup l
  ∧ length l ≤ length tl + 1
  ∧ (∀ q, q ∈ l → is_Some q)
  ∧ (∀ x p c, (x, p, c) ∈ tl → c ≠ Some p ∧ c ∈ l)
  ∧ (∀ i x p c x' p' c',
       tl !! i = Some (x, p, c) → tl !! S i = Some (x', p', c') → c = Some p')
  ∧ ∃ xs, fermi_levels bg = Ok xs ∧ (λ tl, tl.1.1) <$> tl `sublist_of` xs.
Proof.
  intros Hinit Hk Htl.
  destruct (init_lookup ds v bg dpd k l Hinit Hk)
    as (d & t & x & _ & _ & _ & Hx & -> & Htl' & _).
  rewrite Htl' in Htl. injection Htl as <-.
  destruct (scan_keeps_inv (no_chempots_of ds) ds t x)
    as (Hnd & _ & Hsome & Hlen & Htrans & _ & Hchain & Hsub).
  split_and!; [done| |done|done|done|by exists x].
  destruct Hlen as [[-> ->]|[_ ?]]; [simpl; lia|done].
Qed.

Lemma transition_levels_consistent_witness :
  let dpd := (DefectPhaseDiagram_init two_defects 0 (18 # 10)).2 in
  let l := default [] (stable_charges dpd !! "Int_O") in
  let tl := default [] (transition_levels dpd !! "Int_O") in
  NoDup l
  ∧ length l ≤ length tl + 1
  ∧ (∀ q, q ∈ l → is_Some q)
  ∧ (∀ x p c, (x, p, c) ∈ tl → c ≠ Some p ∧ c ∈ l)
  ∧ (∀ i x p c x' p' c',
       tl !! i = Some (x, p, c) → tl !! S i = Some (x', p', c') → c = Some p')
  ∧ ∃ xs, fermi_levels (18 # 10) = Ok xs
          ∧ (λ tl, tl.1.1) <$> tl `sublist_of` xs.
Proof.
  destruct (init_Ok two_defects 0 (18 # 10)) as [dpd Hinit]; [done|].
  cbv zeta.
  destruct (init_spec two_defects 0 (18 # 10) dpd
              (linear_entry "Int_O" 1 2) Hinit eq_refl)
    as (t & x & _ & _ & Hdpd).
  apply (transition_levels_consistent two_defects 0 (18 # 10)
           (DefectPhaseDiagram_init two_defects 0 (18 # 10)).2 "Int_O").
  - rewrite Hinit. reflexivity.
  - rewrite Hinit. cbn [snd]. rewrite Hdpd.
    cbn [stable_charges name linear_entry].
    by rewrite lookup_singleton_eq.
  - rewrite Hinit. cbn [snd]. rewrite Hdpd.
    cbn [transition_levels name linear_entry].
    by rewrite lookup_singleton_eq.
Defined.


(** X13. A constructed diagram has one key in its dicts whatever the
    entries: the name of the last entry.  What is stored there belongs to
    the defect type that comes last in [_get_all_defect_types], which need
    not be the name of the last entry. *)
Theorem dicts_hold_last_type_only ds v bg dpd d t :
  DefectPhaseDiagram_init ds v bg = (Ok (), dpd) →
  last ds = Some d →
  last (_get_all_defect_types ds) = Some t →
  finished_charges dpd
  = {[ name d := charge <$> filter (λ e, name e = t) ds ]}
  ∧ ∃ x, fermi_levels bg = Ok x
      ∧ stable_charges dpd
        = {[ name d := chg_type (scan (no_chempots_of ds) ds t x) ]}
      ∧ transition_levels dpd
        = {[ name d := trans_level (scan (no_chempots_of ds) ds t x) ]}.
Proof.
  intros Hinit Hd Ht.
  destruct (init_spec ds v bg dpd d Hinit Hd) as (t' & x & Ht' & Hx & ->).
  rewrite Ht in Ht'. injection Ht' as <-.
  split; [done|]. by exists x.
Qed.

(** Entries named A, B, A: the charges of B are stored under A. *)
Definition interleaved_defects : list DefectEntry :=
  [linear_entry "Vac_O" 0 1; linear_entry "Int_O" 1 2;
   linear_entry "Vac_O" 2 3].

Lemma dicts_hold_last_type_only_witness :
  let dpd := (DefectPhaseDiagram_init interleaved_defects 0 (18 # 10)).2 in
  finished_charges dpd = {[ "Vac_O" := [1%Z] ]}
  ∧ ∃ x, fermi_levels (18 # 10) = Ok x
      ∧ stable_charges dpd
        = {[ "Vac_O" :=
               chg_type (scan (no_chempots_of interleaved_defects)
                           interleaved_defects "Int_O" x) ]}
      ∧ transition_levels dpd
        = {[ "Vac_O" :=
               trans_level (scan (no_chempots_of interleaved_defects)
                              interleaved_defects "Int_O" x) ]}.
Proof.
  destruct (init_Ok interleaved_defects 0 (18 # 10)) as [dpd Hinit]; [done|].
  cbv zeta.
  apply (dicts_hold_last_type_only interleaved_defects 0 (18 # 10)
           (DefectPhaseDiagram_init interleaved_defects 0 (18 # 10)).2
           (linear_entry "Vac_O" 2 3) "Int_O").
  - rewrite Hinit. reflexivity.
  - reflexivity.
  - reflexivity.
Defined.

End Thermodynamics.

(** ** pymatgen/phonon/ir_spectra.py *)

Module IRSpectraGen.

(** Complex numbers over the rationals. *)
Definition complex : Type := Q * Q.

Definition cadd (a b : complex) : complex := ((a.1 + b.1)%Q, (a.2 + b.2)%Q).

(** [a / d]; where numpy gives [nan] or [inf] for a zero denominator (with
    a warning, not an exception) the rationals give 0. *)
Definition cdiv (a d : complex) : complex :=
  let n := (d.1 * d.1 + d.2 * d.2)%Q in
  (((a.1 * d.1 + a.2 * d.2) / n)%Q, ((a.2 * d.1 - a.1 * d.2) / n)%Q).

(** 3 x 3 tensors. *)
Definition vec3 (A : Type) : Type := A * A * A.
Definition mat3 (A : Type) : Type := vec3 (vec3 A).

Definition vec3_map {A B} (f : A → B) (v : vec3 A) : vec3 B :=
  let '(a, b, c) := v in (f a, f b, f c).

Definition vec3_zip {A B C} (f : A → B → C) (u : vec3 A) (v : vec3 B)
  : vec3 C :=
  let '(a, b, c) := u in let '(a', b', c') := v in (f a a', f b b', f c c').

Definition mat3_map {A B} (f : A → B) : mat3 A → mat3 B :=
  vec3_map (vec3_map f).

Definition mat3_zip {A B C} (f : A → B → C) : mat3 A → mat3 B → mat3 C :=
  vec3_zip (vec3_zip f).

Definition mat3_zero : mat3 complex :=
  let z := (0%Q, 0%Q) in ((z, z, z), (z, z, z), (z, z, z)).

Record IRDielectricTensorGenerator := {
  oscillator_strength : list (mat3 Q);
  phfreqs_gamma : list Q;
  epsinf : mat3 Q
}.

Record IRSpectra := {
  frequencies : list Q;
  ir_spectra_tensor : list (mat3 complex);
  ir_spectra_generator : IRDielectricTensorGenerator
}.

(** What a caller can pass for [broad]: a float, a list, or something that
    is neither (an int; a tuple or an array, which are sequences but not
    lists). *)
Inductive broad_arg : Type :=
| BroadFloat (b : Q)
| BroadList (l : list Q)
| BroadInt (n : Z)
| BroadTuple (l : list Q).

(** The builtin [max] on a sequence of floats. *)
Definition py_max (l : list Q) : result Q :=
  match l with
  | [] => Raise (ValueError "max() arg is an empty sequence")
  | x :: l' => Ok (foldl (λ m y, if Qle_bool y m then m else y) x l')
  end.

(** [max_phfreq] and [nphfreqs] *)
Definition max_phfreq (self : IRDielectricTensorGenerator) : result Q :=
  py_max (phfreqs_gamma self).

Definition nphfreqs (self : IRDielectricTensorGenerator) : nat :=
  length (phfreqs_gamma self).

(** [max(broad)] *)
Definition max_broad (broad : broad_arg) : result Q :=
  match broad with
  | BroadList l | BroadTuple l => py_max l
  | BroadFloat _ | BroadInt _ => Raise TypeError
  end.

(** [broad[i]] *)
Definition broad_item (broad : broad_arg) (i : nat) : result Q :=
  match broad with
  | BroadList l | BroadTuple l =>
      match l !! i with
      | Some b => Ok b
      | None => Raise IndexError
      end
  | BroadFloat _ | BroadInt _ => Raise TypeError
  end.

(** [np.linspace(start, stop, num)] *)
Definition linspace (start stop : Q) (num : Z) : result (list Q) :=
  if (num <? 0)%Z then
    Raise (ValueError "Number of samples must be non-negative.")
  else if (num =? 1)%Z then Ok [start]
  else Ok ((λ i, start + inject_Z i * ((stop - start) / inject_Z (num - 1)))%Q
             <$> seqZ 0 num).

Definition broad_list_message : string :=
  "The number of elements in the broad_list is not the same as the number of frequencies".

(** Lines 97-99: one phonon mode [i] added to the tensor [t]. *)
Definition add_mode (self : IRDielectricTensorGenerator) (broad : broad_arg)
    (w : list Q) (t : list (mat3 complex)) (i : nat)
  : result (list (mat3 complex)) :=
  b ← broad_item broad i;
  ph ← match phfreqs_gamma self !! i with
       | Some ph => Ok ph
       | None => Raise IndexError
       end;
  let g := (b * ph)%Q in
  os ← match oscillator_strength self !! i with
       | Some os => Ok os
       | None => Raise IndexError
       end;
  Ok (zip_with
        (λ t_k w_k,
           mat3_zip cadd t_k
             (mat3_map (λ a, cdiv (a, 0%Q) ((ph * ph - w_k * w_k)%Q, (- g)%Q))
                       os))
        t w).

Fixpoint add_modes (self : IRDielectricTensorGenerator) (broad : broad_arg)
    (w : list Q) (t : list (mat3 complex)) (modes : list nat)
  : result (list (mat3 complex)) :=
  match modes with
  | [] => Ok t
  | i :: modes => t' ← add_mode self broad w t i; add_modes self broad w t' modes
  end.

(** [IRDielectricTensorGenerator.get_ir_spectra(broad, emin, emax, divs)] *)
Definition get_ir_spectra (self : IRDielectricTensorGenerator)
    (broad : broad_arg) (emin : Q) (emax : option Q) (divs : Z)
  : result IRSpectra :=
  let broad :=
    match broad with
    | BroadFloat b => BroadList (replicate (nphfreqs self) b)
    | _ => broad
    end in
  match broad with
  | BroadList l =>
      if bool_decide (length l ≠ nphfreqs self)
      then Raise (ValueError broad_list_message) else Ok ()
  | _ => Ok ()
  end;;
  emax ← match emax with
         | None => m ← max_phfreq self; b ← max_broad broad;
                   Ok (m + b * 20)%Q
         | Some emax => Ok emax
         end;
  w ← linspace emin emax divs;
  let t := replicate (Z.to_nat divs) mat3_zero in
  t ← add_modes self broad w t (seq 3 (length (phfreqs_gamma self) - 3));
  let t := (λ t_k, mat3_zip cadd t_k (mat3_map (λ a, (a, 0%Q)) (epsinf self)))
             <$> t in
  Ok {| frequencies := w; ir_spectra_tensor := t;
        ir_spectra_generator := self |}.



(** Four modes, of which the fourth is optical. *)
Definition four_modes : IRDielectricTensorGenerator :=
  let o := ((1, 0, 0), (0, 1, 0), (0, 0, 1))%Q in
  {| oscillator_strength := [o; o; o; o];
     phfreqs_gamma := [0; 0; 0; 1 # 10]%Q;
     epsinf := o |}.

(** *** Which calls raise [ValueError] *)


Lemma py_max_nonempty l : l ≠ [] → ∃ m, py_max l = Ok m.
Proof. destruct l; [done|]. intros _. by eexists. Qed.

Lemma linspace_Ok start stop num :
  (0 ≤ num)%Z → ∃ w, linspace start stop num = Ok w.
Proof.
  intros Hnum. unfold linspace.
  destruct (num <? 0)%Z eqn:Hneg; [lia|].
  destruct (num =? 1)%Z; by eexists.
Qed.







Example four_modes_bad_list :
  get_ir_spectra four_modes (BroadList [5 # 100000; 5 # 100000]%Q) 0 None 500
  = Raise (ValueError broad_list_message).
Proof. reflexivity. Qed.

Example four_modes_frequencies :
  frequencies <$>
    (match get_ir_spectra four_modes (BroadFloat (1 # 100)) 0 (Some 1%Q) 3 with
     | Ok sp => Some sp
     | Raise _ => None
     end)
  = Some [(0 + 0 * ((1 - 0) / 2))%Q; (0 + 1 * ((1 - 0) / 2))%Q;
          (0 + 2 * ((1 - 0) / 2))%Q].
Proof. reflexivity. Qed.

(** *** When the call returns, and what *)

Lemma py_max_Ok_iff l : (∃ m, py_max l = Ok m) ↔ l ≠ [].
Proof.
  split; [|apply py_max_nonempty]. by intros [m Hm] ->.
Qed.

Lemma linspace_Ok_iff start stop num :
  (∃ w, linspace start stop num = Ok w) ↔ (0 ≤ num)%Z.
Proof.
  split; [|apply linspace_Ok]. intros [w Hw]. unfold linspace in Hw.
  destruct (num <? 0)%Z eqn:Hneg; [done|lia].
Qed.

Lemma linspace_length start stop num w :
  linspace start stop num = Ok w → length w = Z.to_nat num.
Proof.
  unfold linspace. destruct (num <? 0)%Z; [done|].
  destruct (num =? 1)%Z eqn:Hone; intros [= <-].
  - apply Z.eqb_eq in Hone as ->. done.
  - by rewrite length_fmap, length_seqZ.
Qed.

Lemma add_mode_Ok_iff self broad w t i :
  (∃ t', add_mode self broad w t i = Ok t')
  ↔ (∃ b, broad_item broad i = Ok b)
    ∧ i < length (phfreqs_gamma self)
    ∧ i < length (oscillator_strength self).
Proof.
  unfold add_mode. rewrite <- !lookup_lt_is_Some.
  destruct (broad_item broad i) as [b|e]; cbv [mbind result_bind].
  - destruct (phfreqs_gamma self !! i) as [ph|].
    + destruct (oscillator_strength self !! i) as [os|].
      * split; [intros _|intros _; by eexists].
        split_and!; by eexists.
      * split; [by intros [? ?]|]. by intros (_ & _ & [? ?]).
    + split; [by intros [? ?]|]. by intros (_ & [? ?] & _).
  - split; [by intros [? ?]|]. by intros ([? ?] & _).
Qed.

Lemma add_mode_length self broad w t i t' :
  add_mode self broad w t i = Ok t' → length t = length w →
  length t' = length w.
Proof.
  unfold add_mode. intros Hmode Hlen.
  destruct (broad_item broad i) as [b|e]; cbv [mbind result_bind] in Hmode;
    [|done].
  destruct (phfreqs_gamma self !! i) as [ph|]; [|done].
  destruct (oscillator_strength self !! i) as [os|]; [|done].
  injection Hmode as <-. rewrite length_zip_with. lia.
Qed.

Lemma add_modes_Ok_iff self broad w modes : ∀ t,
  (∃ t', add_modes self broad w t modes = Ok t')
  ↔ ∀ i, i ∈ modes →
      (∃ b, broad_item broad i = Ok b)
      ∧ i < length (phfreqs_gamma self)
      ∧ i < length (oscillator_strength self).
Proof.
  induction modes as [|i modes IH]; intros t; cbn [add_modes].
  - split; [|by eexists]. by intros _ i ?%elem_of_nil.
  - destruct (add_mode self broad w t i) as [t1|e] eqn:Hmode;
      cbv [mbind result_bind].
    + rewrite IH. split.
      * intros Hall j [->|Hj]%elem_of_cons; [|by apply Hall].
        apply (add_mode_Ok_iff self broad w t). by eexists.
      * intros Hall j Hj. apply Hall. by right.
    + split; [by intros [? ?]|]. intros Hall.
      destruct (proj2 (add_mode_Ok_iff self broad w t i)) as [t1 Ht1];
        [apply Hall; by left|].
      by rewrite Ht1 in Hmode.
Qed.

Lemma add_modes_length self broad w modes : ∀ t t',
  add_modes self broad w t modes = Ok t' → length t = length w →
  length t' = length w.
Proof.
  induction modes as [|i modes IH]; intros t t' Hmodes Hlen;
    cbn [add_modes] in Hmodes.
  - by injection Hmodes as <-.
  - destruct (add_mode self broad w t i) as [t1|e] eqn:Hmode;
      cbv [mbind result_bind] in Hmodes; [|done].
    apply (IH t1 t' Hmodes). by eapply add_mode_length.
Qed.

(** X14. With a float as [broad] the call returns if and only if [divs] is
    not negative, there is a phonon frequency to take the maximum of when
    [emax] is left out, and there is an oscillator strength for each of
    the modes from the fourth on. *)
Theorem get_ir_spectra_float_returns self b emin emax divs :
  (∃ sp, get_ir_spectra self (BroadFloat b) emin emax divs = Ok sp)
  ↔ (0 ≤ divs)%Z
    ∧ (emax = None → 1 ≤ nphfreqs self)
    ∧ (3 < nphfreqs self →
       nphfreqs self ≤ length (oscillator_strength self)).
Proof.
  unfold get_ir_spectra.
  rewrite bool_decide_eq_false_2
    by (intros Hne; apply Hne; apply length_replicate).
  cbv [mbind result_bind].
  assert (Hrest : ∀ e : Q,
    (∃ sp,
      match linspace emin e divs with
      | Ok w =>
          match add_modes self (BroadList (replicate (nphfreqs self) b)) w
                  (replicate (Z.to_nat divs) mat3_zero)
                  (seq 3 (length (phfreqs_gamma self) - 3)) with
          | Ok t =>
              Ok {| frequencies := w;
                    ir_spectra_tensor :=
                      (λ t_k, mat3_zip cadd t_k
                                (mat3_map (λ a, (a, 0%Q)) (epsinf self)))
                        <$> t;
                    ir_spectra_generator := self |}
          | Raise err => Raise err
          end
      | Raise err => Raise err
      end = Ok sp)
    ↔ (0 ≤ divs)%Z
      ∧ (3 < nphfreqs self →
         nphfreqs self ≤ length (oscillator_strength self))).
  { intros e. unfold nphfreqs.
    destruct (linspace emin e divs) as [w|err] eqn:Hw.
    - assert (Hdivs : (0 ≤ divs)%Z)
        by (apply (linspace_Ok_iff emin e); by eexists).
      destruct (add_modes _ _ _ _ _) as [t|err] eqn:Hmodes.
      + split; [intros _|intros _; by eexists]. split; [done|].
        intros Hn.
        destruct (proj1 (add_modes_Ok_iff _ _ _ _ _) (ex_intro _ t Hmodes)
                    (length (phfreqs_gamma self) - 1)) as (_ & _ & Hos).
        { apply elem_of_seq. lia. }
        lia.
      + split; [by intros [? ?]|]. intros [_ Hn].
        destruct (proj2 (add_modes_Ok_iff self
                           (BroadList (replicate (length (phfreqs_gamma self)) b))
                           w (seq 3 (length (phfreqs_gamma self) - 3))
                           (replicate (Z.to_nat divs) mat3_zero)))
          as [t Ht]; [|unfold nphfreqs in Hmodes; by rewrite Ht in Hmodes].
        intros i [Hi1 Hi2]%elem_of_seq. split_and!; [|lia|lia].
        cbn [broad_item].
        destruct (replicate _ b !! i) as [b'|] eqn:Hb; [by eexists|].
        apply lookup_ge_None in Hb. rewrite length_replicate in Hb. lia.
    - split; [by intros [? ?]|]. intros [Hdivs _].
      destruct (linspace_Ok emin e divs Hdivs) as [w Hw'].
      by rewrite Hw' in Hw. }
  destruct emax as [e|].
  - rewrite Hrest. split; [intros [? ?]|intros (? & _ & ?)]; by split_and!.
  - unfold max_phfreq, max_broad, nphfreqs.
    destruct (phfreqs_gamma self) as [|ph phs] eqn:Hph.
    + cbn [py_max]. split; [by intros [? ?]|].
      intros (_ & Hn & _). specialize (Hn eq_refl). simpl in Hn. lia.
    + cbn [py_max length replicate].
      specialize (Hrest (foldl (λ m y, if Qle_bool y m then m else y) ph phs
                         + foldl (λ m y, if Qle_bool y m then m else y) b
                             (replicate (length phs) b) * 20)%Q).
      unfold nphfreqs in Hrest. rewrite Hph in Hrest.
      cbn [length replicate] in Hrest. rewrite Hrest.
      split; [intros [? ?]|intros (? & _ & ?)]; split_and!; try done.
      intros _. lia.
Qed.

(** X15. A spectrum that is returned has [divs] frequencies and [divs]
    tensors and keeps its generator; the frequencies start at [emin] and,
    for two samples or more and a given [emax], end at [emax]. *)
Theorem get_ir_spectra_samples self broad emin emax divs sp :
  get_ir_spectra self broad emin emax divs = Ok sp →
  (0 ≤ divs)%Z
  ∧ length (frequencies sp) = Z.to_nat divs
  ∧ length (ir_spectra_tensor sp) = Z.to_nat divs
  ∧ ir_spectra_generator sp = self
  ∧ (∀ f, head (frequencies sp) = Some f → (f == emin)%Q)
  ∧ (∀ e f, emax = Some e → (2 ≤ divs)%Z →
            last (frequencies sp) = Some f → (f == e)%Q).
Proof.
  unfold get_ir_spectra. intros Hsp.
  cbv [mbind result_bind] in Hsp.
  match type of Hsp with
  | match ?c with _ => _ end = _ => destruct c as [[]|?]; [|done]
  end.
  match type of Hsp with
  | match ?c with _ => _ end = _ => destruct c as [e'|?] eqn:Hemax; [|done]
  end.
  destruct (linspace emin e' divs) as [w|] eqn:Hw; [|done].
  destruct (add_modes _ _ _ _ _) as [t|] eqn:Hmodes; [|done].
  injection Hsp as <-. cbn [frequencies ir_spectra_tensor ir_spectra_generator].
  assert (Hdivs : (0 ≤ divs)%Z) by (apply (linspace_Ok_iff emin e'); by eexists).
  pose proof (linspace_length _ _ _ _ Hw) as Hlen.
  split_and!; [done|done| |done| |].
  - rewrite length_fmap.
    rewrite (add_modes_length _ _ _ _ _ _ Hmodes); [done|].
    by rewrite length_replicate.
  - intros f Hf. unfold linspace in Hw.
    destruct (divs <? 0)%Z; [done|].
    destruct (divs =? 1)%Z; injection Hw as <-.
    + by injection Hf as <-.
    + destruct (Z.to_nat divs) as [|n] eqn:Hn.
      * replace divs with 0%Z in Hf by lia. done.
      * rewrite head_lookup, list_lookup_fmap in Hf.
        destruct (seqZ 0 divs !! 0) as [z|] eqn:Hz; [|done].
        apply lookup_seqZ in Hz as [-> _]. injection Hf as <-.
        change (inject_Z (0 + Z.of_nat 0)) with 0%Q. rewrite Qmult_0_l. lra.
  - intros e f -> Hge Hf. injection Hemax as <-.
    unfold linspace in Hw.
    destruct (divs <? 0)%Z; [done|].
    destruct (divs =? 1)%Z eqn:Hone; [lia|]. injection Hw as <-.
    rewrite last_lookup, length_fmap, length_seqZ, list_lookup_fmap in Hf.
    destruct (seqZ 0 divs !! _) as [z|] eqn:Hz; [|done].
    apply lookup_seqZ in Hz as [-> _]. injection Hf as <-.
    replace (0 + Z.of_nat (Init.Nat.pred (Z.to_nat divs)))%Z
      with (divs - 1)%Z by lia.
    assert (Hpos : (0 < inject_Z (divs - 1))%Q).
    { change 0%Q with (inject_Z 0). rewrite <- Zlt_Qlt. lia. }
    field. lra.
Qed.

Lemma get_ir_spectra_samples_witness :
  ∃ sp, get_ir_spectra four_modes (BroadFloat (1 # 100)) 0 (Some 1%Q) 3
        = Ok sp
    ∧ (0 ≤ 3)%Z
    ∧ length (frequencies sp) = Z.to_nat 3
    ∧ length (ir_spectra_tensor sp) = Z.to_nat 3
    ∧ ir_spectra_generator sp = four_modes
    ∧ (∀ f, head (frequencies sp) = Some f → (f == 0)%Q)
    ∧ (∀ e f, Some 1%Q = Some e → (2 ≤ 3)%Z →
              last (frequencies sp) = Some f → (f == e)%Q).
Proof.
  eexists. split; [reflexivity|].
  apply (get_ir_spectra_samples four_modes (BroadFloat (1 # 100)) 0
           (Some 1%Q) 3).
  reflexivity.
Defined.

(** The frequencies and the tensor of a result. *)
Definition spectrum_data (r : result IRSpectra)
  : result (list Q * list (mat3 complex)) :=
  sp ← r; Ok (frequencies sp, ir_spectra_tensor sp).

(** Four modes with other acoustic modes than [four_modes]. *)
Definition four_modes_shifted : IRDielectricTensorGenerator :=
  let o := ((1, 0, 0), (0, 1, 0), (0, 0, 1))%Q in
  let o' := ((2, 0, 0), (0, 2, 0), (0, 0, 2))%Q in
  {| oscillator_strength := [o'; o'; o'; o];
     phfreqs_gamma := [1 # 100; 1 # 100; 1 # 100; 1 # 10]%Q;
     epsinf := o |}.

Lemma add_modes_ext self self' broad w modes : ∀ t,
  (∀ i, i ∈ modes →
     phfreqs_gamma self !! i = phfreqs_gamma self' !! i
     ∧ oscillator_strength self !! i = oscillator_strength self' !! i) →
  add_modes self broad w t modes = add_modes self' broad w t modes.
Proof.
  induction modes as [|i modes IH]; intros t Hall; [done|].
  cbn [add_modes].
  assert (Hmode : add_mode self broad w t i = add_mode self' broad w t i).
  { unfold add_mode. destruct (Hall i) as [-> ->]; [by left|done]. }
  rewrite Hmode. destruct (add_mode self' broad w t i); [|done].
  cbv [mbind result_bind]. apply IH. intros j Hj. apply Hall. by right.
Qed.

Lemma lookup_from_drop {A} (l l' : list A) n i :
  drop n l = drop n l' → n ≤ i → l !! i = l' !! i.
Proof.
  intros Hdrop Hi. replace i with (n + (i - n)) by lia.
  by rewrite <- !lookup_drop, Hdrop.
Qed.

(** X16. The first three modes are left out of the sum: two generators
    that differ in the oscillator strengths of their first three modes
    only, and in the frequencies of these when [emax] is given or the
    largest frequency is the same, give the same frequencies and the same
    tensor. *)
Theorem acoustic_modes_ignored self self' broad emin emax divs :
  length (phfreqs_gamma self) = length (phfreqs_gamma self') →
  drop 3 (phfreqs_gamma self) = drop 3 (phfreqs_gamma self') →
  drop 3 (oscillator_strength self) = drop 3 (oscillator_strength self') →
  epsinf self = epsinf self' →
  (emax = None → max_phfreq self = max_phfreq self') →
  spectrum_data (get_ir_spectra self broad emin emax divs)
  = spectrum_data (get_ir_spectra self' broad emin emax divs).
Proof.
  intros Hlen Hph Hos Heps Hmax.
  unfold spectrum_data, get_ir_spectra, nphfreqs.
  rewrite <- Hlen, <- Heps.
  set (broad' := match broad with
                 | BroadFloat b =>
                     BroadList (replicate (length (phfreqs_gamma self)) b)
                 | _ => broad
                 end).
  cbv [mbind result_bind].
  match goal with
  | |- match match ?c with _ => _ end with _ => _ end = _ =>
      destruct c as [[]|?]; [|done]
  end.
  assert (Hemax :
    match emax with
    | Some emax0 => Ok emax0
    | None =>
        match max_phfreq self with
        | Ok a =>
            match max_broad broad' with
            | Ok a0 => Ok (a + a0 * 20)%Q
            | Raise e => Raise e
            end
        | Raise e => Raise e
        end
    end
    = match emax with
      | Some emax0 => Ok emax0
      | None =>
          match max_phfreq self' with
          | Ok a =>
              match max_broad broad' with
              | Ok a0 => Ok (a + a0 * 20)%Q
              | Raise e => Raise e
              end
          | Raise e => Raise e
          end
      end).
  { destruct emax; [done|]. by rewrite Hmax. }
  rewrite <- Hemax. clear Hemax.
  match goal with
  | |- match match ?c with _ => _ end with _ => _ end = _ =>
      destruct c as [e|?]; [|done]
  end.
  destruct (linspace emin e divs) as [w|]; [|done].
  assert (Hmodes : ∀ t,
    add_modes self broad' w t (seq 3 (length (phfreqs_gamma self) - 3))
    = add_modes self' broad' w t (seq 3 (length (phfreqs_gamma self) - 3))).
  { intros t. apply add_modes_ext. intros i [Hi _]%elem_of_seq.
    split; by eapply lookup_from_drop. }
  rewrite Hmodes. by destruct (add_modes self' _ _ _ _).
Qed.

Lemma acoustic_modes_ignored_witness :
  spectrum_data
    (get_ir_spectra four_modes (BroadFloat (1 # 100)) 0 None 3)
  = spectrum_data
      (get_ir_spectra four_modes_shifted (BroadFloat (1 # 100)) 0 None 3).
Proof.
  apply (acoustic_modes_ignored four_modes four_modes_shifted
           (BroadFloat (1 # 100)) 0 None 3); try reflexivity.
Defined.

End IRSpectraGen.

(** ** pymatgen/analysis/fragmenter.py *)

Module Fragmentation.

(** Python dicts with string keys, in insertion order. *)
Section PyDict.
Context {V : Type}.

Fixpoint dict_lookup (k : string) (d : list (string * V)) : option V :=
  match d with
  | [] => None
  | (k', v) :: d' => if String.eqb k' k then Some v else dict_lookup k d'
  end.

(** [d[k] = v] *)
Fixpoint dict_set (k : string) (v : V) (d : list (string * V))
  : list (string * V) :=
  match d with
  | [] => [(k, v)]
  | (k', v') :: d' =>
      if String.eqb k' k then (k', v) :: d' else (k', v') :: dict_set k v d'
  end.

End PyDict.

Section Fragmenter.
(** Molecule graphs and what [pymatgen.analysis.graphs] and OpenBabel do
    with them are taken as they are. *)
Context {MoleculeGraph : Type}.

(** [str(g.molecule.composition.alphabetical_formula)] *)
Variable alphabetical_formula : MoleculeGraph → string.
(** [g.graph.edges()] *)
Variable edges : MoleculeGraph → list (nat * nat).
(** [isomorphic(g1.graph, g2.graph, use_igraph)] *)
Variable isomorphic : MoleculeGraph → MoleculeGraph → bool → bool.
(** [g.build_unique_fragments(use_igraph)] *)
Variable build_unique_fragments : MoleculeGraph → bool → list MoleculeGraph.
(** [g.split_molecule_subgraphs(bond, allow_reverse=True)]; [None] stands
    for [MolGraphSplitError]. *)
Variable split_molecule_subgraphs :
  MoleculeGraph → list (nat * nat) → option (list MoleculeGraph).
(** [g.find_rings()] *)
Variable find_rings : MoleculeGraph → list (list (nat * nat)).
(** [open_ring(mol_graph, bond, opt_steps)], through OpenBabel *)
Variable open_ring : MoleculeGraph → list (nat * nat) → nat → MoleculeGraph.

Abbreviation frag_dict := (list (string * list MoleculeGraph)).

(** [str(alphabetical_formula) + " E" + str(len(graph.edges()))] *)
Definition frag_key (g : MoleculeGraph) : string :=
  alphabetical_formula g +:+ " E" +:+ pretty (length (edges g)).

(** [if key not in d: d[key] = [fragment] else: d[key].append(fragment)] *)
Definition dict_add_fragment (key : string) (fragment : MoleculeGraph)
    (d : frag_dict) : frag_dict :=
  match dict_lookup key d with
  | None => dict_set key [fragment] d
  | Some l => dict_set key (l ++ [fragment]) d
  end.

(** [sum(len(d[key]) for key in d)] *)
Definition count_fragments (d : frag_dict) : nat :=
  foldl (λ n kv, n + length kv.2) 0 d.

Record Fragmenter := {
  assume_previous_thoroughness : bool;
  open_rings : bool;
  opt_steps : nat;
  use_igraph : bool;
  mol_graph : MoleculeGraph;
  prev_unique_frag_dict : frag_dict;
  new_unique_frag_dict : frag_dict;
  unique_fragments : list MoleculeGraph;
  level_unique_frag_dict : frag_dict;
  fragments_by_level : list (string * frag_dict);
  new_unique_fragments : nat;
  unique_frag_dict : frag_dict;
  total_unique_fragments : nat
}.

(** The settings of a fragmenter that the helpers read. *)
Record settings := {
  s_assume_previous_thoroughness : bool;
  s_open_rings : bool;
  s_opt_steps : nat;
  s_use_igraph : bool;
  s_prev_unique_frag_dict : frag_dict
}.

Definition dict_nonempty {V} (d : list (string * V)) : bool :=
  match d with
  | [] => false
  | _ :: _ => true
  end.

(** Lines 213-236 (and again 240-263): one fragment is checked against the
    previous fragments and against those of this run, and stored when it is
    new.  The state is [self.level_unique_frag_dict] and [new_frag_dict]. *)
Definition consider_fragment (cfg : settings)
    (st : frag_dict * frag_dict) (fragment : MoleculeGraph)
  : frag_dict * frag_dict :=
  let '(level, new_frag_dict) := st in
  let new_frag_key := frag_key fragment in
  let proceed :=
    if s_assume_previous_thoroughness cfg
       && dict_nonempty (s_prev_unique_frag_dict cfg)
    then
      match dict_lookup new_frag_key (s_prev_unique_frag_dict cfg) with
      | Some l =>
          negb (existsb (λ unique_fragment,
                           isomorphic unique_fragment fragment
                                      (s_use_igraph cfg)) l)
      | None => true
      end
    else true in
  if proceed then
    match dict_lookup new_frag_key level with
    | None =>
        (dict_set new_frag_key [fragment] level,
         dict_set new_frag_key [fragment] new_frag_dict)
    | Some l =>
        let found :=
          existsb (λ unique_fragment,
                     isomorphic unique_fragment fragment (s_use_igraph cfg)) l in
        if found then st
        else (dict_set new_frag_key (l ++ [fragment]) level,
              dict_add_fragment new_frag_key fragment new_frag_dict)
    end
  else st.

(** Lines 208-263: one edge of one old fragment. *)
Definition break_edge (cfg : settings) (old_frag : MoleculeGraph)
    (st : frag_dict * frag_dict) (edge : nat * nat) : frag_dict * frag_dict :=
  let bond := [(edge.1, edge.2)] in
  match split_molecule_subgraphs old_frag bond with
  | Some fragments => foldl (consider_fragment cfg) st fragments
  | None =>
      if s_open_rings cfg then
        consider_fragment cfg st (open_ring old_frag bond (s_opt_steps cfg))
      else st
  end.

(** [Fragmenter._fragment_one_level]: returns [new_frag_dict] together with
    [self.level_unique_frag_dict] as the call leaves it. *)
Definition _fragment_one_level (cfg : settings) (level : frag_dict)
    (old_frag_dict : frag_dict) : frag_dict * frag_dict :=
  let st :=
    foldl (λ st kv,
             foldl (λ st old_frag,
                      foldl (break_edge cfg old_frag) st (edges old_frag))
                   st kv.2)
          (level, []) old_frag_dict in
  (st.2, st.1).

(** The body of [for fragment in self.unique_fragments] in
    [_open_all_rings]: the bonds of the first ring are opened one by one. *)
Definition open_rings_of (cfg : settings) (fragment : MoleculeGraph)
    (unique_fragments : list MoleculeGraph) : list MoleculeGraph :=
  match find_rings fragment with
  | [] => unique_fragments
  | ring :: _ =>
      foldl (λ unique_fragments bond,
               let new_fragment :=
                 open_ring fragment [bond] (s_opt_steps cfg) in
               let found :=
                 existsb (λ unique_fragment,
                            isomorphic unique_fragment new_fragment
                                       (s_use_igraph cfg))
                         unique_fragments in
               if found then unique_fragments
               else unique_fragments ++ [new_fragment])
            unique_fragments ring
  end.

(** The [for] loop of [_open_all_rings] runs over a list that grows while
    it is traversed; [i] is the position of the traversal. *)
Fixpoint open_rings_loop (fuel : nat) (cfg : settings) (i : nat)
    (unique_fragments : list MoleculeGraph) : option (list MoleculeGraph) :=
  match unique_fragments !! i with
  | None => Some unique_fragments
  | Some fragment =>
      match fuel with
      | 0 => None
      | S fuel' =>
          open_rings_loop fuel' cfg (S i)
                          (open_rings_of cfg fragment unique_fragments)
      end
  end.

(** [Fragmenter._open_all_rings] *)
Definition _open_all_rings (fuel : nat) (cfg : settings)
    (mol_graph : MoleculeGraph) (unique_fragments : list MoleculeGraph)
  : option (list MoleculeGraph) :=
  tail <$> open_rings_loop fuel cfg 0 (mol_graph :: unique_fragments).

(** Lines 82-98: the fragments of the non-iterative scheme that no previous
    fragment with the same key is isomorphic to. *)
Definition new_fragments_depth0 (cfg : settings)
    (unique_fragments : list MoleculeGraph) : frag_dict :=
  foldl (λ new_unique_frag_dict fragment,
           let frag_key := frag_key fragment in
           let add_frag :=
             match dict_lookup frag_key (s_prev_unique_frag_dict cfg) with
             | None => true
             | Some l =>
                 negb (existsb (λ prev_frag,
                                  isomorphic fragment prev_frag
                                             (s_use_igraph cfg)) l)
             end in
           if add_frag
           then dict_add_fragment frag_key fragment new_unique_frag_dict
           else new_unique_frag_dict)
        [] unique_fragments.

(** Lines 105-121: the levels of the iterative scheme, with the early exit
    when the level before produced nothing. *)
Fixpoint fragment_levels (cfg : settings) (mol_graph : MoleculeGraph)
    (levels : list nat) (level_dict : frag_dict)
    (by_level : list (string * frag_dict))
  : frag_dict * list (string * frag_dict) :=
  match levels with
  | [] => (level_dict, by_level)
  | level :: levels =>
      match level with
      | 0 =>
          let '(new_frag_dict, level_dict) :=
            _fragment_one_level cfg level_dict
              [(frag_key mol_graph, [mol_graph])] in
          fragment_levels cfg mol_graph levels level_dict
                          (dict_set "0" new_frag_dict by_level)
      | S before =>
          match dict_lookup (pretty before) by_level with
          | None => (level_dict, by_level)
          | Some old_frag_dict =>
              let num_frags_prev_level := count_fragments old_frag_dict in
              if num_frags_prev_level =? 0 then (level_dict, by_level)
              else
                let '(new_frag_dict, level_dict) :=
                  _fragment_one_level cfg level_dict old_frag_dict in
                fragment_levels cfg mol_graph levels level_dict
                                (dict_set (pretty level) new_frag_dict by_level)
          end
      end
  end.

(** Lines 122-138: what of this run is not among the previous fragments. *)
Definition new_fragments_iterative (cfg : settings) (level_dict : frag_dict)
  : frag_dict :=
  if negb (dict_nonempty (s_prev_unique_frag_dict cfg)) then level_dict
  else
    foldl (λ new_unique_frag_dict kv,
             let frag_key := kv.1 in
             match dict_lookup frag_key (s_prev_unique_frag_dict cfg) with
             | None => dict_set frag_key kv.2 new_unique_frag_dict
             | Some l =>
                 foldl (λ new_unique_frag_dict fragment,
                          let found :=
                            existsb (λ prev_frag,
                                       isomorphic fragment prev_frag
                                                  (s_use_igraph cfg)) l in
                          if found then new_unique_frag_dict
                          else dict_add_fragment frag_key fragment
                                                 new_unique_frag_dict)
                       new_unique_frag_dict kv.2
             end)
          [] level_dict.

(** Lines 144-158: previous and new fragments together. *)
Definition merge_fragments (prev new_unique_frag_dict : frag_dict) : frag_dict :=
  if negb (dict_nonempty prev) then new_unique_frag_dict
  else
    foldl (λ unique_frag_dict kv,
             match dict_lookup kv.1 unique_frag_dict with
             | Some l => dict_set kv.1 (l ++ kv.2) unique_frag_dict
             | None => dict_set kv.1 kv.2 unique_frag_dict
             end)
          prev new_unique_frag_dict.

(** [Fragmenter.__init__], from the molecule graph [self.mol_graph] as the
    first lines of the constructor build it.  [None] when the traversal of
    [_open_all_rings] does not end within [fuel] steps. *)
Definition Fragmenter_init (fuel : nat) (mol_graph : MoleculeGraph)
    (depth : Z) (open_rings : bool) (opt_steps : nat) (use_igraph : bool)
    (prev_unique_frag_dict : option frag_dict) : option Fragmenter :=
  let prev := default [] prev_unique_frag_dict in
  let cfg :=
    {| s_assume_previous_thoroughness := true; s_open_rings := open_rings;
       s_opt_steps := opt_steps; s_use_igraph := use_igraph;
       s_prev_unique_frag_dict := prev |} in
  '(unique_fragments, level_dict, by_level, new_dict) ←
    (if (depth =? 0)%Z then
       let unique_fragments := build_unique_fragments mol_graph use_igraph in
       unique_fragments ←
         (if open_rings
          then _open_all_rings fuel cfg mol_graph unique_fragments
          else Some unique_fragments);
       Some (unique_fragments, [], [],
             new_fragments_depth0 cfg unique_fragments)
     else
       let '(level_dict, by_level) :=
         fragment_levels cfg mol_graph (seq 0 (Z.to_nat depth)) [] [] in
       Some ([], level_dict, by_level,
             new_fragments_iterative cfg level_dict));
  let unique_frag_dict := merge_fragments prev new_dict in
  Some {| assume_previous_thoroughness := true;
          open_rings := open_rings; opt_steps := opt_steps;
          use_igraph := use_igraph; mol_graph := mol_graph;
          prev_unique_frag_dict := prev;
          new_unique_frag_dict := new_dict;
          unique_fragments := unique_fragments;
          level_unique_frag_dict := level_dict;
          fragments_by_level := by_level;
          new_unique_fragments := count_fragments new_dict;
          unique_frag_dict := unique_frag_dict;
          total_unique_fragments := count_fragments unique_frag_dict |}.

(** *** New fragments are not previous fragments *)

Lemma dict_lookup_set {V} (k k' : string) (v : V) d :
  dict_lookup k' (dict_set k v d)
  = if String.eqb k k' then Some v else dict_lookup k' d.
Proof.
  induction d as [|[k0 v0] d IH]; [done|]. simpl.
  destruct (String.eqb k0 k) eqn:Hk0; simpl.
  - apply String.eqb_eq in Hk0 as ->. by destruct (String.eqb k k').
  - rewrite IH. destruct (String.eqb k0 k') eqn:Hk0'; [|done].
    destruct (String.eqb k k') eqn:Hkk; [|done].
    apply String.eqb_eq in Hk0', Hkk. subst.
    by rewrite String.eqb_refl in Hk0.
Qed.

Lemma existsb_false {A} (g : A → bool) (l : list A) (x : A) :
  existsb g l = false → x ∈ l → g x = false.
Proof.
  induction l as [|y l IH]; simpl; intros Hex Hin.
  - by apply elem_of_nil in Hin.
  - apply orb_false_iff in Hex as [Hy Hl].
    apply elem_of_cons in Hin as [->|Hin]; [done|by apply IH].
Qed.

(** No previous fragment stored under [key] is isomorphic to [fragment]. *)
Definition not_previous (cfg : settings) (key : string)
    (fragment : MoleculeGraph) : Prop :=
  ∀ prevs, dict_lookup key (s_prev_unique_frag_dict cfg) = Some prevs →
    ∀ prev_frag, prev_frag ∈ prevs →
      isomorphic fragment prev_frag (s_use_igraph cfg) = false.

Definition all_new (cfg : settings) (d : frag_dict) : Prop :=
  ∀ key l, dict_lookup key d = Some l →
    ∀ fragment, fragment ∈ l → not_previous cfg key fragment.

Lemma all_new_nil cfg : all_new cfg [].
Proof. by intros key l. Qed.

Lemma all_new_set cfg key l d :
  all_new cfg d →
  (∀ fragment, fragment ∈ l → not_previous cfg key fragment) →
  all_new cfg (dict_set key l d).
Proof.
  intros Hd Hl key' l'. rewrite dict_lookup_set.
  destruct (String.eqb key key') eqn:Hkey.
  - apply String.eqb_eq in Hkey as <-. intros [= <-]. apply Hl.
  - apply Hd.
Qed.

Lemma all_new_add cfg key fragment d :
  all_new cfg d → not_previous cfg key fragment →
  all_new cfg (dict_add_fragment key fragment d).
Proof.
  intros Hd Hf. unfold dict_add_fragment.
  destruct (dict_lookup key d) as [l|] eqn:Hl; apply all_new_set; try done.
  - intros f [Hin| ->%list_elem_of_singleton]%elem_of_app; [|done].
    by apply (Hd key l).
  - by intros f ->%list_elem_of_singleton.
Qed.

Lemma new_fragments_depth0_all_new cfg unique_fragments :
  all_new cfg (new_fragments_depth0 cfg unique_fragments).
Proof.
  unfold new_fragments_depth0.
  induction unique_fragments as [|fragment l IH] using rev_ind;
    [apply all_new_nil|].
  rewrite foldl_snoc. cbv zeta.
  destruct (dict_lookup (frag_key fragment) (s_prev_unique_frag_dict cfg))
    as [prevs|] eqn:Hprev.
  - destruct (existsb _ prevs) eqn:Hfound; simpl; [done|].
    apply all_new_add; [done|].
    intros prevs' Hprevs' prev_frag Hin.
    rewrite Hprev in Hprevs'. injection Hprevs' as <-.
    by apply (existsb_false _ _ _ Hfound).
  - apply all_new_add; [done|].
    intros prevs' Hprevs'. by rewrite Hprev in Hprevs'.
Qed.

Lemma new_fragments_iterative_all_new cfg level_dict :
  all_new cfg (new_fragments_iterative cfg level_dict).
Proof.
  unfold new_fragments_iterative.
  destruct (dict_nonempty (s_prev_unique_frag_dict cfg)) eqn:Hprev; simpl.
  2: { destruct (s_prev_unique_frag_dict cfg) eqn:Hd; [|done].
       intros key l _ fragment _ prevs Hprevs. by rewrite Hd in Hprevs. }
  induction level_dict as [|[key frags] d IH] using rev_ind;
    [apply all_new_nil|].
  rewrite foldl_snoc. cbv zeta. cbn [fst snd].
  destruct (dict_lookup key (s_prev_unique_frag_dict cfg))
    as [prevs|] eqn:Hkey.
  - revert IH.
    match goal with
    | |- all_new _ (foldl ?f [] d) → _ => generalize (foldl f [] d) as acc
    end.
    induction frags as [|fragment frags IHf] using rev_ind; intros acc Hacc;
      [done|].
    rewrite foldl_snoc.
    destruct (existsb _ prevs) eqn:Hfound; [by apply IHf|].
    apply all_new_add; [by apply IHf|].
    intros prevs' Hprevs' prev_frag Hin.
    rewrite Hkey in Hprevs'. injection Hprevs' as <-.
    by apply (existsb_false _ _ _ Hfound).
  - apply all_new_set; [done|].
    intros fragment _ prevs' Hprevs'. by rewrite Hkey in Hprevs'.
Qed.

(** Outside the traversal of [_open_all_rings] the constructor always
    returns. *)
Lemma Fragmenter_init_returns fuel mol_graph depth open_rings opt_steps
    use_igraph prev :
  depth ≠ 0%Z ∨ open_rings = false →
  is_Some (Fragmenter_init fuel mol_graph depth open_rings opt_steps
                           use_igraph prev).
Proof.
  intros Hcase. unfold Fragmenter_init.
  destruct (depth =? 0)%Z eqn:Hdepth.
  - destruct Hcase as [Hne| ->]; [lia|]. by eexists.
  - destruct (fragment_levels _ _ _ _ _). by eexists.
Qed.

(** C10. In the non-iterative scheme ([depth = 0]) and in the iterative
    one, every fragment stored in [new_unique_frag_dict] under a key is
    non-isomorphic to every fragment stored in [prev_unique_frag_dict] under
    the same key; this holds for every previous dict, a non-empty one in
    particular. *)
Theorem new_fragments_not_previous fuel mol_graph depth open_rings opt_steps
    use_igraph prev self key news prevs fragment prev_frag :
  Fragmenter_init fuel mol_graph depth open_rings opt_steps use_igraph prev
    = Some self →
  dict_lookup key (new_unique_frag_dict self) = Some news →
  dict_lookup key (prev_unique_frag_dict self) = Some prevs →
  fragment ∈ news → prev_frag ∈ prevs →
  isomorphic fragment prev_frag use_igraph = false.
Proof.
  intros Hinit Hnews Hprevs Hf Hp.
  set (cfg := {| s_assume_previous_thoroughness := true;
                 s_open_rings := open_rings; s_opt_steps := opt_steps;
                 s_use_igraph := use_igraph;
                 s_prev_unique_frag_dict := default [] prev |}).
  assert (all_new cfg (new_unique_frag_dict self)
          ∧ prev_unique_frag_dict self = default [] prev)
    as [Hall Hprev].
  { unfold Fragmenter_init in Hinit. fold cfg in Hinit.
    destruct (depth =? 0)%Z.
    - destruct (if open_rings then _ else _) as [ufs|]; [|done].
      simpl in Hinit. injection Hinit as <-. simpl.
      split; [apply new_fragments_depth0_all_new|done].
    - destruct (fragment_levels _ _ _ _ _) as [level_dict by_level].
      simpl in Hinit. injection Hinit as <-. simpl.
      split; [apply new_fragments_iterative_all_new|done]. }
  rewrite Hprev in Hprevs.
  by apply (Hall key news Hnews fragment Hf prevs Hprevs prev_frag Hp).
Qed.

(** *** Counting the fragments *)

Lemma count_fragments_from (d : frag_dict) : ∀ n,
  foldl (λ n kv, n + length kv.2) n d = n + count_fragments d.
Proof.
  unfold count_fragments.
  induction d as [|kv d IH]; intros n; cbn [foldl]; [lia|].
  rewrite IH, (IH (0 + length kv.2)). lia.
Qed.

Lemma count_fragments_cons (kv : string * list MoleculeGraph) (d : frag_dict) :
  count_fragments (kv :: d) = length kv.2 + count_fragments d.
Proof.
  unfold count_fragments at 1. cbn [foldl]. rewrite count_fragments_from. lia.
Qed.

Lemma count_fragments_set key (l : list MoleculeGraph) (d : frag_dict) :
  count_fragments (dict_set key l d)
  + length (default [] (dict_lookup key d))
  = count_fragments d + length l.
Proof.
  induction d as [|[k v] d IH]; cbn [dict_set dict_lookup].
  - rewrite count_fragments_cons. cbn. lia.
  - destruct (String.eqb k key); rewrite !count_fragments_cons; cbn [snd].
    + cbn [default]. unfold id. lia.
    + lia.
Qed.

Lemma merge_fragments_count (new_dict : frag_dict) : ∀ prev : frag_dict,
  count_fragments
    (foldl (λ unique_frag_dict kv,
              match dict_lookup kv.1 unique_frag_dict with
              | Some l => dict_set kv.1 (l ++ kv.2) unique_frag_dict
              | None => dict_set kv.1 kv.2 unique_frag_dict
              end)
           prev new_dict)
  = count_fragments prev + count_fragments new_dict.
Proof.
  induction new_dict as [|kv new_dict IH]; intros prev; cbn [foldl].
  - unfold count_fragments at 3. cbn. lia.
  - rewrite IH, count_fragments_cons.
    destruct (dict_lookup kv.1 prev) as [l|] eqn:Hl.
    + pose proof (count_fragments_set kv.1 (l ++ kv.2) prev) as Hset.
      rewrite Hl, length_app in Hset. cbn [default] in Hset.
      unfold id in Hset. lia.
    + pose proof (count_fragments_set kv.1 kv.2 prev) as Hset.
      rewrite Hl in Hset. cbn [default length] in Hset. lia.
Qed.

(** What the constructor leaves in the fields. *)
Lemma Fragmenter_init_fields fuel g depth open_rings opt_steps use_igraph
    prev self :
  Fragmenter_init fuel g depth open_rings opt_steps use_igraph prev
    = Some self →
  let cfg := {| s_assume_previous_thoroughness := true;
                s_open_rings := open_rings; s_opt_steps := opt_steps;
                s_use_igraph := use_igraph;
                s_prev_unique_frag_dict := default [] prev |} in
  prev_unique_frag_dict self = default [] prev
  ∧ unique_frag_dict self
    = merge_fragments (default [] prev) (new_unique_frag_dict self)
  ∧ total_unique_fragments self = count_fragments (unique_frag_dict self)
  ∧ new_unique_fragments self = count_fragments (new_unique_frag_dict self)
  ∧ ((depth = 0%Z
      ∧ (if open_rings
         then _open_all_rings fuel cfg g (build_unique_fragments g use_igraph)
         else Some (build_unique_fragments g use_igraph))
        = Some (unique_fragments self)
      ∧ new_unique_frag_dict self
        = new_fragments_depth0 cfg (unique_fragments self))
     ∨ (depth ≠ 0%Z
        ∧ fragment_levels cfg g (seq 0 (Z.to_nat depth)) [] []
          = (level_unique_frag_dict self, fragments_by_level self)
        ∧ new_unique_frag_dict self
          = new_fragments_iterative cfg (level_unique_frag_dict self))).
Proof.
  intros Hinit cfg. unfold Fragmenter_init in Hinit. fold cfg in Hinit.
  destruct (depth =? 0)%Z eqn:Hdepth.
  - destruct (if open_rings then _ else _) as [ufs|] eqn:Hufs; [|done].
    simpl in Hinit. injection Hinit as <-. simpl.
    split_and!; [done..|]. left. split_and!; [lia|done..].
  - destruct (fragment_levels _ _ _ _ _) as [level_dict by_level] eqn:Hlev.
    simpl in Hinit. injection Hinit as <-. simpl.
    split_and!; [done..|]. right. split_and!; [lia|done..].
Qed.

(** X17. The total the constructor reports is the number of previous
    fragments plus the number of new ones. *)
Theorem total_is_previous_plus_new fuel g depth open_rings opt_steps
    use_igraph prev self :
  Fragmenter_init fuel g depth open_rings opt_steps use_igraph prev
    = Some self →
  total_unique_fragments self
  = count_fragments (prev_unique_frag_dict self) + new_unique_fragments self.
Proof.
  intros Hinit.
  destruct (Fragmenter_init_fields _ _ _ _ _ _ _ _ Hinit)
    as (-> & Hmerge & -> & -> & _).
  rewrite Hmerge. unfold merge_fragments.
  destruct (default [] prev) as [|kv d]; cbn [dict_nonempty negb].
  - unfold count_fragments at 2. cbn. lia.
  - apply merge_fragments_count.
Qed.

(** *** What the dicts of a run hold *)

Lemma foldl_inv {A B} (P : A → Prop) (f : A → B → A) (l : list B) : ∀ a,
  (∀ a x, P a → x ∈ l → P (f a x)) → P a → P (foldl f a l).
Proof.
  induction l as [|x l IH]; intros a Hstep Ha; [done|]. cbn [foldl].
  apply IH.
  - intros a' y Ha' Hy. apply Hstep; [done|by right].
  - apply Hstep; [done|by left].
Qed.

Lemma dict_set_Forall {V} (P : string * V → Prop) key v d :
  Forall P d → P (key, v) → Forall P (dict_set key v d).
Proof.
  intros Hd Hv. induction Hd as [|[k0 v0] d H0 Hd IH]; cbn [dict_set].
  - by apply Forall_singleton.
  - destruct (String.eqb k0 key) eqn:Hk.
    + apply String.eqb_eq in Hk as ->. by apply Forall_cons.
    + by apply Forall_cons.
Qed.

Lemma dict_lookup_elem {V} key (d : list (string * V)) v :
  dict_lookup key d = Some v → (key, v) ∈ d.
Proof.
  induction d as [|[k0 v0] d IH]; [done|]. cbn [dict_lookup].
  destruct (String.eqb k0 key) eqn:Hk.
  - apply String.eqb_eq in Hk as ->. intros [= ->]. by left.
  - intros Hl. right. by apply IH.
Qed.

(** One list of fragments under [key]: each has the key [key] and none is
    isomorphic to one that comes before it. *)
Definition unique_under (use_igraph : bool)
    (kv : string * list MoleculeGraph) : Prop :=
  (∀ f, f ∈ kv.2 → frag_key f = kv.1)
  ∧ ∀ i j f1 f2, kv.2 !! i = Some f1 → kv.2 !! j = Some f2 → i < j →
      isomorphic f1 f2 use_igraph = false.

Definition keyed (kv : string * list MoleculeGraph) : Prop :=
  ∀ f, f ∈ kv.2 → frag_key f = kv.1.

Lemma unique_under_singleton use_igraph f :
  unique_under use_igraph (frag_key f, [f]).
Proof.
  split; cbn [fst snd].
  - by intros f' ->%list_elem_of_singleton.
  - intros i j f1 f2 Hi Hj Hlt. apply lookup_lt_Some in Hj. simpl in Hj. lia.
Qed.

Lemma unique_under_snoc use_igraph l f :
  unique_under use_igraph (frag_key f, l) →
  existsb (λ unique_fragment, isomorphic unique_fragment f use_igraph) l
  = false →
  unique_under use_igraph (frag_key f, l ++ [f]).
Proof.
  intros [Hkey Hiso] Hfound. split; cbn [fst snd] in *.
  - intros f' [?| ->%list_elem_of_singleton]%elem_of_app; [by apply Hkey|done].
  - intros i j f1 f2 Hi Hj Hlt.
    destruct (decide (j < length l)) as [Hjl|Hjl].
    + rewrite lookup_app_l in Hi by lia. rewrite lookup_app_l in Hj by lia.
      by eapply Hiso.
    + assert (HjL : j < length (l ++ [f])) by (by eapply lookup_lt_Some).
      rewrite length_app in HjL. simpl in HjL.
      rewrite lookup_app_r in Hj by lia.
      replace (j - length l) with 0 in Hj by lia. injection Hj as <-.
      rewrite lookup_app_l in Hi by lia.
      apply (existsb_false _ _ _ Hfound). by eapply list_elem_of_lookup_2.
Qed.

Lemma dict_lookup_None_keys {V} key (d : list (string * V)) :
  dict_lookup key d = None ↔ key ∉ d.*1.
Proof.
  induction d as [|[k0 v0] d IH]; cbn [dict_lookup].
  - split; [|done]. by intros _ ?%elem_of_nil.
  - rewrite fmap_cons, not_elem_of_cons. cbn [fst].
    destruct (String.eqb k0 key) eqn:Hk.
    + apply String.eqb_eq in Hk as ->. split; [done|]. by intros [? _].
    + apply String.eqb_neq in Hk. rewrite IH. split; [|by intros [_ ?]].
      intros ?. split; [|done]. by intros ->.
Qed.

Lemma dict_set_NoDup {V} key (v : V) d :
  NoDup d.*1 → NoDup (dict_set key v d).*1.
Proof.
  induction d as [|[k0 v0] d IH]; cbn [dict_set].
  - intros _. apply NoDup_singleton.
  - rewrite fmap_cons. cbn [fst]. intros [Hk0 Hd]%NoDup_cons.
    destruct (String.eqb k0 key) eqn:Hk.
    + rewrite fmap_cons. by apply NoDup_cons.
    + rewrite fmap_cons. cbn [fst]. apply NoDup_cons. split; [|by apply IH].
      apply dict_lookup_None_keys. rewrite dict_lookup_set.
      rewrite String.eqb_sym in Hk. rewrite Hk.
      by apply dict_lookup_None_keys.
Qed.

(** What [level_unique_frag_dict] keeps: it is a dict, and each of its
    lists is [unique_under] its key. *)
Definition level_inv (use_igraph : bool) (d : frag_dict) : Prop :=
  Forall (unique_under use_igraph) d ∧ NoDup d.*1.

Lemma consider_fragment_unique cfg st fragment :
  level_inv (s_use_igraph cfg) st.1 →
  level_inv (s_use_igraph cfg) (consider_fragment cfg st fragment).1.
Proof.
  destruct st as [level new_frag_dict]. cbn [fst]. intros [Hlevel Hkeys].
  unfold consider_fragment. cbv zeta.
  match goal with
  | |- level_inv _ (if ?c then _ else _).1 => destruct c; [|done]
  end.
  destruct (dict_lookup (frag_key fragment) level) as [l|] eqn:Hl.
  - destruct (existsb _ l) eqn:Hfound; [done|]. cbn [fst].
    split; [|by apply dict_set_NoDup].
    apply dict_set_Forall; [done|].
    apply unique_under_snoc; [|done].
    apply dict_lookup_elem in Hl.
    by apply (proj1 (Forall_forall _ _) Hlevel) in Hl.
  - cbn [fst]. split; [|by apply dict_set_NoDup].
    apply dict_set_Forall; [done|]. apply unique_under_singleton.
Qed.

Lemma fragment_one_level_unique cfg level old_frag_dict :
  level_inv (s_use_igraph cfg) level →
  level_inv (s_use_igraph cfg)
            (_fragment_one_level cfg level old_frag_dict).2.
Proof.
  intros Hlevel. unfold _fragment_one_level. cbv zeta. cbn [snd].
  apply (foldl_inv (λ st, level_inv (s_use_igraph cfg) st.1)); [|done].
  intros st kv Hst _. apply foldl_inv; [|done].
  intros st1 old_frag Hst1 _. apply foldl_inv; [|done].
  intros st2 edge Hst2 _. unfold break_edge.
  destruct (split_molecule_subgraphs old_frag _) as [fragments|].
  - apply foldl_inv; [|done].
    intros st3 fragment Hst3 _. by apply consider_fragment_unique.
  - destruct (s_open_rings cfg); [|done]. by apply consider_fragment_unique.
Qed.

Lemma fragment_levels_unique cfg g levels : ∀ level_dict by_level,
  level_inv (s_use_igraph cfg) level_dict →
  level_inv (s_use_igraph cfg)
            (fragment_levels cfg g levels level_dict by_level).1.
Proof.
  induction levels as [|level levels IH]; intros level_dict by_level Hlevel;
    cbn [fragment_levels]; [done|].
  destruct level as [|before].
  - pose proof (fragment_one_level_unique cfg level_dict
                  [(frag_key g, [g])] Hlevel) as Hone.
    destruct (_fragment_one_level cfg level_dict _) as [new_frag_dict ld].
    by apply IH.
  - destruct (dict_lookup (pretty before) by_level) as [old_frag_dict|];
      [|done].
    destruct (count_fragments old_frag_dict =? 0); [done|].
    pose proof (fragment_one_level_unique cfg level_dict old_frag_dict Hlevel)
      as Hone.
    destruct (_fragment_one_level cfg level_dict _) as [new_frag_dict ld].
    by apply IH.
Qed.

Lemma level_inv_nil use_igraph : level_inv use_igraph [].
Proof. split; [apply Forall_nil_2|apply NoDup_nil_2]. Qed.

(** X18. In [level_unique_frag_dict] every fragment is stored under its own
    key, and under one key no fragment is isomorphic to one stored before
    it. *)
Theorem level_fragments_unique fuel g depth open_rings opt_steps use_igraph
    prev self key l :
  Fragmenter_init fuel g depth open_rings opt_steps use_igraph prev
    = Some self →
  dict_lookup key (level_unique_frag_dict self) = Some l →
  (∀ f, f ∈ l → frag_key f = key)
  ∧ ∀ i j f1 f2, l !! i = Some f1 → l !! j = Some f2 → i < j →
      isomorphic f1 f2 use_igraph = false.
Proof.
  intros Hinit Hl. unfold Fragmenter_init in Hinit.
  destruct (depth =? 0)%Z.
  - destruct (if open_rings then _ else _) as [ufs|]; [|done].
    simpl in Hinit. injection Hinit as <-. done.
  - destruct (fragment_levels _ _ _ _ _) as [level_dict by_level] eqn:Hlev.
    simpl in Hinit. injection Hinit as <-. cbn in Hl.
    match type of Hlev with
    | fragment_levels ?cfg _ _ _ _ = _ =>
        pose proof (fragment_levels_unique cfg g (seq 0 (Z.to_nat depth))
                      [] [] (level_inv_nil _)) as [Huniq _]
    end.
    rewrite Hlev in Huniq. cbn [fst s_use_igraph] in Huniq.
    apply dict_lookup_elem in Hl.
    by apply (proj1 (Forall_forall _ _) Huniq) in Hl.
Qed.

(** *** Found fragments, new fragments and previous fragments *)

Lemma dict_lookup_NoDup_elem {V} key (v : V) (d : list (string * V)) :
  NoDup d.*1 → (key, v) ∈ d → dict_lookup key d = Some v.
Proof.
  induction d as [|[k0 v0] d IH]; [by intros _ ?%elem_of_nil|].
  rewrite fmap_cons. cbn [fst dict_lookup].
  intros [Hk0 Hd]%NoDup_cons [[= <- <-]|Hin]%elem_of_cons.
  - by rewrite String.eqb_refl.
  - destruct (String.eqb k0 key) eqn:Hk; [|by apply IH].
    apply String.eqb_eq in Hk as ->. exfalso. apply Hk0.
    apply list_elem_of_fmap. by exists (key, v).
Qed.

Lemma dict_add_fragment_lookup key f (d : frag_dict) k' :
  dict_lookup k' (dict_add_fragment key f d)
  = if String.eqb key k'
    then Some (default [] (dict_lookup key d) ++ [f])
    else dict_lookup k' d.
Proof.
  unfold dict_add_fragment.
  destruct (dict_lookup key d) as [l|]; by rewrite dict_lookup_set.
Qed.

Lemma dict_add_fragment_Forall (R : string → MoleculeGraph → Prop) key f
    (d : frag_dict) :
  Forall (λ kv, ∀ f, f ∈ kv.2 → R kv.1 f) d → R key f →
  Forall (λ kv, ∀ f, f ∈ kv.2 → R kv.1 f) (dict_add_fragment key f d).
Proof.
  intros Hd Hf. unfold dict_add_fragment.
  destruct (dict_lookup key d) as [l|] eqn:Hl; apply dict_set_Forall;
    try done; cbn [fst snd].
  - intros f' [Hin| ->%list_elem_of_singleton]%elem_of_app; [|done].
    apply dict_lookup_elem in Hl.
    by apply (proj1 (Forall_forall _ _) Hd _ Hl).
  - by intros f' ->%list_elem_of_singleton.
Qed.

(** [fragment] is in the dict, under its key. *)
Definition stored (d : frag_dict) (fragment : MoleculeGraph) : Prop :=
  ∃ l, dict_lookup (frag_key fragment) d = Some l ∧ fragment ∈ l.

(** A previous fragment with the key of [fragment] is isomorphic to it. *)
Definition previous (cfg : settings) (fragment : MoleculeGraph) : Prop :=
  ∃ prevs prev_frag,
    dict_lookup (frag_key fragment) (s_prev_unique_frag_dict cfg) = Some prevs
    ∧ prev_frag ∈ prevs
    ∧ isomorphic fragment prev_frag (s_use_igraph cfg) = true.

Lemma stored_add d key g f :
  stored d f → stored (dict_add_fragment key g d) f.
Proof.
  intros (l & Hl & Hf). unfold stored. rewrite dict_add_fragment_lookup.
  destruct (String.eqb key (frag_key f)) eqn:Hk; [|by exists l].
  apply String.eqb_eq in Hk as ->. rewrite Hl. cbn [default].
  eexists. split; [done|]. apply elem_of_app. by left.
Qed.

Lemma stored_add_self d f : stored (dict_add_fragment (frag_key f) f d) f.
Proof.
  unfold stored. rewrite dict_add_fragment_lookup, String.eqb_refl.
  eexists. split; [done|]. apply elem_of_app. right. by left.
Qed.

Lemma existsb_true {A} (g : A → bool) (l : list A) :
  existsb g l = true → ∃ x, x ∈ l ∧ g x = true.
Proof.
  intros (x & Hin & Hx)%existsb_exists. exists x.
  split; [by apply list_elem_of_In|done].
Qed.

(** The loop of lines 131-138 over the fragments of one key. *)
Lemma filter_new_complete cfg prevs frags : ∀ acc f,
  dict_lookup (frag_key f) (s_prev_unique_frag_dict cfg) = Some prevs →
  stored acc f ∨ f ∈ frags →
  stored
    (foldl (λ new_unique_frag_dict fragment,
              let found :=
                existsb (λ prev_frag,
                           isomorphic fragment prev_frag (s_use_igraph cfg))
                        prevs in
              if found then new_unique_frag_dict
              else dict_add_fragment (frag_key f) fragment
                                     new_unique_frag_dict)
           acc frags) f
  ∨ previous cfg f.
Proof.
  induction frags as [|fragment frags IH] using rev_ind; intros acc f Hprev.
  - intros [?|?%elem_of_nil]; [by left|done].
  - rewrite foldl_snoc. cbv zeta.
    intros [Hacc|[Hin| ->%list_elem_of_singleton]%elem_of_app].
    + destruct (IH acc f Hprev (or_introl Hacc)) as [Hst|?]; [|by right].
      left. destruct (existsb _ prevs); [done|]. by apply stored_add.
    + destruct (IH acc f Hprev (or_intror Hin)) as [Hst|?]; [|by right].
      left. destruct (existsb _ prevs); [done|]. by apply stored_add.
    + destruct (existsb _ prevs) eqn:Hfound.
      * right. apply existsb_true in Hfound as (p & Hp & Hiso).
        by exists prevs, p.
      * left. apply stored_add_self.
Qed.

Lemma new_fragments_depth0_complete cfg unique_fragments f :
  f ∈ unique_fragments →
  stored (new_fragments_depth0 cfg unique_fragments) f ∨ previous cfg f.
Proof.
  unfold new_fragments_depth0.
  induction unique_fragments as [|fragment l IH] using rev_ind;
    [by intros ?%elem_of_nil|].
  rewrite foldl_snoc. cbv zeta.
  intros [Hin|Heq%list_elem_of_singleton]%elem_of_app.
  2: subst fragment.
  - destruct (IH Hin) as [Hst|?]; [|by right]. left.
    match goal with
    | |- stored (if ?c then _ else _) _ => destruct c; [|done]
    end.
    by apply stored_add.
  - destruct (dict_lookup (frag_key f) (s_prev_unique_frag_dict cfg))
      as [prevs|] eqn:Hprev.
    + destruct (existsb _ prevs) eqn:Hfound; cbn [negb].
      * right. apply existsb_true in Hfound as (p & Hp & Hiso).
        by exists prevs, p.
      * left. apply stored_add_self.
    + left. apply stored_add_self.
Qed.

Lemma new_fragments_iterative_complete cfg level_dict key l f :
  level_inv (s_use_igraph cfg) level_dict →
  (key, l) ∈ level_dict → f ∈ l →
  stored (new_fragments_iterative cfg level_dict) f ∨ previous cfg f.
Proof.
  intros [Huniq Hkeys] Hin Hf. unfold new_fragments_iterative.
  assert (Hkeyed : ∀ k l' f', (k, l') ∈ level_dict → f' ∈ l' →
            frag_key f' = k).
  { intros k l' f' Hkl Hf'.
    by apply (proj1 (proj1 (Forall_forall _ _) Huniq _ Hkl)). }
  destruct (dict_nonempty (s_prev_unique_frag_dict cfg)); cbn [negb].
  2: { left. exists l. split; [|done].
       rewrite (Hkeyed key l f Hin Hf).
       by apply dict_lookup_NoDup_elem. }
  clear Huniq. revert Hkeys Hkeyed Hin.
  induction level_dict as [|[k0 l0] d IH] using rev_ind;
    [by intros _ _ ?%elem_of_nil|].
  rewrite fmap_app, foldl_snoc. cbn [fmap list_fmap fst snd]. cbv zeta.
  intros [Hd [Hk0 _]]%NoDup_app Hkeyed Hin.
  assert (Hk0d : k0 ∉ d.*1).
  { intros Hk. apply (Hk0 k0 Hk). by left. }
  match goal with
  | |- context [foldl ?G [] d] => set (acc := foldl G [] d) in *
  end.
  apply elem_of_app in Hin as [Hin|[= -> ->]%list_elem_of_singleton].
  - assert (Hacc : stored acc f ∨ previous cfg f).
    { apply IH; [done| |done].
      intros k l' f' Hkl Hf'. apply (Hkeyed k l' f'); [|done].
      apply elem_of_app. by left. }
    destruct Hacc as [Hacc|?]; [|by right].
    assert (Hne : k0 ≠ frag_key f).
    { intros ->. apply Hk0d.
      rewrite (Hkeyed key l f); [|apply elem_of_app; by left|done].
      apply list_elem_of_fmap. by exists (key, l). }
    left.
    destruct (dict_lookup k0 (s_prev_unique_frag_dict cfg)) as [prevs|].
    + apply foldl_inv; [|done].
      intros a x Ha _. destruct (existsb _ prevs); [done|].
      by apply stored_add.
    + destruct Hacc as (l' & Hl' & Hf'). exists l'. split; [|done].
      rewrite dict_lookup_set.
      apply String.eqb_neq in Hne. by rewrite Hne.
  - assert (Hkey : frag_key f = k0).
    { apply (Hkeyed k0 l0 f); [|done]. apply elem_of_app. right. by left. }
    subst k0.
    destruct (dict_lookup (frag_key f) (s_prev_unique_frag_dict cfg))
      as [prevs|] eqn:Hprev.
    + apply filter_new_complete; [done|by right].
    + left. exists l0. split; [|done].
      by rewrite dict_lookup_set, String.eqb_refl.
Qed.

(** X19. Nothing that is found is lost: a fragment of [unique_fragments]
    (non-iterative scheme) or of [level_unique_frag_dict] (iterative
    scheme) is stored in [new_unique_frag_dict] under its key, or a previous
    fragment with its key is isomorphic to it. *)
Theorem found_fragments_new_or_previous fuel g depth open_rings opt_steps
    use_igraph prev self f :
  Fragmenter_init fuel g depth open_rings opt_steps use_igraph prev
    = Some self →
  f ∈ unique_fragments self
  ∨ (∃ key l, dict_lookup key (level_unique_frag_dict self) = Some l
              ∧ f ∈ l) →
  (∃ l, dict_lookup (frag_key f) (new_unique_frag_dict self) = Some l
        ∧ f ∈ l)
  ∨ (∃ prevs prev_frag,
       dict_lookup (frag_key f) (prev_unique_frag_dict self) = Some prevs
       ∧ prev_frag ∈ prevs
       ∧ isomorphic f prev_frag use_igraph = true).
Proof.
  intros Hinit Hfound. unfold Fragmenter_init in Hinit.
  destruct (depth =? 0)%Z.
  - destruct (if open_rings then _ else _) as [ufs|]; [|done].
    simpl in Hinit. injection Hinit as <-.
    cbn [unique_fragments level_unique_frag_dict new_unique_frag_dict
         prev_unique_frag_dict] in *.
    destruct Hfound as [Hin|(key & l & Hl & _)]; [|done].
    match goal with
    | |- (∃ l, dict_lookup _ (new_fragments_depth0 ?cfg _) = _ ∧ _) ∨ _ =>
        apply (new_fragments_depth0_complete cfg ufs f Hin)
    end.
  - destruct (fragment_levels _ _ _ _ _) as [level_dict by_level] eqn:Hlev.
    simpl in Hinit. injection Hinit as <-.
    cbn [unique_fragments level_unique_frag_dict new_unique_frag_dict
         prev_unique_frag_dict] in *.
    destruct Hfound as [Hin|(key & l & Hl & Hf)];
      [by apply elem_of_nil in Hin|].
    match type of Hlev with
    | fragment_levels ?cfg _ _ _ _ = _ =>
        pose proof (fragment_levels_unique cfg g (seq 0 (Z.to_nat depth))
                      [] [] (level_inv_nil _)) as Hinv;
        rewrite Hlev in Hinv;
        apply (new_fragments_iterative_complete cfg level_dict key l f Hinv);
          [by apply dict_lookup_elem|done]
    end.
Qed.

Lemma new_fragments_depth0_sound cfg unique_fragments :
  Forall (λ kv, ∀ f, f ∈ kv.2 → frag_key f = kv.1 ∧ f ∈ unique_fragments)
         (new_fragments_depth0 cfg unique_fragments).
Proof.
  unfold new_fragments_depth0.
  apply (foldl_inv
           (Forall (λ kv, ∀ f, f ∈ kv.2 →
                      frag_key f = kv.1 ∧ f ∈ unique_fragments)));
    [|apply Forall_nil_2].
  intros acc fragment Hacc Hin. cbv zeta.
  match goal with
  | |- Forall _ (if ?c then _ else _) => destruct c; [|done]
  end.
  by apply (dict_add_fragment_Forall
              (λ k f, frag_key f = k ∧ f ∈ unique_fragments)).
Qed.

Lemma new_fragments_iterative_sound cfg level_dict :
  level_inv (s_use_igraph cfg) level_dict →
  Forall (λ kv, ∀ f, f ∈ kv.2 →
            frag_key f = kv.1
            ∧ ∃ l, dict_lookup kv.1 level_dict = Some l ∧ f ∈ l)
         (new_fragments_iterative cfg level_dict).
Proof.
  intros [Huniq Hkeys].
  assert (Hentry : ∀ k l, (k, l) ∈ level_dict → ∀ f, f ∈ l →
            frag_key f = k
            ∧ ∃ l', dict_lookup k level_dict = Some l' ∧ f ∈ l').
  { intros k l Hkl f Hf. split.
    - by apply (proj1 (proj1 (Forall_forall _ _) Huniq _ Hkl)).
    - exists l. split; [by apply dict_lookup_NoDup_elem|done]. }
  unfold new_fragments_iterative.
  destruct (dict_nonempty (s_prev_unique_frag_dict cfg)); cbn [negb].
  2: { apply Forall_forall. intros [k l] Hkl. by apply Hentry. }
  apply (foldl_inv
           (Forall (λ kv, ∀ f, f ∈ kv.2 →
                      frag_key f = kv.1
                      ∧ ∃ l, dict_lookup kv.1 level_dict = Some l ∧ f ∈ l)));
    [|apply Forall_nil_2].
  intros acc [k0 l0] Hacc Hin. cbv zeta. cbn [fst snd].
  destruct (dict_lookup k0 (s_prev_unique_frag_dict cfg)) as [prevs|].
  - apply (foldl_inv
             (Forall (λ kv, ∀ f, f ∈ kv.2 →
                        frag_key f = kv.1
                        ∧ ∃ l, dict_lookup kv.1 level_dict = Some l ∧ f ∈ l)));
      [|done].
    intros acc' fragment Hacc' Hf. destruct (existsb _ prevs); [done|].
    apply (dict_add_fragment_Forall
             (λ k f, frag_key f = k
                     ∧ ∃ l, dict_lookup k level_dict = Some l ∧ f ∈ l));
      [done|]. by apply (Hentry k0 l0).
  - apply dict_set_Forall; [done|]. cbn [fst snd]. by apply Hentry.
Qed.

(** X20. Nothing is made up: a fragment stored in [new_unique_frag_dict]
    is stored under its own key, and it is one of [unique_fragments]
    (non-iterative scheme) or stored in [level_unique_frag_dict] under the
    same key (iterative scheme). *)
Theorem new_fragments_are_found fuel g depth open_rings opt_steps
    use_igraph prev self key l f :
  Fragmenter_init fuel g depth open_rings opt_steps use_igraph prev
    = Some self →
  dict_lookup key (new_unique_frag_dict self) = Some l →
  f ∈ l →
  frag_key f = key
  ∧ (f ∈ unique_fragments self
     ∨ ∃ l', dict_lookup key (level_unique_frag_dict self) = Some l'
             ∧ f ∈ l').
Proof.
  intros Hinit Hl Hf. apply dict_lookup_elem in Hl.
  unfold Fragmenter_init in Hinit.
  destruct (depth =? 0)%Z.
  - destruct (if open_rings then _ else _) as [ufs|]; [|done].
    simpl in Hinit. injection Hinit as <-.
    cbn [unique_fragments level_unique_frag_dict new_unique_frag_dict] in *.
    match type of Hl with
    | _ ∈ new_fragments_depth0 ?cfg _ =>
        pose proof (new_fragments_depth0_sound cfg ufs) as Hsound
    end.
    destruct (proj1 (Forall_forall _ _) Hsound _ Hl f Hf) as [? ?].
    split; [done|by left].
  - destruct (fragment_levels _ _ _ _ _) as [level_dict by_level] eqn:Hlev.
    simpl in Hinit. injection Hinit as <-.
    cbn [unique_fragments level_unique_frag_dict new_unique_frag_dict] in *.
    match type of Hlev with
    | fragment_levels ?cfg _ _ _ _ = _ =>
        pose proof (fragment_levels_unique cfg g (seq 0 (Z.to_nat depth))
                      [] [] (level_inv_nil _)) as Hinv;
        rewrite Hlev in Hinv;
        pose proof (new_fragments_iterative_sound cfg level_dict Hinv)
          as Hsound
    end.
    destruct (proj1 (Forall_forall _ _) Hsound _ Hl f Hf) as [? ?].
    split; [done|by right].
Qed.

(** *** Opening the rings *)

(** [l'] is [l] with fragments appended, each from opening a bond of the
    first ring of a fragment of [l'], and none isomorphic to a fragment
    before it in [l']. *)
Definition rings_opened (cfg : settings) (l l' : list MoleculeGraph) : Prop :=
  ∃ more, l' = l ++ more
    ∧ ∀ j new_fragment, more !! j = Some new_fragment →
        (∃ fragment ring rest bond,
           fragment ∈ l' ∧ find_rings fragment = ring :: rest ∧ bond ∈ ring
           ∧ new_fragment = open_ring fragment [bond] (s_opt_steps cfg))
        ∧ ∀ i unique_fragment,
            l' !! i = Some unique_fragment → i < length l + j →
            isomorphic unique_fragment new_fragment (s_use_igraph cfg)
            = false.

Lemma rings_opened_refl cfg l : rings_opened cfg l l.
Proof. exists []. split; [by rewrite app_nil_r|]. by intros j f. Qed.

Lemma rings_opened_trans cfg l1 l2 l3 :
  rings_opened cfg l1 l2 → rings_opened cfg l2 l3 → rings_opened cfg l1 l3.
Proof.
  intros (m1 & -> & H1) (m2 & -> & H2). exists (m1 ++ m2).
  split; [by rewrite app_assoc|].
  intros j f Hj.
  destruct (decide (j < length m1)) as [Hlt|Hge].
  - rewrite lookup_app_l in Hj by done.
    destruct (H1 j f Hj) as [(frag & ring & rest & bond & Hin & Hr & Hb & ->)
                               Hiso].
    split.
    + exists frag, ring, rest, bond. split_and!; [|done..].
      apply elem_of_app. by left.
    + intros i u Hi Hlt'. apply (Hiso i u); [|done].
      rewrite lookup_app_l in Hi; [done|]. rewrite length_app. lia.
  - rewrite lookup_app_r in Hj by lia.
    destruct (H2 _ f Hj) as [Hprov Hiso]. split; [done|].
    intros i u Hi Hlt'. apply (Hiso i u Hi). rewrite length_app. lia.
Qed.

Lemma rings_opened_snoc cfg l fragment ring rest bond :
  fragment ∈ l → find_rings fragment = ring :: rest → bond ∈ ring →
  existsb (λ unique_fragment,
             isomorphic unique_fragment
               (open_ring fragment [bond] (s_opt_steps cfg))
               (s_use_igraph cfg)) l = false →
  rings_opened cfg l (l ++ [open_ring fragment [bond] (s_opt_steps cfg)]).
Proof.
  intros Hin Hr Hb Hfound. eexists. split; [done|].
  intros j f Hj. destruct j as [|j]; [|done]. injection Hj as <-. split.
  - exists fragment, ring, rest, bond. split_and!; [|done..].
    apply elem_of_app. by left.
  - intros i u Hi Hlt. rewrite lookup_app_l in Hi by lia.
    apply (existsb_false _ _ _ Hfound). by eapply list_elem_of_lookup_2.
Qed.

Lemma open_rings_of_opened cfg fragment unique_fragments :
  fragment ∈ unique_fragments →
  rings_opened cfg unique_fragments
               (open_rings_of cfg fragment unique_fragments).
Proof.
  intros Hin. unfold open_rings_of.
  destruct (find_rings fragment) as [|ring rest] eqn:Hr;
    [apply rings_opened_refl|].
  assert (Hgen : ∀ bonds, (∀ bond, bond ∈ bonds → bond ∈ ring) →
    ∀ acc, fragment ∈ acc → rings_opened cfg unique_fragments acc →
    rings_opened cfg unique_fragments
      (foldl (λ unique_fragments bond,
                let new_fragment :=
                  open_ring fragment [bond] (s_opt_steps cfg) in
                let found :=
                  existsb (λ unique_fragment,
                             isomorphic unique_fragment new_fragment
                                        (s_use_igraph cfg))
                          unique_fragments in
                if found then unique_fragments
                else unique_fragments ++ [new_fragment])
             acc bonds)).
  { induction bonds as [|bond bonds IH]; intros Hsub acc Hacc Hopened;
      [done|].
    cbn [foldl]. cbv zeta.
    destruct (existsb _ acc) eqn:Hfound.
    - apply IH; [|done..]. intros b Hb. apply Hsub. by right.
    - apply IH.
      + intros b Hb. apply Hsub. by right.
      + apply elem_of_app. by left.
      + apply (rings_opened_trans _ _ acc); [done|].
        apply (rings_opened_snoc cfg acc fragment ring rest bond);
          [done|done| |done].
        apply Hsub. by left. }
  apply Hgen; [done|done|apply rings_opened_refl].
Qed.

Lemma open_rings_loop_opened fuel cfg : ∀ i unique_fragments r,
  open_rings_loop fuel cfg i unique_fragments = Some r →
  rings_opened cfg unique_fragments r.
Proof.
  induction fuel as [|fuel IH]; intros i ufs r; cbn [open_rings_loop].
  - destruct (ufs !! i); [done|]. intros [= <-]. apply rings_opened_refl.
  - destruct (ufs !! i) as [fragment|] eqn:Hi.
    + intros Hloop. apply (rings_opened_trans _ _ (open_rings_of cfg fragment ufs)).
      * apply open_rings_of_opened. by eapply list_elem_of_lookup_2.
      * by eapply IH.
    + intros [= <-]. apply rings_opened_refl.
Qed.

(** X21. [_open_all_rings] only appends: the fragments it is given stay
    first and in their order; each fragment it adds comes from opening a
    bond of the first ring of the molecule or of a fragment of the result,
    and no fragment before it, nor the molecule, is isomorphic to it. *)
Theorem open_all_rings_appends fuel cfg g unique_fragments r :
  _open_all_rings fuel cfg g unique_fragments = Some r →
  ∃ more, r = unique_fragments ++ more
    ∧ ∀ j new_fragment, more !! j = Some new_fragment →
        (∃ fragment ring rest bond,
           fragment ∈ g :: r ∧ find_rings fragment = ring :: rest
           ∧ bond ∈ ring
           ∧ new_fragment = open_ring fragment [bond] (s_opt_steps cfg))
        ∧ ∀ i unique_fragment,
            (g :: r) !! i = Some unique_fragment →
            i < S (length unique_fragments) + j →
            isomorphic unique_fragment new_fragment (s_use_igraph cfg)
            = false.
Proof.
  unfold _open_all_rings. intros Hopen.
  destruct (open_rings_loop fuel cfg 0 (g :: unique_fragments)) as [r0|]
    eqn:Hloop; [|done].
  injection Hopen as <-.
  destruct (open_rings_loop_opened _ _ _ _ _ Hloop) as (more & -> & Hmore).
  exists more. split; [done|]. exact Hmore.
Qed.

(** *** Previous and new fragments together *)

Lemma dict_add_fragment_NoDup key f (d : frag_dict) :
  NoDup d.*1 → NoDup (dict_add_fragment key f d).*1.
Proof.
  intros Hd. unfold dict_add_fragment.
  destruct (dict_lookup key d); by apply dict_set_NoDup.
Qed.

Lemma new_fragments_depth0_NoDup cfg unique_fragments :
  NoDup (new_fragments_depth0 cfg unique_fragments).*1.
Proof.
  unfold new_fragments_depth0.
  apply (foldl_inv (λ d : frag_dict, NoDup d.*1)); [|apply NoDup_nil_2].
  intros acc fragment Hacc _. cbv zeta.
  match goal with
  | |- NoDup (if ?c then _ else _).*1 => destruct c; [|done]
  end.
  by apply dict_add_fragment_NoDup.
Qed.

Lemma new_fragments_iterative_NoDup cfg (level_dict : frag_dict) :
  NoDup level_dict.*1 → NoDup (new_fragments_iterative cfg level_dict).*1.
Proof.
  intros Hlevel. unfold new_fragments_iterative.
  destruct (dict_nonempty (s_prev_unique_frag_dict cfg)); cbn [negb]; [|done].
  apply (foldl_inv (λ d : frag_dict, NoDup d.*1)); [|apply NoDup_nil_2].
  intros acc kv Hacc _. cbv zeta.
  destruct (dict_lookup kv.1 (s_prev_unique_frag_dict cfg)) as [prevs|].
  - apply (foldl_inv (λ d : frag_dict, NoDup d.*1)); [|done].
    intros acc' fragment Hacc' _. destruct (existsb _ prevs); [done|].
    by apply dict_add_fragment_NoDup.
  - by apply dict_set_NoDup.
Qed.

Lemma merge_fragments_lookup (new_dict : frag_dict) :
  NoDup new_dict.*1 →
  ∀ (prev : frag_dict) key,
    dict_lookup key
      (foldl (λ unique_frag_dict kv,
                match dict_lookup kv.1 unique_frag_dict with
                | Some l => dict_set kv.1 (l ++ kv.2) unique_frag_dict
                | None => dict_set kv.1 kv.2 unique_frag_dict
                end)
             prev new_dict)
    = match dict_lookup key new_dict with
      | Some news => Some (default [] (dict_lookup key prev) ++ news)
      | None => dict_lookup key prev
      end.
Proof.
  induction new_dict as [|[k0 l0] new_dict IH]; intros Hnew prev key;
    cbn [foldl dict_lookup fst snd]; [done|].
  rewrite fmap_cons in Hnew. cbn [fst] in Hnew.
  apply NoDup_cons in Hnew as [Hk0 Hnew].
  rewrite (IH Hnew).
  assert (Hstep : dict_lookup key
            match dict_lookup k0 prev with
            | Some l => dict_set k0 (l ++ l0) prev
            | None => dict_set k0 l0 prev
            end
          = if String.eqb k0 key
            then Some (default [] (dict_lookup k0 prev) ++ l0)
            else dict_lookup key prev).
  { destruct (dict_lookup k0 prev); by rewrite dict_lookup_set. }
  rewrite Hstep.
  destruct (String.eqb k0 key) eqn:Hk.
  - apply String.eqb_eq in Hk as <-.
    apply dict_lookup_None_keys in Hk0. by rewrite Hk0.
  - done.
Qed.

(** X22. [unique_frag_dict] holds, under every key, the previous fragments
    of the key followed by its new fragments. *)
Theorem unique_frag_dict_lookup fuel g depth open_rings opt_steps
    use_igraph prev self key :
  Fragmenter_init fuel g depth open_rings opt_steps use_igraph prev
    = Some self →
  dict_lookup key (unique_frag_dict self)
  = match dict_lookup key (new_unique_frag_dict self) with
    | Some news =>
        Some (default [] (dict_lookup key (prev_unique_frag_dict self))
              ++ news)
    | None => dict_lookup key (prev_unique_frag_dict self)
    end.
Proof.
  intros Hinit.
  assert (Hkeys : NoDup (new_unique_frag_dict self).*1).
  { unfold Fragmenter_init in Hinit.
    destruct (depth =? 0)%Z.
    - destruct (if open_rings then _ else _) as [ufs|]; [|done].
      simpl in Hinit. injection Hinit as <-. cbn [new_unique_frag_dict].
      apply new_fragments_depth0_NoDup.
    - destruct (fragment_levels _ _ _ _ _) as [level_dict by_level] eqn:Hlev.
      simpl in Hinit. injection Hinit as <-. cbn [new_unique_frag_dict].
      apply new_fragments_iterative_NoDup.
      match type of Hlev with
      | fragment_levels ?cfg _ _ _ _ = _ =>
          pose proof (fragment_levels_unique cfg g (seq 0 (Z.to_nat depth))
                        [] [] (level_inv_nil _)) as [_ Hinv]
      end.
      by rewrite Hlev in Hinv. }
  destruct (Fragmenter_init_fields _ _ _ _ _ _ _ _ Hinit)
    as (-> & -> & _).
  unfold merge_fragments.
  destruct (default [] prev) as [|kv d] eqn:Hprev; cbn [dict_nonempty negb].
  - cbn [dict_lookup]. by destruct (dict_lookup key _).
  - by apply merge_fragments_lookup.
Qed.

End Fragmenter.

(** *** Carbon chains: a graph is the number of its atoms and a mark that
    tells two isomers apart; breaking the bond after atom [i] leaves the
    chains of [i + 1] and of the remaining atoms. *)

Definition chain : Type := nat * bool.

Definition chain_formula (g : chain) : string := "C" +:+ pretty g.1.

Definition chain_edges (g : chain) : list (nat * nat) :=
  (λ i, (i, S i)) <$> seq 0 (g.1 - 1).

Definition chain_isomorphic (a b : chain) (_ : bool) : bool :=
  bool_decide (a = b).

Definition chain_fragments (g : chain) (_ : bool) : list chain :=
  (λ n, (n, g.2)) <$> seq 1 (g.1 - 1).

Definition chain_split (g : chain) (bond : list (nat * nat))
  : option (list chain) :=
  match bond with
  | [(i, _)] => Some [(S i, g.2); (g.1 - S i, g.2)]
  | _ => None
  end.

Definition chain_rings (_ : chain) : list (list (nat * nat)) := [].

Definition chain_open_ring (g : chain) (_ : list (nat * nat)) (_ : nat)
  : chain := g.

Definition chain_fragmenter (depth : Z) : option (Fragmenter (MoleculeGraph := chain)) :=
  Fragmenter_init chain_formula chain_edges chain_isomorphic chain_fragments
    chain_split chain_rings chain_open_ring
    0 (3, false) depth false 0 false
    (Some [("C2 E1", [(2, true)]); ("C1 E0", [(1, false)])]).

Example chain_iterative :
  new_unique_frag_dict <$> chain_fragmenter 1
  = Some [("C2 E1", [(2, false)])].
Proof. vm_compute. reflexivity. Qed.

Example chain_all_fragments :
  new_unique_frag_dict <$> chain_fragmenter 0
  = Some [("C2 E1", [(2, false)])].
Proof. vm_compute. reflexivity. Qed.

Lemma new_fragments_not_previous_witness :
  chain_isomorphic (2, false) (2, true) false = false.
Proof.
  eapply (new_fragments_not_previous chain_formula chain_edges
            chain_isomorphic chain_fragments chain_split chain_rings
            chain_open_ring 0 (3, false) 1 false 0 false
            (Some [("C2 E1", [(2, true)]); ("C1 E0", [(1, false)])])
            _ "C2 E1" [(2, false)] [(2, true)]).
  - vm_compute. reflexivity.
  - reflexivity.
  - reflexivity.
  - by left.
  - by left.
Defined.

Lemma total_is_previous_plus_new_witness :
  ∃ self, chain_fragmenter 1 = Some self
    ∧ total_unique_fragments self
      = count_fragments (prev_unique_frag_dict self)
        + new_unique_fragments self.
Proof.
  eexists. split; [vm_compute; reflexivity|].
  apply (total_is_previous_plus_new chain_formula chain_edges
           chain_isomorphic chain_fragments chain_split chain_rings
           chain_open_ring 0 (3, false) 1 false 0 false
           (Some [("C2 E1", [(2, true)]); ("C1 E0", [(1, false)])])).
  vm_compute. reflexivity.
Defined.

Lemma level_fragments_unique_witness :
  (∀ f, f ∈ [(2, false)] → frag_key chain_formula chain_edges f = "C2 E1")
  ∧ ∀ i j f1 f2,
      [(2, false)] !! i = Some f1 → [(2, false)] !! j = Some f2 → i < j →
      chain_isomorphic f1 f2 false = false.
Proof.
  eapply (level_fragments_unique chain_formula chain_edges
            chain_isomorphic chain_fragments chain_split chain_rings
            chain_open_ring 0 (3, false) 1 false 0 false
            (Some [("C2 E1", [(2, true)]); ("C1 E0", [(1, false)])])
            _ "C2 E1" [(2, false)]).
  - vm_compute. reflexivity.
  - reflexivity.
Defined.

Lemma found_fragments_new_or_previous_witness :
  ∃ self, chain_fragmenter 1 = Some self
    ∧ ((∃ l, dict_lookup (frag_key chain_formula chain_edges (2, false))
                         (new_unique_frag_dict self) = Some l
             ∧ (2, false) ∈ l)
       ∨ (∃ prevs prev_frag,
            dict_lookup (frag_key chain_formula chain_edges (2, false))
                        (prev_unique_frag_dict self) = Some prevs
            ∧ prev_frag ∈ prevs
            ∧ chain_isomorphic (2, false) prev_frag false = true)).
Proof.
  eexists. split; [vm_compute; reflexivity|].
  apply (found_fragments_new_or_previous chain_formula chain_edges
           chain_isomorphic chain_fragments chain_split chain_rings
           chain_open_ring 0 (3, false) 1 false 0 false
           (Some [("C2 E1", [(2, true)]); ("C1 E0", [(1, false)])])).
  - vm_compute. reflexivity.
  - right. exists "C2 E1", [(2, false)]. split; [reflexivity|by left].
Defined.

Lemma new_fragments_are_found_witness :
  ∃ self, chain_fragmenter 0 = Some self
    ∧ frag_key chain_formula chain_edges (2, false) = "C2 E1"
    ∧ ((2, false) ∈ unique_fragments self
       ∨ ∃ l', dict_lookup "C2 E1" (level_unique_frag_dict self) = Some l'
               ∧ (2, false) ∈ l').
Proof.
  eexists. split; [vm_compute; reflexivity|].
  apply (new_fragments_are_found chain_formula chain_edges
           chain_isomorphic chain_fragments chain_split chain_rings
           chain_open_ring 0 (3, false) 0 false 0 false
           (Some [("C2 E1", [(2, true)]); ("C1 E0", [(1, false)])])
           _ "C2 E1" [(2, false)]).
  - vm_compute. reflexivity.
  - reflexivity.
  - by left.
Defined.

(** *** Rings: the mark of a graph now tells a ring from a chain; a ring has
    one ring, of all its bonds, and opening any bond leaves the chain of as
    many atoms. *)

Definition ring_rings (g : chain) : list (list (nat * nat)) :=
  if g.2 then [(λ i, (i, S i mod g.1)) <$> seq 0 g.1] else [].

Definition ring_open (g : chain) (_ : list (nat * nat)) (_ : nat) : chain :=
  (g.1, false).

Definition ring_settings : settings (MoleculeGraph := chain) :=
  {| s_assume_previous_thoroughness := true; s_open_rings := true;
     s_opt_steps := 0; s_use_igraph := false;
     s_prev_unique_frag_dict := [] |}.

Example ring_opened_once :
  _open_all_rings chain_isomorphic ring_rings ring_open 3 ring_settings
    (3, true) [(2, false)]
  = Some [(2, false); (3, false)].
Proof. reflexivity. Qed.

Lemma open_all_rings_appends_witness :
  ∃ more, [(2, false); (3, false)] = [(2, false)] ++ more
    ∧ ∀ j new_fragment, more !! j = Some new_fragment →
        (∃ fragment ring rest bond,
           fragment ∈ (3, true) :: [(2, false); (3, false)]
           ∧ ring_rings fragment = ring :: rest
           ∧ bond ∈ ring
           ∧ new_fragment = ring_open fragment [bond] 0)
        ∧ ∀ i unique_fragment,
            ((3, true) :: [(2, false); (3, false)]) !! i
            = Some unique_fragment →
            i < S (length [(2, false)]) + j →
            chain_isomorphic unique_fragment new_fragment false = false.
Proof.
  apply (open_all_rings_appends chain_isomorphic ring_rings ring_open
           3 ring_settings (3, true) [(2, false)] [(2, false); (3, false)]).
  reflexivity.
Defined.

Lemma unique_frag_dict_lookup_witness :
  ∃ self, chain_fragmenter 1 = Some self
    ∧ dict_lookup "C2 E1" (unique_frag_dict self)
      = match dict_lookup "C2 E1" (new_unique_frag_dict self) with
        | Some news =>
            Some (default []
                    (dict_lookup "C2 E1" (prev_unique_frag_dict self))
                  ++ news)
        | None => dict_lookup "C2 E1" (prev_unique_frag_dict self)
        end.
Proof.
  eexists. split; [vm_compute; reflexivity|].
  apply (unique_frag_dict_lookup chain_formula chain_edges
           chain_isomorphic chain_fragments chain_split chain_rings
           chain_open_ring 0 (3, false) 1 false 0 false
           (Some [("C2 E1", [(2, true)]); ("C1 E0", [(1, false)])])).
  vm_compute. reflexivity.
Defined.

End Fragmentation.
